(** * Brainfuck GA playground: interpreter and genetic algorithm

    A shallow embedding of [src/utils/brainfuck.ts] and
    [src/utils/genetic-algorithm.ts].

    Conventions of the embedding.
    - A JavaScript string is the list of its UTF-16 code units ([list Z]).
    - Integer-valued JavaScript numbers (indices, counters, sizes) are [Z];
      a number that may have become [NaN] is an [index].
    - Fractional numbers (rates, draws, accuracies, fitness) are rationals [Q].
      The genetic algorithm of [GA] computes with them exactly;
      [F64.evaluateIndividual] is the evaluation of an individual with every
      operation rounded to binary64, as the code computes it.
    - [bracketMap] is a [gmap Z Z]; a [Set<string>] is a [gset (list Z)]. *)

From Stdlib Require Import ZArith QArith Qround Qminmax Qabs Qpower Lqa List Sorted
  Lia String Ascii.
From Stdlib Require PrimFloat FloatOps SpecFloat Uint63.
From stdpp Require Import gmap list.

Local Open Scope Z_scope.

(** ** JavaScript strings *)

Abbreviation jsstring := (list Z).

(** The code units of an ASCII literal, for writing programs down. *)
Fixpoint str (s : string) : jsstring :=
  match s with
  | EmptyString => []
  | String a s' => Z.of_nat (nat_of_ascii a) :: str s'
  end.

Definition ch_gt : Z := 62.      (* '>' *)
Definition ch_lt : Z := 60.      (* '<' *)
Definition ch_plus : Z := 43.    (* '+' *)
Definition ch_minus : Z := 45.   (* '-' *)
Definition ch_dot : Z := 46.     (* '.' *)
Definition ch_comma : Z := 44.   (* ',' *)
Definition ch_open : Z := 91.    (* '[' *)
Definition ch_close : Z := 93.   (* ']' *)

(** [l[i]] for an integer [i], on a string or an array: [None] is
    [undefined]. *)
Definition item_at {A} (l : list A) (i : Z) : option A :=
  if i <? 0 then None else l !! Z.to_nat i.

Definition len {A} (l : list A) : Z := Z.of_nat (length l).

(** ** The interpreter (brainfuck.ts) *)

Module Interp.

(** A number used as the code pointer: [bracketMap[codePointer]] is
    [undefined] for a key that is absent, and [undefined + 1] is [NaN]. *)
Inductive index := Idx (i : Z) | NaN.

Definition memory_size : Z := 30000.

Record machine := {
  memory : list Z;
  pointer : Z;
  codePointer : index;
  inputPointer : Z;
  output : jsstring;
  steps : Z
}.

(** [buildBracketMap]: one pass with a stack of the open positions. *)
Fixpoint bracket_loop (code : jsstring) (i : Z) (stack : list Z)
    (map : gmap Z Z) : gmap Z Z :=
  match code with
  | [] => map
  | c :: rest =>
      if c =? ch_open then bracket_loop rest (i + 1) (i :: stack) map
      else if c =? ch_close then
        match stack with
        | start :: stack' =>
            bracket_loop rest (i + 1) stack' (<[i := start]> (<[start := i]> map))
        | [] => bracket_loop rest (i + 1) stack map
        end
      else bracket_loop rest (i + 1) stack map
  end.

Definition buildBracketMap (code : jsstring) : gmap Z Z :=
  bracket_loop code 0 [] ∅.

Definition cell (m : machine) : Z := default 0 (memory m !! Z.to_nat (pointer m)).

Definition set_cell (m : machine) (v : Z) : list Z :=
  <[Z.to_nat (pointer m) := v]> (memory m).

(** [codePointer = bracketMap[codePointer]] *)
Definition jump (bm : gmap Z Z) (cp : index) : index :=
  match cp with
  | Idx i =>
      match bm !! i with
      | Some target => Idx target
      | None => NaN
      end
  | NaN => NaN
  end.

(** [code[codePointer]] *)
Definition fetch (code : jsstring) (cp : index) : option Z :=
  match cp with
  | Idx i => item_at code i
  | NaN => None
  end.

(** [codePointer++] *)
Definition incr (i : index) : index :=
  match i with
  | Idx z => Idx (z + 1)
  | NaN => NaN
  end.

(** [codePointer < code.length] *)
Definition in_code (code : jsstring) (m : machine) : bool :=
  match codePointer m with
  | Idx z => z <? len code
  | NaN => false
  end.

(** The loop condition [codePointer < code.length && steps < maxSteps]. *)
Definition loop_cond (code : jsstring) (maxSteps : Z) (m : machine) : bool :=
  in_code code m && (steps m <? maxSteps).

(** The effect of the [switch] on one command, the code pointer not yet
    incremented. *)
Definition exec_command (input : jsstring) (bm : gmap Z Z)
    (command : option Z) (m : machine) : machine :=
  let keep := m in
  match command with
  | None => keep
  | Some c =>
      if c =? ch_gt then
        {| memory := memory m; pointer := Z.rem (pointer m + 1) (len (memory m));
           codePointer := codePointer m; inputPointer := inputPointer m;
           output := output m; steps := steps m |}
      else if c =? ch_lt then
        {| memory := memory m;
           pointer := Z.rem (pointer m - 1 + len (memory m)) (len (memory m));
           codePointer := codePointer m; inputPointer := inputPointer m;
           output := output m; steps := steps m |}
      else if c =? ch_plus then
        {| memory := set_cell m (Z.rem (cell m + 1) 256); pointer := pointer m;
           codePointer := codePointer m; inputPointer := inputPointer m;
           output := output m; steps := steps m |}
      else if c =? ch_minus then
        {| memory := set_cell m (Z.rem (cell m - 1 + 256) 256); pointer := pointer m;
           codePointer := codePointer m; inputPointer := inputPointer m;
           output := output m; steps := steps m |}
      else if c =? ch_dot then
        {| memory := memory m; pointer := pointer m;
           codePointer := codePointer m; inputPointer := inputPointer m;
           output := output m ++ [cell m mod 65536]; steps := steps m |}
      else if c =? ch_comma then
        if inputPointer m <? len input then
          {| memory := set_cell m (default 0 (item_at input (inputPointer m)));
             pointer := pointer m; codePointer := codePointer m;
             inputPointer := inputPointer m + 1;
             output := output m; steps := steps m |}
        else
          {| memory := set_cell m 0; pointer := pointer m;
             codePointer := codePointer m; inputPointer := inputPointer m;
             output := output m; steps := steps m |}
      else if c =? ch_open then
        if cell m =? 0 then
          {| memory := memory m; pointer := pointer m;
             codePointer := jump bm (codePointer m); inputPointer := inputPointer m;
             output := output m; steps := steps m |}
        else keep
      else if c =? ch_close then
        if negb (cell m =? 0) then
          {| memory := memory m; pointer := pointer m;
             codePointer := jump bm (codePointer m); inputPointer := inputPointer m;
             output := output m; steps := steps m |}
        else keep
      else keep
  end.

(** One iteration of the body of the [while] loop. *)
Definition step (code input : jsstring) (bm : gmap Z Z) (m : machine) : machine :=
  let command := fetch code (codePointer m) in
  let m1 := {| memory := memory m; pointer := pointer m;
               codePointer := codePointer m; inputPointer := inputPointer m;
               output := output m; steps := steps m + 1 |} in
  let m2 := exec_command input bm command m1 in
  {| memory := memory m2; pointer := pointer m2;
     codePointer := incr (codePointer m2); inputPointer := inputPointer m2;
     output := output m2; steps := steps m2 |}.

(** The [while] loop, cut after [fuel] iterations. *)
Fixpoint run (code input : jsstring) (bm : gmap Z Z) (maxSteps : Z)
    (fuel : nat) (m : machine) : machine :=
  match fuel with
  | O => m
  | S fuel' =>
      if loop_cond code maxSteps m
      then run code input bm maxSteps fuel' (step code input bm m)
      else m
  end.

Definition init : machine :=
  {| memory := replicate (Z.to_nat memory_size) 0; pointer := 0;
     codePointer := Idx 0; inputPointer := 0; output := []; steps := 0 |}.

(** The machine when the loop is left.  [steps] grows by one in every
    iteration and the loop stops at [maxSteps], so [maxSteps] iterations are
    all the loop can make ([final_loop_cond] below). *)
Definition final (code input : jsstring) (maxSteps : Z) : machine :=
  run code input (buildBracketMap code) maxSteps (Z.to_nat maxSteps) init.

Definition executeBrainfuck (code input : jsstring) (maxSteps : Z) : jsstring :=
  output (final code input maxSteps).

(** [k] iterations of the loop body, whatever the loop condition says. *)
Fixpoint iter (code input : jsstring) (bm : gmap Z Z) (k : nat) (m : machine) : machine :=
  match k with
  | O => m
  | S k' => iter code input bm k' (step code input bm m)
  end.

End Interp.

(** ** Randomness and effects

    [Math.random()] returns a number in the half-open interval from 0 to 1.
    A [draw] is such a number; the sequence of values the successive calls
    return is a function [nat -> draw], read through a cursor. *)

Definition Qltb (a b : Q) : bool := negb (Qle_bool b a).

Definition unit_range (q : Q) : bool := Qle_bool 0 q && Qltb q 1.

Record draw := { dval : Q; d_range : unit_range dval = true }.

(** How a call ends: it returns, it throws (a [TypeError] on a property of
    [undefined]), or a loop is still running when the fuel is used up. *)
Inductive outcome (A : Type) : Type :=
| Ret (a : A)
| Throw
| Timeout.
Arguments Ret {A} a.
Arguments Throw {A}.
Arguments Timeout {A}.

Definition M (A : Type) : Type := (nat -> draw) -> nat -> outcome (A * nat).

#[global] Instance M_ret : MRet M := fun A a _ i => Ret (a, i).

#[global] Instance M_bind : MBind M := fun A B k c rnd i =>
  match c rnd i with
  | Ret (a, j) => k a rnd j
  | Throw => Throw
  | Timeout => Timeout
  end.

(** [Math.random()] *)
Definition random : M Q := fun rnd i => Ret (dval (rnd i), S i).

Definition throw {A} : M A := fun _ _ => Throw.

Definition timeout {A} : M A := fun _ _ => Timeout.

(** [while (cond) body], cut after [fuel] iterations. *)
Fixpoint while {S : Type} (fuel : nat) (cond : S -> bool) (body : S -> M S)
    (s : S) {struct fuel} : M S :=
  if cond s then
    match fuel with
    | O => timeout
    | Datatypes.S fuel' => s' ← body s; while fuel' cond body s'
    end
  else mret s.

(** [Math.floor(r * n)] *)
Definition floor_mul (r : Q) (n : Z) : Z := Qfloor (r * inject_Z n).

(** [String.prototype.slice] and [Array.prototype.slice] with integer
    arguments: a negative index counts from the end. *)
Definition rel_index (n i : Z) : Z :=
  if i <? 0 then Z.max (n + i) 0 else Z.min i n.

Definition slice {A} (l : list A) (start stop : Z) : list A :=
  let a := rel_index (len l) start in
  let b := rel_index (len l) stop in
  take (Z.to_nat (b - a)) (drop (Z.to_nat a) l).

Definition slice_from {A} (l : list A) (start : Z) : list A :=
  slice l start (len l).

(** [s.substring(0, n)] *)
Definition substring0 (s : jsstring) (n : Z) : jsstring :=
  take (Z.to_nat (Z.min (Z.max n 0) (len s))) s.

(** [s || '+'] *)
Definition or_plus (s : jsstring) : jsstring :=
  match s with
  | [] => str "+"
  | _ => s
  end.

(** ** Program generation, mutation and crossover (brainfuck.ts) *)

Definition commands : list jsstring :=
  [str ">"; str "<"; str "+"; str "-"; str "."; str ","; str "["; str "]"].

(** [arr[Math.floor(Math.random() * arr.length)]], then used as a string:
    an [undefined] element would be appended as the text "undefined". *)
Definition pick (arr : list jsstring) : M jsstring :=
  r ← random;
  mret (default (str "undefined") (arr !! Z.to_nat (floor_mul r (len arr)))).

Fixpoint generate_loop (n : nat) (program : jsstring) (bracketDepth : Z)
    : M (jsstring * Z) :=
  match n with
  | O => mret (program, bracketDepth)
  | S n' =>
      let availableCommands :=
        if bracketDepth =? 0
        then filter (fun cmd => cmd ≠ str "]") commands
        else commands in
      command ← pick availableCommands;
      let bracketDepth' :=
        if bool_decide (command = str "[") then bracketDepth + 1
        else if bool_decide (command = str "]") then bracketDepth - 1
        else bracketDepth in
      generate_loop n' (program ++ command) bracketDepth'
  end.

(** [while (bracketDepth > 0 && program.length < maxLength)]: the depth
    falls by one each time, so [bracketDepth] iterations are all there are. *)
Fixpoint close_loop (n : nat) (program : jsstring) (bracketDepth maxLength : Z)
    : jsstring :=
  match n with
  | O => program
  | S n' =>
      if (0 <? bracketDepth) && (len program <? maxLength)
      then close_loop n' (program ++ str "]") (bracketDepth - 1) maxLength
      else program
  end.

Definition generateRandomProgram (length maxLength : Z) : M jsstring :=
  '(program, bracketDepth) ← generate_loop (Z.to_nat length) [] 0;
  let program := close_loop (Z.to_nat bracketDepth) program bracketDepth maxLength in
  mret (if maxLength <? len program then substring0 program maxLength else program).

(** [for (j = 0; j < insertCount; j++) mutated += commands[...]] *)
Fixpoint insert_loop (n : nat) (mutated : jsstring) : M jsstring :=
  match n with
  | O => mret mutated
  | S n' => c ← pick commands; insert_loop n' (mutated ++ c)
  end.

(** The pass over the symbols of [program]; [rest] is [program] from the
    index [i] on, so [i + 1 < program.length] says the tail of [rest] is not
    empty, and [i++] inside the body drops one more symbol. *)
Fixpoint mutate_loop (mutationRate : Q) (rest : jsstring) (mutated : jsstring)
    : M jsstring :=
  match rest with
  | [] => mret mutated
  | c :: rest' =>
      r ← random;
      if Qltb r mutationRate then
        mutationType ← random;
        if Qltb mutationType (4 # 10) then
          cmd ← pick commands;
          mutate_loop mutationRate rest' (mutated ++ cmd)
        else if Qltb mutationType (7 # 10) then
          r1 ← random;
          insertCount ← (if Qltb r1 (7 # 10) then mret 1
                         else r2 ← random; mret (floor_mul r2 3 + 2));
          mutated' ← insert_loop (Z.to_nat insertCount) (mutated ++ [c]);
          mutate_loop mutationRate rest' mutated'
        else
          r3 ← random;
          match rest' with
          | _ :: rest'' =>
              if Qltb r3 (3 # 10)
              then mutate_loop mutationRate rest'' mutated
              else mutate_loop mutationRate rest' mutated
          | [] => mutate_loop mutationRate rest' mutated
          end
      else mutate_loop mutationRate rest' (mutated ++ [c])
  end.

(** [for (i = 0; i < growthSize && mutated.length < maxLength; i++)] *)
Fixpoint grow_loop (prepend : bool) (n : nat) (maxLength : Z) (mutated : jsstring)
    : M jsstring :=
  match n with
  | O => mret mutated
  | S n' =>
      if len mutated <? maxLength then
        c ← pick commands;
        grow_loop prepend n' maxLength (if prepend then c ++ mutated else mutated ++ c)
      else mret mutated
  end.

Definition mutateProgram (program : jsstring) (mutationRate : Q) (maxLength : Z)
    : M jsstring :=
  mutated ← mutate_loop mutationRate program [];
  g ← random;
  mutated ← (if Qltb g (mutationRate * (1 # 2)) && (len mutated <? maxLength) then
               growthType ← random;
               let maxGrowth := Z.min 5 (maxLength - len mutated) in
               r ← random;
               let growthSize := floor_mul r maxGrowth + 1 in
               grow_loop (Qltb growthType (1 # 2)) (Z.to_nat growthSize) maxLength mutated
             else mret mutated);
  s ← random;
  mutated ← (if Qltb s (mutationRate * (3 # 10)) && (3 <? len mutated) then
               r ← random;
               let segmentStart := floor_mul r (len mutated) in
               r' ← random;
               let segmentLength :=
                 floor_mul r' (Z.min (len mutated - segmentStart) 5) + 1 in
               mret (slice mutated 0 segmentStart
                       ++ slice_from mutated (segmentStart + segmentLength))
             else mret mutated);
  let mutated := if maxLength <? len mutated
                 then substring0 mutated maxLength else mutated in
  mret (or_plus mutated).

(** The state of the loop of [interleavePrograms]. *)
Record interleave_state := {
  il_result : jsstring; il_i1 : Z; il_i2 : Z; il_useFirst : bool
}.

Definition interleave_cond (prog1 prog2 : jsstring) (s : interleave_state) : bool :=
  (il_i1 s <? len prog1) || (il_i2 s <? len prog2).

Definition interleave_body (prog1 prog2 : jsstring) (s : interleave_state)
    : M interleave_state :=
  r ← random;
  let segmentLength := floor_mul r 5 + 1 in
  let s1 :=
    if il_useFirst s && (il_i1 s <? len prog1) then
      let e := Z.min (il_i1 s + segmentLength) (len prog1) in
      {| il_result := il_result s ++ slice prog1 (il_i1 s) e;
         il_i1 := e; il_i2 := il_i2 s; il_useFirst := il_useFirst s |}
    else if negb (il_useFirst s) && (il_i2 s <? len prog2) then
      let e := Z.min (il_i2 s + segmentLength) (len prog2) in
      {| il_result := il_result s ++ slice prog2 (il_i2 s) e;
         il_i1 := il_i1 s; il_i2 := e; il_useFirst := il_useFirst s |}
    else s in
  let u := negb (il_useFirst s1) in
  let u := if len prog1 <=? il_i1 s1 then false else u in
  let u := if len prog2 <=? il_i2 s1 then true else u in
  mret {| il_result := il_result s1; il_i1 := il_i1 s1; il_i2 := il_i2 s1;
          il_useFirst := u |}.

(** Every iteration but a first one on an empty [prog1] consumes a symbol,
    so the loop makes at most [prog1.length + prog2.length + 1] iterations
    ([interleave_returns] below). *)
Definition interleavePrograms (prog1 prog2 : jsstring) : M jsstring :=
  s ← while (S (length prog1 + length prog2))
        (interleave_cond prog1 prog2) (interleave_body prog1 prog2)
        {| il_result := []; il_i1 := 0; il_i2 := 0; il_useFirst := true |};
  mret (or_plus (il_result s)).

(** The uniform strategy; [rest1] and [rest2] are the parents from the
    index [i] on, and a parent that has ended contributes [''] . *)
Fixpoint uniform_loop (n : nat) (rest1 rest2 child1 child2 : jsstring)
    : M (jsstring * jsstring) :=
  match n with
  | O => mret (child1, child2)
  | S n' =>
      let char1 := take 1 rest1 in
      let char2 := take 1 rest2 in
      r ← random;
      if Qltb r (1 # 2)
      then uniform_loop n' (drop 1 rest1) (drop 1 rest2) (child1 ++ char1) (child2 ++ char2)
      else uniform_loop n' (drop 1 rest1) (drop 1 rest2) (child1 ++ char2) (child2 ++ char1)
  end.

Definition crossoverPrograms (parent1 parent2 : jsstring) : M (jsstring * jsstring) :=
  if (len parent1 =? 0) || (len parent2 =? 0) then mret (parent1, parent2) else
  crossoverType ← random;
  if Qltb crossoverType (4 # 10) then
    r1 ← random;
    let point1 := floor_mul r1 (len parent1) in
    r2 ← random;
    let point2 := floor_mul r2 (len parent2) in
    let child1 := slice parent1 0 point1 ++ slice_from parent2 point2 in
    let child2 := slice parent2 0 point2 ++ slice_from parent1 point1 in
    mret (child1, child2)
  else if Qltb crossoverType (7 # 10) then
    r1 ← random;
    let start1 := floor_mul r1 (len parent1) in
    r2 ← random;
    let end1 := Z.min (start1 + floor_mul r2 (len parent1 - start1)) (len parent1) in
    r3 ← random;
    let start2 := floor_mul r3 (len parent2) in
    r4 ← random;
    let end2 := Z.min (start2 + floor_mul r4 (len parent2 - start2)) (len parent2) in
    let child1 := slice parent1 0 start1 ++ slice parent2 start2 end2
                    ++ slice_from parent1 end1 in
    let child2 := slice parent2 0 start2 ++ slice parent1 start1 end1
                    ++ slice_from parent2 end2 in
    mret (child1, child2)
  else if Qltb crossoverType (85 # 100) then
    mergeType ← random;
    if Qltb mergeType (1 # 2) then
      child1 ← interleavePrograms parent1 parent2;
      child2 ← interleavePrograms parent2 parent1;
      mret (child1, child2)
    else
      r1 ← random;
      let child1 := if Qltb r1 (1 # 2) then parent1 ++ parent2 else parent2 ++ parent1 in
      r2 ← random;
      let child2 := if Qltb r2 (1 # 2) then parent2 ++ parent1 else parent1 ++ parent2 in
      mret (child1, child2)
  else
    let maxLength := Z.max (len parent1) (len parent2) in
    '(child1, child2) ← uniform_loop (Z.to_nat maxLength) parent1 parent2 [] [];
    mret (or_plus child1, or_plus child2).

(** ** The genetic algorithm (genetic-algorithm.ts) *)

Module GA.

Record TestCase := { input : jsstring; expected : jsstring }.

Record GASettings := {
  populationSize : Z;
  mutationRate : Q;
  crossoverRate : Q;
  elitism : Z;
  maxGenerations : Z;
  maxProgramLength : Z
}.

(** The fields declared optional in [types/brainfuck.ts] are options. *)
Record Individual := {
  code : jsstring;
  fitness : Q;
  accuracy : Q;
  results : list bool;
  outputs : list jsstring;
  trainResults : option (list bool);
  testResults : option (list bool);
  trainAccuracy : option Q;
  testAccuracy : option Q
}.

(** The fields of the class. *)
Record GeneticAlgorithm := {
  settings : GASettings;
  trainCases : list TestCase;
  testCases : list TestCase;
  population : list Individual;
  generation : Z;
  seedGenomes : list jsstring
}.

Definition with_population (g : GeneticAlgorithm) (pop : list Individual)
    (gen : Z) : GeneticAlgorithm :=
  {| settings := settings g; trainCases := trainCases g; testCases := testCases g;
     population := pop; generation := gen; seedGenomes := seedGenomes g |}.

(** The default of the parameter [maxSteps] of [executeBrainfuck]. *)
Definition default_maxSteps : Z := 10000.

(** One [for (const testCase of cases)] loop of [evaluateIndividual].
    [executeBrainfuck] is a total function here, it throws on no string, so
    the [catch] branch has nothing to catch. *)
Fixpoint run_cases (program : jsstring) (cases : list TestCase)
    (res : list bool) (outs : list jsstring) (passedTests : Z)
    : list bool * list jsstring * Z :=
  match cases with
  | [] => (res, outs, passedTests)
  | testCase :: cases' =>
      let out := Interp.executeBrainfuck program (input testCase) default_maxSteps in
      let passed := bool_decide (out = expected testCase) in
      run_cases program cases' (res ++ [passed]) (outs ++ [out])
        (if passed then passedTests + 1 else passedTests)
  end.

(** The accuracy and the fitness, on exact numbers; [F64.accuracy_of] and
    [F64.evaluateIndividual] round as the code does. *)
Definition accuracy_of (passedTests : Z) (cases : list TestCase) : Q :=
  if 0 <? len cases
  then ((inject_Z passedTests / inject_Z (len cases)) * 100)%Q
  else 0%Q.

Definition evaluateIndividual (g : GeneticAlgorithm) (program : jsstring) : Individual :=
  let '(trainRes, trainOutputs, passedTrainTests) :=
    run_cases program (trainCases g) [] [] 0 in
  let '(testRes, testOutputs, passedTestTests) :=
    run_cases program (testCases g) [] [] 0 in
  let trainAcc := accuracy_of passedTrainTests (trainCases g) in
  let testAcc := accuracy_of passedTestTests (testCases g) in
  let lengthPenalty := Qmin (inject_Z (len program) * (1 # 10)) 5 in
  let fit := Qmax 0 (trainAcc - lengthPenalty) in
  {| code := program; fitness := fit; accuracy := trainAcc;
     results := trainRes; outputs := trainOutputs;
     trainResults := Some trainRes; testResults := Some testRes;
     trainAccuracy := Some trainAcc; testAccuracy := Some testAcc |}.

(** [population[Math.floor(Math.random() * population.length)]] *)
Definition random_member (pop : list Individual) : M (option Individual) :=
  r ← random;
  mret (item_at pop (floor_mul r (len pop))).

(** [tournamentSelection]: reading [fitness] off an [undefined] candidate
    (an empty population) throws. *)
Definition tournament_round (pop : list Individual) (best : option Individual)
    : M (option Individual) :=
  candidate ← random_member pop;
  match candidate, best with
  | Some c, Some b => mret (Some (if Qltb (fitness b) (fitness c) then c else b))
  | _, _ => throw
  end.

Definition tournamentSelection (g : GeneticAlgorithm) : M Individual :=
  best ← random_member (population g);
  best ← tournament_round (population g) best;
  best ← tournament_round (population g) best;
  match best with
  | Some b => mret b
  | None => throw
  end.

(** [population.sort((a, b) => b.fitness - a.fitness)]: the sort of the
    language is stable, as is this insertion sort. *)
Definition compareFn (a b : Individual) : Q := (fitness b - fitness a)%Q.

Fixpoint sort_insert (x : Individual) (l : list Individual) : list Individual :=
  match l with
  | [] => [x]
  | y :: l' =>
      if Qle_bool (compareFn x y) 0 then x :: y :: l' else y :: sort_insert x l'
  end.

Definition sortPopulation (pop : list Individual) : list Individual :=
  foldr sort_insert [] pop.

(** The loop over the seed genomes in [initialize]. *)
Fixpoint seed_loop (g : GeneticAlgorithm) (seeds : list jsstring)
    (pop : list Individual) (uniqueCodes : gset jsstring) (seededCount : Z)
    : list Individual * gset jsstring :=
  match seeds with
  | [] => (pop, uniqueCodes)
  | seedCode :: seeds' =>
      if Qfloor (inject_Z (populationSize (settings g)) * (3 # 10)) <=? seededCount
      then (pop, uniqueCodes)
      else if bool_decide (seedCode ∈ uniqueCodes)
      then seed_loop g seeds' pop uniqueCodes seededCount
      else seed_loop g seeds' (pop ++ [evaluateIndividual g seedCode])
             ({[seedCode]} ∪ uniqueCodes) (seededCount + 1)
  end.

(** The state of the filling loops: the population built so far and the
    set [uniqueCodes]. *)
Definition fill_cond (g : GeneticAlgorithm) (s : list Individual * gset jsstring) : bool :=
  len s.1 <? populationSize (settings g).

(** [if (!uniqueCodes.has(code)) { uniqueCodes.add(code); push(evaluate(code)) }] *)
Definition add_unique (g : GeneticAlgorithm) (program : jsstring)
    (s : list Individual * gset jsstring) : list Individual * gset jsstring :=
  if bool_decide (program ∈ s.2) then s
  else (s.1 ++ [evaluateIndividual g program], {[program]} ∪ s.2).

Definition initialize_body (g : GeneticAlgorithm)
    (s : list Individual * gset jsstring) : M (list Individual * gset jsstring) :=
  lengthCategory ← random;
  r ← random;
  let programLength :=
    if Qltb lengthCategory (2 # 10) then floor_mul r 11 + 5
    else if Qltb lengthCategory (8 # 10) then floor_mul r 25 + 16
    else
      let maxLength := Z.min (maxProgramLength (settings g)) 100 in
      floor_mul r (maxLength - 40) + 41 in
  program ← generateRandomProgram programLength (maxProgramLength (settings g));
  mret (add_unique g program s).

(** [initialize()]; [fuel] bounds the iterations of the filling loop. *)
Definition initialize (fuel : nat) (g : GeneticAlgorithm) : M GeneticAlgorithm :=
  let seeded := seed_loop g (seedGenomes g) [] ∅ 0 in
  s ← while fuel (fill_cond g) (initialize_body g) seeded;
  mret (with_population g (sortPopulation s.1) 0).

(** The state of the offspring loop of [evolve]. *)
Record offspring_state := {
  newPopulation : list Individual;
  uniqueCodes : gset jsstring;
  attempts : Z
}.

Definition maxAttempts (g : GeneticAlgorithm) : Z := populationSize (settings g) * 10.

Definition offspring_cond (g : GeneticAlgorithm) (s : offspring_state) : bool :=
  (len (newPopulation s) <? populationSize (settings g))
  && (attempts s <? maxAttempts g).

Definition offspring_body (g : GeneticAlgorithm) (s : offspring_state)
    : M offspring_state :=
  parent1 ← tournamentSelection g;
  parent2 ← tournamentSelection g;
  c ← random;
  '(child1Code, child2Code) ←
    (if Qltb c (crossoverRate (settings g))
     then crossoverPrograms (code parent1) (code parent2)
     else mret (code parent1, code parent2));
  child1Code ← mutateProgram child1Code (mutationRate (settings g))
                 (maxProgramLength (settings g));
  child2Code ← mutateProgram child2Code (mutationRate (settings g))
                 (maxProgramLength (settings g));
  let s1 := add_unique g child1Code (newPopulation s, uniqueCodes s) in
  let s2 := if len s1.1 <? populationSize (settings g)
            then add_unique g child2Code s1 else s1 in
  mret {| newPopulation := s2.1; uniqueCodes := s2.2; attempts := attempts s + 1 |}.

Definition fallback_body (g : GeneticAlgorithm)
    (s : list Individual * gset jsstring) : M (list Individual * gset jsstring) :=
  r ← random;
  let programLength :=
    floor_mul r (Z.min (maxProgramLength (settings g)) 50) + 5 in
  program ← generateRandomProgram programLength (maxProgramLength (settings g));
  mret (add_unique g program s).

(** The first two stages of [evolve]: the elite and the offspring loop.
    [attempts] grows by one in every iteration, so [maxAttempts] iterations
    are all the loop can make. *)
Definition evolve_offspring (g : GeneticAlgorithm) : M offspring_state :=
  let elite := slice (population g) 0 (elitism (settings g)) in
  while (Z.to_nat (maxAttempts g)) (offspring_cond g) (offspring_body g)
    {| newPopulation := elite;
       uniqueCodes := list_to_set (code <$> elite);
       attempts := 0 |}.

(** [evolve()]; [fuel] bounds the iterations of the fallback loop.  The
    population returned is the one of the new state. *)
Definition evolve (fuel : nat) (g : GeneticAlgorithm) : M GeneticAlgorithm :=
  s ← evolve_offspring g;
  f ← while fuel (fill_cond g) (fallback_body g) (newPopulation s, uniqueCodes s);
  let pop := slice f.1 0 (populationSize (settings g)) in
  mret (with_population g (sortPopulation pop) (generation g + 1)).

Definition getBestIndividual (g : GeneticAlgorithm) : option Individual :=
  if 0 <? len (population g) then item_at (population g) 0 else None.

(** [x === 100] for a field that may be [undefined] *)
Definition is_100 (x : option Q) : bool :=
  match x with
  | Some q => Qeq_bool q 100
  | None => false
  end.

Definition hasPerfectSolution (g : GeneticAlgorithm) : bool :=
  match getBestIndividual g with
  | None => false
  | Some best =>
      is_100 (trainAccuracy best)
      && ((len (testCases g) =? 0) || is_100 (testAccuracy best))
  end.

Definition updateSettings (g : GeneticAlgorithm) (st : GASettings) : GeneticAlgorithm :=
  {| settings := st; trainCases := trainCases g; testCases := testCases g;
     population := population g; generation := generation g;
     seedGenomes := seedGenomes g |}.

Definition updateTrainCases (g : GeneticAlgorithm) (cs : list TestCase) : GeneticAlgorithm :=
  {| settings := settings g; trainCases := cs; testCases := testCases g;
     population := population g; generation := generation g;
     seedGenomes := seedGenomes g |}.

Definition updateTestCases (g : GeneticAlgorithm) (cs : list TestCase) : GeneticAlgorithm :=
  {| settings := settings g; trainCases := trainCases g; testCases := cs;
     population := population g; generation := generation g;
     seedGenomes := seedGenomes g |}.

Definition setSeedGenomes (g : GeneticAlgorithm) (genomes : list jsstring) : GeneticAlgorithm :=
  {| settings := settings g; trainCases := trainCases g; testCases := testCases g;
     population := population g; generation := generation g;
     seedGenomes := genomes |}.

Definition getGeneration (g : GeneticAlgorithm) : Z := generation g.

(** [getPopulation()] returns a copy of the array. *)
Definition getPopulation (g : GeneticAlgorithm) : list Individual := population g.

Definition getSeedGenomes (g : GeneticAlgorithm) : list jsstring := seedGenomes g.

Definition clearSeedGenomes (g : GeneticAlgorithm) : GeneticAlgorithm :=
  {| settings := settings g; trainCases := trainCases g; testCases := testCases g;
     population := population g; generation := generation g;
     seedGenomes := [] |}.

(** [seedGenomes.includes(ind.code)] is the membership test of the filter. *)
Definition getSeededCount (g : GeneticAlgorithm) : Z :=
  if len (seedGenomes g) =? 0 then 0
  else len (List.filter (fun ind => bool_decide (code ind ∈ seedGenomes g))
              (population g)).

(** The constructor: no population yet. *)
Definition new (st : GASettings) (train test : list TestCase) : GeneticAlgorithm :=
  {| settings := st; trainCases := train; testCases := test;
     population := []; generation := 0; seedGenomes := [] |}.

End GA.

(** ** Evaluation in double precision

    The numbers of JavaScript are IEEE 754 binary64 values, and every
    arithmetic operation returns the exact result rounded to the nearest of
    them, a tie going to the one whose significand is even.  In [GA] above
    accuracies and fitness are kept exact, which is all the theorems on
    populations need; here the evaluation of an individual is given once
    more with each operation rounded as the code rounds it.

    A binary64 value is the rational it denotes.  Values other than 0 are
    [m * 2^(e - 52)] for an integer significand [m] of 53 bits; [round]
    picks the significand nearest to [x / 2^(e - 52)] in the binade
    [2^e <= |x| < 2^(e+1)] of [x].  The exponent range of the format is not
    modelled (binary64 has [-1022 <= e <= 1023], and smaller values lose
    precision), nor are the infinities, NaN and the sign of 0: an array has
    fewer than [2^32] elements and a string fewer than [2^53] symbols, so
    the counts and lengths are binary64 values themselves, no divisor is 0,
    and what [evaluateIndividual] rounds stays in the range
    ([F64Facts.evaluate_in_range]). *)

Module F64.
Import GA.

Definition pow2 (e : Z) : Q := (2 ^ e)%Q.

(** The [e] with [2^e <= |x| < 2^(e+1)], for [x] other than 0. *)
Definition exponent (x : Q) : Z :=
  let e := Z.log2 (Z.abs (Qnum x)) - Z.log2 (Z.pos (Qden x)) in
  if Qle_bool (pow2 e) (Qabs x) then e else e - 1.

(** The integer nearest to [q]; of two that are as near, the even one. *)
Definition nearest_even (q : Q) : Z :=
  let f := Qfloor q in
  match (q - inject_Z f ?= 1 # 2)%Q with
  | Lt => f
  | Gt => f + 1
  | Eq => if Z.even f then f else f + 1
  end.

(** The binary64 value nearest to [x]. *)
Definition round (x : Q) : Q :=
  if Qeq_bool x 0 then 0%Q
  else
    let u := pow2 (exponent x - 52) in
    Qred (inject_Z (nearest_even (x / u)) * u).

(** [a * b], [a / b] and [a - b] on numbers. *)
Definition mul (a b : Q) : Q := round (a * b).
Definition div (a b : Q) : Q := round (a / b).
Definition sub (a b : Q) : Q := round (a - b).

(** The literal [0.1] is the binary64 value nearest to one tenth. *)
Definition lit_0_1 : Q := round (1 # 10).

(** [cases.length > 0 ? (passedTests / cases.length) * 100 : 0] *)
Definition accuracy_of (passedTests : Z) (cases : list TestCase) : Q :=
  if 0 <? len cases
  then mul (div (inject_Z passedTests) (inject_Z (len cases))) 100
  else 0%Q.

(** [evaluateIndividual]: the loops over the cases are those of [GA];
    [Math.min] and [Math.max] of two numbers round nothing. *)
Definition evaluateIndividual (g : GeneticAlgorithm) (program : jsstring) : Individual :=
  let '(trainRes, trainOutputs, passedTrainTests) :=
    run_cases program (trainCases g) [] [] 0 in
  let '(testRes, testOutputs, passedTestTests) :=
    run_cases program (testCases g) [] [] 0 in
  let trainAcc := accuracy_of passedTrainTests (trainCases g) in
  let testAcc := accuracy_of passedTestTests (testCases g) in
  let lengthPenalty := Qmin (mul (inject_Z (len program)) lit_0_1) 5 in
  let fit := Qmax 0 (sub trainAcc lengthPenalty) in
  {| code := program; fitness := fit; accuracy := trainAcc;
     results := trainRes; outputs := trainOutputs;
     trainResults := Some trainRes; testResults := Some testRes;
     trainAccuracy := Some trainAcc; testAccuracy := Some testAcc |}.

End F64.

(** * Properties *)

(** ** Runs of the interpreter *)

Example run_plus_dot : Interp.executeBrainfuck (str "+.") (str "a") 2 = [1].
Proof. vm_compute. reflexivity. Qed.

Example run_clear_loop :
  Interp.executeBrainfuck (str "+[-]") [] 10000 = []
  /\ Interp.executeBrainfuck (str "+[-].") [] 10000 = [0].
Proof. split; vm_compute; reflexivity. Qed.

Example run_pointer_wraps :
  Interp.pointer (Interp.final (str "<") [] 10000) = 29999
  /\ Interp.pointer (Interp.final (str "<>") [] 10000) = 0.
Proof. split; vm_compute; reflexivity. Qed.

Example run_cell_wraps :
  Interp.executeBrainfuck (str "-.+.") [] 10000 = [255; 0].
Proof. vm_compute. reflexivity. Qed.

Example run_input_once :
  Interp.executeBrainfuck (str ",.,.") [7] 10000 = [7; 0].
Proof. vm_compute. reflexivity. Qed.

(** An unmatched loop-open on a zero cell, an unmatched loop-close on a
    non-zero cell: the rest of the program is not executed. *)
Example run_unmatched_open : Interp.executeBrainfuck (str "[+.") [] 10000 = [].
Proof. vm_compute. reflexivity. Qed.

Example run_unmatched_close : Interp.executeBrainfuck (str "+.].+.") [] 10000 = [1].
Proof. vm_compute. reflexivity. Qed.

Example run_plus_loop :
  Interp.steps (Interp.final (str "+[+]") [] 100) = 100
  /\ Interp.steps (Interp.final (str "+[+]") [] 10000) = 512.
Proof. split; vm_compute; reflexivity. Qed.

(** ** The interpreter *)

Module InterpFacts.
Import Interp.

Section Loop.
Variables (code input : jsstring) (bm : gmap Z Z) (maxSteps : Z).

#[local] Abbreviation step := (step code input bm).
#[local] Abbreviation run := (run code input bm maxSteps).
#[local] Abbreviation iter := (iter code input bm).
#[local] Abbreviation loop_cond := (loop_cond code maxSteps).

Lemma exec_command_steps c m : steps (exec_command input bm c m) = steps m.
Proof.
  unfold exec_command. destruct c as [c|]; [|reflexivity].
  repeat (match goal with |- context [if ?b then _ else _] => destruct b end;
          try reflexivity).
Qed.

Lemma steps_step m : steps (step m) = steps m + 1.
Proof. unfold Interp.step. cbn [steps]. now rewrite exec_command_steps. Qed.

Lemma steps_iter k : forall m, steps (iter k m) = steps m + Z.of_nat k.
Proof.
  induction k as [|k IH]; intros m; cbn [Interp.iter].
  - lia.
  - rewrite IH, steps_step. lia.
Qed.

Lemma run_stop k m : loop_cond m = false -> run k m = m.
Proof. intros H. destruct k; cbn [Interp.run]; [reflexivity | now rewrite H]. Qed.

Lemma run_add a : forall b m, run (a + b) m = run b (run a m).
Proof.
  induction a as [|a IH]; intros b m; [reflexivity|].
  cbn [Nat.add Interp.run]. destruct (loop_cond m) eqn:E.
  - apply IH.
  - symmetry. now apply run_stop.
Qed.

(** While the loop condition holds, [run] and [iter] agree. *)
Lemma run_iter k : forall m,
  (forall j, (j < k)%nat -> loop_cond (iter j m) = true) -> run k m = iter k m.
Proof.
  induction k as [|k IH]; intros m H; [reflexivity|].
  pose proof (H O ltac:(lia)) as H0. cbn [Interp.iter] in H0.
  cbn [Interp.run Interp.iter]. rewrite H0.
  apply IH. intros j Hj. apply (H (S j)). lia.
Qed.

(** The loop makes some number [k] of iterations, no more than the fuel,
    with the loop condition true before each of them. *)
Lemma run_is_iter fuel : forall m, exists k,
  (k <= fuel)%nat /\ run fuel m = iter k m
  /\ (forall j, (j < k)%nat -> loop_cond (iter j m) = true).
Proof.
  induction fuel as [|fuel IH]; intros m.
  - exists O. repeat split; [lia|]. intros j Hj. lia.
  - cbn [Interp.run]. destruct (loop_cond m) eqn:E.
    + destruct (IH (step m)) as (k & Hk & Hr & Hc).
      exists (S k). repeat split; [lia | exact Hr |].
      intros [|j] Hj; [exact E | apply Hc; lia].
    + exists O. repeat split; [lia|]. intros j Hj. lia.
Qed.

(** With fuel for the steps still allowed, the loop is left by its own
    condition. *)
Lemma run_exits fuel : forall m,
  maxSteps - steps m <= Z.of_nat fuel -> loop_cond (run fuel m) = false.
Proof.
  induction fuel as [|fuel IH]; intros m H; cbn [Interp.run].
  - unfold Interp.loop_cond. replace (steps m <? maxSteps) with false by lia.
    apply andb_false_r.
  - destruct (loop_cond m) eqn:E; [|exact E].
    apply IH. rewrite steps_step. lia.
Qed.

Lemma bracket_keeps_output c m :
  c = ch_open \/ c = ch_close ->
  output (exec_command input bm (Some c) m) = output m.
Proof.
  intros [-> | ->]; unfold exec_command; cbn;
    match goal with |- context [if ?b then _ else _] => destruct b end;
    reflexivity.
Qed.

End Loop.

Lemma final_exits code input maxSteps :
  loop_cond code maxSteps (final code input maxSteps) = false.
Proof. unfold final. apply run_exits. cbn [steps init]. lia. Qed.

(** The machine is about to execute the command under its code pointer:
    the loop got there and its condition holds. *)
Definition reached (code input : jsstring) (maxSteps : Z) (m : machine) : Prop :=
  exists k, run code input (buildBracketMap code) maxSteps k init = m
            /\ loop_cond code maxSteps m = true.

(** The command under the code pointer is a bracket that jumps, and the
    table has no entry for its position. *)
Definition unmatched_jump (code : jsstring) (m : machine) : Prop :=
  exists cp, codePointer m = Idx cp
    /\ buildBracketMap code !! cp = None
    /\ ((item_at code cp = Some ch_open /\ cell m = 0)
        \/ (item_at code cp = Some ch_close /\ cell m <> 0)).

Lemma unmatched_step code input m :
  unmatched_jump code m ->
  codePointer (step code input (buildBracketMap code) m) = NaN
  /\ output (step code input (buildBracketMap code) m) = output m.
Proof.
  intros (cp & Hcp & Hnone & Hcase).
  unfold step. cbn [codePointer output]. rewrite Hcp. cbn [fetch].
  assert (Hcell : forall s, cell {| memory := memory m; pointer := pointer m;
            codePointer := Idx cp; inputPointer := inputPointer m;
            output := output m; steps := s |} = cell m) by reflexivity.
  destruct Hcase as [[Hc Hz] | [Hc Hnz]]; rewrite Hc; unfold exec_command.
  - cbn. rewrite Hcell, Hz. cbn. rewrite Hnone. split; reflexivity.
  - cbn. rewrite Hcell. destruct (cell m =? 0) eqn:E; [lia|].
    cbn. rewrite Hnone. split; reflexivity.
Qed.

(** C1: when execution reaches a loop-open on a zero cell, or a loop-close
    on a non-zero cell, whose position has no entry in the bracket table, the
    loop is left at once (the code pointer is [NaN], the loop condition is
    false) and [executeBrainfuck] returns the output accumulated up to that
    point. *)
Theorem unmatched_jump_halts code input maxSteps m :
  reached code input maxSteps m ->
  unmatched_jump code m ->
  loop_cond code maxSteps (step code input (buildBracketMap code) m) = false
  /\ executeBrainfuck code input maxSteps = output m.
Proof.
  intros (k & Hk & Hcond) Hu.
  destruct (unmatched_step code input m Hu) as [Hnan Hout].
  assert (Hstop : loop_cond code maxSteps
            (step code input (buildBracketMap code) m) = false).
  { unfold loop_cond, in_code. now rewrite Hnan. }
  split; [exact Hstop|].
  unfold executeBrainfuck, final.
  set (fuel := Z.to_nat maxSteps).
  pose proof (final_exits code input maxSteps) as Hfin. unfold final in Hfin.
  fold fuel in Hfin.
  destruct (Nat.le_gt_cases fuel k) as [Hle | Hlt].
  - (* the loop would have stopped before [m] *)
    replace k with (fuel + (k - fuel))%nat in Hk by lia.
    rewrite run_add, (run_stop _ _ _ _ _ _ Hfin) in Hk.
    rewrite Hk in Hfin. congruence.
  - replace fuel with (k + S (fuel - S k))%nat by lia.
    rewrite run_add, Hk. cbn [run]. rewrite Hcond.
    rewrite (run_stop _ _ _ _ _ _ Hstop). exact Hout.
Qed.

Lemma unmatched_jump_halts_witness :
  executeBrainfuck (str "+.].+.") [] 100 = [1].
Proof.
  refine (proj2 (unmatched_jump_halts (str "+.].+.") [] 100
    (iter (str "+.].+.") [] (buildBracketMap (str "+.].+.")) 2 init) _ _)).
  - exists 2%nat. split.
    + apply run_iter. intros [|[|j]] Hj; [vm_compute; reflexivity .. | lia].
    + vm_compute; reflexivity.
  - exists 2. split; [vm_compute; reflexivity|].
    split; [vm_compute; reflexivity|].
    right. split; [vm_compute; reflexivity|]. vm_compute. discriminate.
Defined.

(** What the budget allows: the machine the loop is left with is the one
    after [steps] iterations of the body from [init], no more of them than
    the budget, and the loop is left because the code pointer is outside the
    program or because the budget is used up. *)
Lemma final_shape code input maxSteps :
  let m := final code input maxSteps in
  loop_cond code maxSteps m = false
  /\ 0 <= steps m <= Z.max 0 maxSteps
  /\ m = iter code input (buildBracketMap code) (Z.to_nat (steps m)) init
  /\ (in_code code m = false \/ steps m = Z.max 0 maxSteps).
Proof.
  intros m. pose proof (final_exits code input maxSteps) as Hex. fold m in Hex.
  destruct (run_is_iter code input (buildBracketMap code) maxSteps
              (Z.to_nat maxSteps) init) as (k & Hk & Hr & _).
  fold (final code input maxSteps) in Hr. fold m in Hr.
  assert (Hs : steps m = Z.of_nat k).
  { rewrite Hr, steps_iter. reflexivity. }
  split; [exact Hex|]. split; [lia|]. split.
  - rewrite Hs, Nat2Z.id. exact Hr.
  - unfold loop_cond in Hex. apply andb_false_iff in Hex as [H | H]; [now left|].
    right. lia.
Qed.

Definition plus_loop : jsstring := str "+[+]".

(** The cell wraps to 0 after 255 rounds of the loop of "+[+]": the program
    ends by itself, after 512 steps. *)
Lemma plus_loop_in_code input j :
  (j < 512)%nat ->
  in_code plus_loop (iter plus_loop input (buildBracketMap plus_loop) j init) = true.
Proof.
  intros Hj.
  assert (H : forallb (fun j => in_code plus_loop
                (iter plus_loop input (buildBracketMap plus_loop) j init))
              (seq 0 512) = true) by (vm_compute; reflexivity).
  rewrite forallb_forall in H. apply H. apply in_seq. lia.
Qed.

Lemma plus_loop_ends input :
  in_code plus_loop (iter plus_loop input (buildBracketMap plus_loop) 512 init) = false.
Proof. vm_compute; reflexivity. Qed.

Lemma plus_loop_steps input N :
  steps (final plus_loop input N) = Z.max 0 (Z.min N 512).
Proof.
  unfold final. set (bm := buildBracketMap plus_loop).
  assert (Hc : forall j, (j < 512)%nat -> Z.of_nat j < N ->
            loop_cond plus_loop N (iter plus_loop input bm j init) = true).
  { intros j Hj HN. unfold loop_cond. rewrite plus_loop_in_code by exact Hj.
    rewrite steps_iter. cbn [steps init andb]. lia. }
  destruct (Z.le_gt_cases 512 N) as [Hbig | Hsmall].
  - replace (Z.to_nat N) with (512 + (Z.to_nat N - 512))%nat by lia.
    rewrite run_add, (run_iter _ _ _ _ 512) by (intros j Hj; apply Hc; lia).
    rewrite run_stop.
    + rewrite steps_iter. cbn [steps init]. lia.
    + unfold loop_cond. now rewrite plus_loop_ends.
  - rewrite run_iter by (intros j Hj; apply Hc; lia).
    rewrite steps_iter. cbn [steps init]. lia.
Qed.

(** The sentence of the claim on "+[+]": a run with budget [N] ends with
    [N] executed steps. *)
Definition reflects_budget (code input : jsstring) (N : Z) : Prop :=
  steps (final code input N) = N.

(** C2, as stated, fails: with a budget of 1000 steps "+[+]" ends by itself
    after 512 steps. *)
Lemma plus_loop_not_budget : ~ reflects_budget plus_loop [] 1000.
Proof. unfold reflects_budget. rewrite plus_loop_steps. discriminate. Qed.

(** C2 (amended): for every program, input and integer budget,
    [executeBrainfuck] returns: the loop is left after at most
    [max 0 maxSteps] iterations, because the code pointer is outside the
    program or because the budget is used up, and the result is the output
    accumulated by those iterations.  The loop of "+[+]" is not endless, the
    cell wraps to 0: with budget [N] it executes [min N 512] steps (none for
    a negative [N]). *)
Theorem step_budget code input maxSteps :
  let m := final code input maxSteps in
  (executeBrainfuck code input maxSteps
     = output (iter code input (buildBracketMap code) (Z.to_nat (steps m)) init)
   /\ loop_cond code maxSteps m = false
   /\ 0 <= steps m <= Z.max 0 maxSteps
   /\ (in_code code m = false \/ steps m = Z.max 0 maxSteps))
  /\ steps (final plus_loop input maxSteps) = Z.max 0 (Z.min maxSteps 512).
Proof.
  intros m. destruct (final_shape code input maxSteps) as (H1 & H2 & H3 & H4).
  fold m in H1, H2, H3, H4.
  split; [|apply plus_loop_steps].
  split; [|tauto]. unfold executeBrainfuck. fold m. now rewrite <- H3.
Qed.

End InterpFacts.

(** ** Reasoning about effectful code *)

(** [returns c P]: whatever the draws, [c] returns, with a value in [P]. *)
Definition returns {A} (c : M A) (P : A -> Prop) : Prop :=
  forall rnd i, exists a j, c rnd i = Ret (a, j) /\ P a.

(** [ensures c P]: whenever [c] returns, its value is in [P]. *)
Definition ensures {A} (c : M A) (P : A -> Prop) : Prop :=
  forall rnd i a j, c rnd i = Ret (a, j) -> P a.

Section MonadRules.
Context {A B : Type}.

Lemma returns_ret (a : A) (P : A -> Prop) : P a -> returns (mret a) P.
Proof. intros H rnd i. exists a, i. split; [reflexivity | exact H]. Qed.

Lemma returns_bind (c : M A) (k : A -> M B) (P : A -> Prop) (Q : B -> Prop) :
  returns c P -> (forall a, P a -> returns (k a) Q) -> returns (c ≫= k) Q.
Proof.
  intros Hc Hk rnd i. destruct (Hc rnd i) as (a & j & E & Ha).
  destruct (Hk a Ha rnd j) as (b & j' & E' & Hb).
  exists b, j'. split; [|exact Hb].
  unfold mbind, M_bind. now rewrite E.
Qed.

Lemma returns_weaken (c : M A) (P Q : A -> Prop) :
  returns c P -> (forall a, P a -> Q a) -> returns c Q.
Proof.
  intros Hc HPQ rnd i. destruct (Hc rnd i) as (a & j & E & Ha). eauto.
Qed.

Lemma returns_ensures (c : M A) (P Q : A -> Prop) :
  returns c P -> ensures c Q -> returns c (fun a => P a /\ Q a).
Proof.
  intros Hc Hq rnd i. destruct (Hc rnd i) as (a & j & E & Ha).
  exists a, j. eauto.
Qed.

Lemma ensures_ret (a : A) (P : A -> Prop) : P a -> ensures (mret a) P.
Proof. intros H rnd i a' j E. inversion E. now subst. Qed.

Lemma ensures_bind (c : M A) (k : A -> M B) (P : A -> Prop) (Q : B -> Prop) :
  ensures c P -> (forall a, P a -> ensures (k a) Q) -> ensures (c ≫= k) Q.
Proof.
  intros Hc Hk rnd i b j E. unfold mbind, M_bind in E.
  destruct (c rnd i) as [[a j']| |] eqn:Ec; try discriminate.
  eapply Hk; [eapply Hc; exact Ec | exact E].
Qed.

Lemma ensures_weaken (c : M A) (P Q : A -> Prop) :
  ensures c P -> (forall a, P a -> Q a) -> ensures c Q.
Proof. intros Hc HPQ rnd i a j E. eauto. Qed.

Lemma ensures_throw (P : A -> Prop) : ensures throw P.
Proof. intros rnd i a j E. discriminate. Qed.

Lemma ensures_true (c : M A) : ensures c (fun _ => True).
Proof. intros rnd i a j E. exact I. Qed.

End MonadRules.

Lemma draw_range (d : draw) : (0 <= dval d /\ dval d < 1)%Q.
Proof.
  pose proof (d_range d) as H. unfold unit_range, Qltb in H.
  apply andb_true_iff in H as [H0 H1]. apply Qle_bool_iff in H0.
  split; [exact H0|]. apply Qnot_le_lt. intros Hle.
  apply Qle_bool_iff in Hle. rewrite Hle in H1. discriminate.
Qed.

Lemma returns_random : returns random (fun r => (0 <= r /\ r < 1)%Q).
Proof.
  intros rnd i. exists (dval (rnd i)), (S i). split; [reflexivity|].
  apply draw_range.
Qed.

Lemma ensures_random : ensures random (fun r => (0 <= r /\ r < 1)%Q).
Proof.
  intros rnd i a j E. unfold random in E. inversion E. apply draw_range.
Qed.

(** [Math.floor(Math.random() * n)] is an index below [n]. *)
Lemma floor_mul_range (r : Q) (n : Z) :
  (0 <= r /\ r < 1)%Q -> 0 < n -> 0 <= floor_mul r n < n.
Proof.
  intros [H0 H1] Hn. unfold floor_mul.
  assert (Hn' : (0 < inject_Z n)%Q) by (unfold Qlt, inject_Z; cbn; lia).
  split.
  - change 0 with (Qfloor 0). apply Qfloor_resp_le.
    apply Qmult_le_0_compat; [exact H0 | now apply Qlt_le_weak].
  - assert (Hlt : (inject_Z (Qfloor (r * inject_Z n)) < inject_Z n)%Q);
      [| rewrite <- Zlt_Qlt in Hlt; exact Hlt].
    eapply Qle_lt_trans; [apply Qfloor_le|].
    apply Qlt_le_trans with (1 * inject_Z n)%Q.
    + apply Qmult_lt_r; assumption.
    + rewrite Qmult_1_l. apply Qle_refl.
Qed.

Lemma floor_mul_zero (r : Q) : floor_mul r 0 = 0.
Proof.
  unfold floor_mul. change 0 with (Qfloor 0) at 2.
  assert (E : (r * inject_Z 0 == 0)%Q) by ring.
  apply Z.le_antisymm; apply Qfloor_resp_le; rewrite E; apply Qle_refl.
Qed.

(** The loop rules: an invariant, and a variant bounded by the fuel. *)
Lemma while_ensures {S} (I : S -> Prop) (cond : S -> bool) (body : S -> M S) :
  (forall s, I s -> cond s = true -> ensures (body s) I) ->
  forall fuel s, I s ->
  ensures (while fuel cond body s) (fun s' => I s' /\ cond s' = false).
Proof.
  intros Hbody fuel. induction fuel as [|fuel IH]; intros s Hs; cbn [while].
  - destruct (cond s) eqn:E.
    + intros rnd i a j Er. discriminate.
    + apply ensures_ret. now split.
  - destruct (cond s) eqn:E.
    + eapply ensures_bind; [apply Hbody; assumption|]. intros s' Hs'. now apply IH.
    + apply ensures_ret. now split.
Qed.

Lemma while_returns {S} (I : S -> Prop) (V : S -> nat) (cond : S -> bool)
    (body : S -> M S) :
  (forall s, I s -> cond s = true ->
     returns (body s) (fun s' => I s' /\ (V s' < V s)%nat)) ->
  forall fuel s, I s -> (V s <= fuel)%nat ->
  returns (while fuel cond body s) (fun s' => I s' /\ cond s' = false).
Proof.
  intros Hbody fuel. induction fuel as [|fuel IH]; intros s Hs HV; cbn [while].
  - destruct (cond s) eqn:E.
    + intros rnd i. destruct (Hbody s Hs E rnd i) as (s' & j & _ & _ & Hlt). lia.
    + apply returns_ret. now split.
  - destruct (cond s) eqn:E.
    + eapply returns_bind; [apply Hbody; assumption|].
      intros s' [Hs' Hlt]. apply IH; [assumption | lia].
    + apply returns_ret. now split.
Qed.

(** ** Slices *)

Lemma len_nonneg {A} (l : list A) : 0 <= len l.
Proof. unfold len. lia. Qed.

Lemma len_app {A} (l1 l2 : list A) : len (l1 ++ l2) = len l1 + len l2.
Proof. unfold len. rewrite length_app. lia. Qed.

Lemma len_cons {A} (x : A) (l : list A) : len (x :: l) = len l + 1.
Proof. unfold len. cbn [length]. lia. Qed.

Lemma len_zero {A} (l : list A) : len l = 0 <-> l = [].
Proof. unfold len. destruct l; cbn; split; intros; try congruence; lia. Qed.

Lemma len_slice {A} (l : list A) (a b : Z) :
  0 <= a <= b -> b <= len l -> len (slice l a b) = b - a.
Proof.
  intros Hab Hb. unfold slice, rel_index.
  replace (a <? 0) with false by lia. replace (b <? 0) with false by lia.
  unfold len in *. rewrite length_take, length_drop. lia.
Qed.

Lemma len_slice_from {A} (l : list A) (a : Z) :
  0 <= a <= len l -> len (slice_from l a) = len l - a.
Proof.
  intros Ha. unfold slice_from. apply len_slice; [exact Ha | lia].
Qed.

Lemma rel_index_0 (n : Z) : 0 <= n -> rel_index n 0 = 0.
Proof. intros H. unfold rel_index. cbn. lia. Qed.

Lemma slice_prefix {A} (l : list A) (b : Z) :
  exists n, slice l 0 b = take n l.
Proof.
  unfold slice. rewrite rel_index_0 by apply len_nonneg.
  cbn [Z.to_nat drop]. eexists. reflexivity.
Qed.

Lemma slice_prefix_nonneg {A} (l : list A) (b : Z) :
  0 <= b -> slice l 0 b = take (Z.to_nat b) l.
Proof.
  intros Hb. unfold slice. rewrite rel_index_0 by apply len_nonneg.
  cbn [Z.to_nat drop]. unfold rel_index. replace (b <? 0) with false by lia.
  rewrite Z.sub_0_r.
  destruct (Z.le_gt_cases b (len l)).
  - now rewrite Z.min_l by lia.
  - rewrite Z.min_r by lia. unfold len in *.
    rewrite (take_ge l (Z.to_nat b)) by lia.
    apply take_ge. lia.
Qed.

Lemma nonempty_len {A} (l : list A) : 0 < len l -> l <> [].
Proof. intros H ->. unfold len in H. cbn in H. lia. Qed.

Lemma or_plus_nonempty s : or_plus s <> [].
Proof. destruct s; cbn; discriminate. Qed.

(** ** The operators return, whatever the draws *)

Definition anything {A} : A -> Prop := fun _ => True.

Ltac draw_step :=
  eapply returns_bind; [apply returns_random | intros ? ?].

Lemma pick_returns arr : returns (pick arr) anything.
Proof. unfold pick. draw_step. now apply returns_ret. Qed.

Lemma generate_loop_returns n : forall program depth,
  returns (generate_loop n program depth) anything.
Proof.
  induction n as [|n IH]; intros program depth; cbn [generate_loop].
  - now apply returns_ret.
  - eapply returns_bind; [apply pick_returns|]. intros command _. apply IH.
Qed.

(** The closing loop needs no more than [bracketDepth] iterations. *)
Lemma close_loop_enough n : forall k program depth maxLength,
  (Z.to_nat depth <= n)%nat ->
  close_loop (n + k) program depth maxLength = close_loop n program depth maxLength.
Proof.
  induction n as [|n IH]; intros k program depth maxLength Hd.
  - destruct k as [|k]; [reflexivity|]. cbn [Nat.add close_loop].
    replace (0 <? depth) with false by lia. reflexivity.
  - cbn [Nat.add close_loop]. destruct (_ && _); [|reflexivity].
    apply IH. lia.
Qed.

Lemma generateRandomProgram_returns length maxLength :
  returns (generateRandomProgram length maxLength) anything.
Proof.
  unfold generateRandomProgram.
  eapply returns_bind; [apply generate_loop_returns|].
  intros [program depth] _. now apply returns_ret.
Qed.

Lemma insert_loop_returns n : forall mutated,
  returns (insert_loop n mutated) anything.
Proof.
  induction n as [|n IH]; intros mutated; cbn [insert_loop].
  - now apply returns_ret.
  - eapply returns_bind; [apply pick_returns|]. intros c _. apply IH.
Qed.

Lemma grow_loop_returns prepend n maxLength : forall mutated,
  returns (grow_loop prepend n maxLength mutated) anything.
Proof.
  induction n as [|n IH]; intros mutated; cbn [grow_loop].
  - now apply returns_ret.
  - destruct (len mutated <? maxLength); [|now apply returns_ret].
    eapply returns_bind; [apply pick_returns|]. intros c _. apply IH.
Qed.

(** The pass may skip two symbols at once, hence the induction on a bound
    of the length. *)
Lemma mutate_loop_returns rate n : forall rest mutated,
  (length rest <= n)%nat -> returns (mutate_loop rate rest mutated) anything.
Proof.
  induction n as [|n IH]; intros rest mutated Hn.
  - destruct rest; [|cbn in Hn; lia]. now apply returns_ret.
  - destruct rest as [|c rest']; [now apply returns_ret|].
    cbn in Hn. cbn [mutate_loop]. draw_step.
    destruct (Qltb a rate); [|apply IH; lia].
    draw_step. destruct (Qltb a0 (4 # 10)).
    { eapply returns_bind; [apply pick_returns|]. intros cmd _. apply IH. lia. }
    destruct (Qltb a0 (7 # 10)).
    { draw_step.
      eapply returns_bind with (P := anything).
      - destruct (Qltb a1 (7 # 10)); [now apply returns_ret|].
        draw_step. now apply returns_ret.
      - intros insertCount _.
        eapply returns_bind; [apply insert_loop_returns|].
        intros mutated' _. apply IH. lia. }
    draw_step. destruct rest' as [|c' rest'']; [apply IH; cbn; lia|].
    cbn in Hn. destruct (Qltb a1 (3 # 10)); apply IH; cbn; lia.
Qed.

Lemma mutateProgram_returns program rate maxLength :
  returns (mutateProgram program rate maxLength) (fun r => r <> []).
Proof.
  unfold mutateProgram.
  eapply returns_bind; [apply (mutate_loop_returns rate (length program)); lia|].
  intros mutated _. draw_step.
  eapply returns_bind with (P := anything).
  { destruct (_ && _); [|now apply returns_ret].
    draw_step. draw_step. apply grow_loop_returns. }
  intros mutated1 _. draw_step.
  eapply returns_bind with (P := anything).
  { destruct (_ && _); [|now apply returns_ret].
    draw_step. draw_step. now apply returns_ret. }
  intros mutated2 _. apply returns_ret. apply or_plus_nonempty.
Qed.

(** *** [interleavePrograms] *)

Section Interleave.
Variables prog1 prog2 : jsstring.

Definition il_inv (s : interleave_state) : Prop :=
  0 <= il_i1 s <= len prog1 /\ 0 <= il_i2 s <= len prog2.

(** No branch of the body applies: only on entry, with an empty [prog1]. *)
Definition il_idle (s : interleave_state) : bool :=
  if il_useFirst s then len prog1 <=? il_i1 s else len prog2 <=? il_i2 s.

(** The symbols still to copy, plus one for an idle iteration. *)
Definition il_variant (s : interleave_state) : nat :=
  if interleave_cond prog1 prog2 s
  then Z.to_nat ((len prog1 - il_i1 s) + (len prog2 - il_i2 s)
                 + (if il_idle s then 1 else 0))
  else O.

Lemma interleave_body_decreases s :
  il_inv s -> interleave_cond prog1 prog2 s = true ->
  returns (interleave_body prog1 prog2 s)
    (fun s' => il_inv s' /\ (il_variant s' < il_variant s)%nat).
Proof.
  intros [H1 H2] Hc. unfold interleave_body. draw_step.
  apply returns_ret.
  pose proof (floor_mul_range a 5 H ltac:(lia)) as Hseg.
  unfold il_variant, il_inv, il_idle. rewrite Hc.
  unfold interleave_cond in *.
  destruct s as [res i1 i2 u]. cbn [il_i1 il_i2 il_useFirst il_result] in *.
  destruct u; cbn [andb negb];
    destruct (i1 <? len prog1) eqn:E1; destruct (i2 <? len prog2) eqn:E2;
    cbn [il_i1 il_i2 il_useFirst il_result orb negb andb] in *;
    try discriminate;
    repeat match goal with
    | |- context [if ?b then _ else _] => destruct b eqn:?
    | H : context [if ?b then _ else _] |- _ => destruct b eqn:?
    end; lia.
Qed.

Lemma interleave_returns :
  returns (interleavePrograms prog1 prog2) (fun r => r <> []).
Proof.
  unfold interleavePrograms.
  eapply returns_bind.
  - apply (while_returns il_inv il_variant).
    + apply interleave_body_decreases.
    + unfold il_inv. cbn. pose proof (len_nonneg prog1). pose proof (len_nonneg prog2). lia.
    + unfold il_variant, il_idle, interleave_cond. cbn [il_i1 il_i2 il_useFirst].
      unfold len.
      repeat match goal with
      | |- context [if ?b then _ else _] => destruct b eqn:?
      end; lia.
  - intros s _. apply returns_ret. apply or_plus_nonempty.
Qed.

End Interleave.

Lemma uniform_loop_returns n : forall r1 r2 c1 c2,
  returns (uniform_loop n r1 r2 c1 c2) anything.
Proof.
  induction n as [|n IH]; intros r1 r2 c1 c2; cbn [uniform_loop].
  - now apply returns_ret.
  - draw_step. destruct (Qltb a (1 # 2)); apply IH.
Qed.

Lemma app_nonempty_r {A} (l1 l2 : list A) : l2 <> [] -> l1 ++ l2 <> [].
Proof. intros H E. apply app_eq_nil in E as [_ E]. contradiction. Qed.

Lemma app_nonempty_l {A} (l1 l2 : list A) : l1 <> [] -> l1 ++ l2 <> [].
Proof. intros H E. apply app_eq_nil in E as [E _]. contradiction. Qed.

Lemma crossoverPrograms_returns parent1 parent2 :
  parent1 <> [] -> parent2 <> [] ->
  returns (crossoverPrograms parent1 parent2)
    (fun children => children.1 <> [] /\ children.2 <> []).
Proof.
  intros Hp1 Hp2. unfold crossoverPrograms.
  assert (Hl1 : 0 < len parent1).
  { pose proof (len_nonneg parent1). pose proof (len_zero parent1).
    destruct (Z.eq_dec (len parent1) 0); [tauto | lia]. }
  assert (Hl2 : 0 < len parent2).
  { pose proof (len_nonneg parent2). pose proof (len_zero parent2).
    destruct (Z.eq_dec (len parent2) 0); [tauto | lia]. }
  replace (len parent1 =? 0) with false by lia.
  replace (len parent2 =? 0) with false by lia. cbn [orb].
  draw_step. destruct (Qltb a (4 # 10)).
  { (* single point *)
    draw_step. draw_step. apply returns_ret. cbn [fst snd].
    pose proof (floor_mul_range a0 _ H0 Hl1).
    pose proof (floor_mul_range a1 _ H1 Hl2).
    split; apply app_nonempty_r, nonempty_len; rewrite len_slice_from; lia. }
  destruct (Qltb a (7 # 10)).
  { (* two points *)
    draw_step. draw_step. draw_step. draw_step. apply returns_ret. cbn [fst snd].
    pose proof (floor_mul_range a0 _ H0 Hl1) as Hs1.
    pose proof (floor_mul_range a1 (len parent1 - floor_mul a0 (len parent1)) H1
                  ltac:(lia)) as He1.
    pose proof (floor_mul_range a2 _ H2 Hl2) as Hs2.
    pose proof (floor_mul_range a3 (len parent2 - floor_mul a2 (len parent2)) H3
                  ltac:(lia)) as He2.
    split; apply app_nonempty_r, app_nonempty_r, nonempty_len;
      rewrite len_slice_from; lia. }
  destruct (Qltb a (85 # 100)).
  { (* merge *)
    draw_step. destruct (Qltb a0 (1 # 2)).
    - eapply returns_bind; [apply interleave_returns|]. intros child1 Hc1.
      eapply returns_bind; [apply interleave_returns|]. intros child2 Hc2.
      apply returns_ret. now split.
    - draw_step. draw_step. apply returns_ret. cbn [fst snd].
      split; match goal with |- context [if ?b then _ else _] => destruct b end;
        now apply app_nonempty_l. }
  (* uniform *)
  eapply returns_bind; [apply uniform_loop_returns|].
  intros [child1 child2] _. apply returns_ret. cbn [fst snd].
  split; apply or_plus_nonempty.
Qed.

(** C9: whatever the rate, the length bound and the draws, [mutateProgram]
    returns a program that is not empty; and for parents that are not empty
    [crossoverPrograms] returns, under each of its strategies, two children
    that are not empty. *)
Theorem operators_nonempty :
  (forall program rate maxLength,
     returns (mutateProgram program rate maxLength) (fun r => r <> []))
  /\ (forall parent1 parent2,
        parent1 <> [] -> parent2 <> [] ->
        returns (crossoverPrograms parent1 parent2)
          (fun children => children.1 <> [] /\ children.2 <> [])).
Proof.
  split; [apply mutateProgram_returns | apply crossoverPrograms_returns].
Qed.

Lemma operators_nonempty_witness :
  returns (crossoverPrograms (str "+[-]") (str ",."))
    (fun children => children.1 <> [] /\ children.2 <> []).
Proof.
  apply (proj2 operators_nonempty (str "+[-]") (str ",."));
    vm_compute; discriminate.
Defined.

(** ** Evaluation of one individual *)

Module GAFacts.
Import GA.

(** The words of the specification: a case passes when the program's
    output on its input is the expected output; the accuracy over a list of
    cases is 100 times the passed fraction, and 0 for no cases. *)
Definition passes (program : jsstring) (tc : TestCase) : bool :=
  bool_decide (Interp.executeBrainfuck program (input tc) default_maxSteps = expected tc).

Definition passed_count (program : jsstring) (cases : list TestCase) : Z :=
  len (List.filter (passes program) cases).

Definition spec_accuracy (program : jsstring) (cases : list TestCase) : Q :=
  match cases with
  | [] => 0%Q
  | _ => (100 * (inject_Z (passed_count program cases) / inject_Z (len cases)))%Q
  end.

Definition spec_fitness (program : jsstring) (trainAcc : Q) : Q :=
  Qmax 0 (trainAcc - Qmin (inject_Z (len program) * (1 # 10)) 5).

Lemma run_cases_count program cases : forall res outs n,
  (run_cases program cases res outs n).2 = n + passed_count program cases.
Proof.
  induction cases as [|tc cases IH]; intros res outs n; cbn [run_cases].
  - unfold passed_count, len. cbn. lia.
  - rewrite IH. unfold passed_count. cbn [List.filter]. fold (passes program tc).
    destruct (passes program tc); rewrite ?len_cons; lia.
Qed.

Lemma passed_count_range program cases :
  0 <= passed_count program cases <= len cases.
Proof.
  unfold passed_count, len. pose proof (List.filter_length_le (passes program) cases).
  lia.
Qed.

Lemma evaluate_fields g program :
  let ind := evaluateIndividual g program in
  code ind = program
  /\ trainAccuracy ind = Some (accuracy_of (passed_count program (trainCases g)) (trainCases g))
  /\ testAccuracy ind = Some (accuracy_of (passed_count program (testCases g)) (testCases g))
  /\ accuracy ind = accuracy_of (passed_count program (trainCases g)) (trainCases g)
  /\ fitness ind
     = spec_fitness program (accuracy_of (passed_count program (trainCases g)) (trainCases g)).
Proof.
  unfold evaluateIndividual.
  pose proof (run_cases_count program (trainCases g) [] [] 0) as Htr.
  pose proof (run_cases_count program (testCases g) [] [] 0) as Hte.
  destruct (run_cases program (trainCases g) [] [] 0) as [[r1 o1] p1].
  destruct (run_cases program (testCases g) [] [] 0) as [[r2 o2] p2].
  cbn [snd] in Htr, Hte. rewrite Z.add_0_l in Htr, Hte. subst p1 p2.
  cbn. repeat split; reflexivity.
Qed.

Lemma code_evaluate g program : code (evaluateIndividual g program) = program.
Proof. apply evaluate_fields. Qed.

(** ** [hasPerfectSolution] *)

(** C8: [hasPerfectSolution] is true exactly when there is a best
    individual, the head of the population, whose [trainAccuracy] is 100 and,
    unless there are no test cases, whose [testAccuracy] is 100; it is false
    in every other state, an empty population included. *)
Theorem hasPerfectSolution_spec (g : GeneticAlgorithm) :
  (hasPerfectSolution g = true <->
     exists best, head (population g) = Some best
       /\ (exists a, trainAccuracy best = Some a /\ (a == 100)%Q)
       /\ (testCases g = []
           \/ exists a, testAccuracy best = Some a /\ (a == 100)%Q))
  /\ hasPerfectSolution (with_population g [] (generation g)) = false.
Proof.
  split; [|reflexivity].
  assert (His : forall x, is_100 x = true <-> exists a, x = Some a /\ (a == 100)%Q).
  { intros [a|]; cbn.
    - rewrite Qeq_bool_iff. split; [eauto | intros (a' & [= <-] & H); exact H].
    - split; [discriminate | intros (a' & [=] & _)]. }
  unfold hasPerfectSolution, getBestIndividual.
  destruct (population g) as [|best pop'].
  - cbn. split; [discriminate | intros (b & [=] & _)].
  - replace (0 <? len (best :: pop')) with true
      by (pose proof (len_nonneg pop'); rewrite len_cons; lia).
    change (item_at (best :: pop') 0) with (Some best). cbn [head].
    rewrite andb_true_iff, orb_true_iff, !His, Z.eqb_eq, len_zero. split.
    + intros [Ht Hs]. exists best. auto.
    + intros (b & [= <-] & Ht & Hs). auto.
Qed.

(** ** Sorting the population *)

(** [a] may stand before [b]: its fitness is not the smaller one. *)
Definition fitter (a b : Individual) : Prop := (fitness b <= fitness a)%Q.

Definition sorted_desc (pop : list Individual) : Prop := StronglySorted fitter pop.

Lemma fitter_trans a b c : fitter a b -> fitter b c -> fitter a c.
Proof. unfold fitter. intros H1 H2. eapply Qle_trans; eassumption. Qed.

Lemma compare_le x y : Qle_bool (compareFn x y) 0 = true -> fitter x y.
Proof.
  unfold compareFn, fitter. rewrite Qle_bool_iff. intros H.
  apply Qplus_le_l with (z := (- fitness x)%Q).
  assert (E : (fitness x + - fitness x == 0)%Q) by ring. rewrite E. exact H.
Qed.

Lemma compare_gt x y : Qle_bool (compareFn x y) 0 = false -> fitter y x.
Proof.
  unfold compareFn, fitter. intros H.
  destruct (Qlt_le_dec (fitness x) (fitness y)) as [Hlt | Hle].
  - now apply Qlt_le_weak.
  - exfalso. assert (Ht : Qle_bool (fitness y - fitness x) 0 = true);
      [|rewrite Ht in H; discriminate].
    apply Qle_bool_iff. apply Qplus_le_l with (z := fitness x).
    assert (E : (fitness y - fitness x + fitness x == fitness y)%Q) by ring.
    rewrite E, Qplus_0_l. exact Hle.
Qed.

Lemma sort_insert_perm x l : sort_insert x l ≡ₚ x :: l.
Proof.
  induction l as [|y l IH]; cbn [sort_insert]; [reflexivity|].
  destruct (Qle_bool (compareFn x y) 0); [reflexivity|].
  rewrite IH. apply Permutation_swap.
Qed.

Lemma sort_insert_sorted x l : sorted_desc l -> sorted_desc (sort_insert x l).
Proof.
  unfold sorted_desc. induction l as [|y l IH]; intros Hs; cbn [sort_insert].
  - repeat constructor.
  - apply StronglySorted_inv in Hs as [Hl Hy].
    destruct (Qle_bool (compareFn x y) 0) eqn:E.
    + apply compare_le in E. constructor; [now constructor|].
      constructor; [exact E|].
      eapply Forall_impl; [exact Hy|]. intros z Hz. eapply fitter_trans; eassumption.
    + apply compare_gt in E. constructor; [now apply IH|].
      rewrite sort_insert_perm. now constructor.
Qed.

Lemma sortPopulation_perm pop : sortPopulation pop ≡ₚ pop.
Proof.
  induction pop as [|x pop IH]; cbn; [reflexivity|].
  rewrite sort_insert_perm. now rewrite IH.
Qed.

Lemma sortPopulation_sorted pop : sorted_desc (sortPopulation pop).
Proof.
  induction pop as [|x pop IH]; cbn.
  - constructor.
  - now apply sort_insert_sorted.
Qed.

Lemma len_sortPopulation pop : len (sortPopulation pop) = len pop.
Proof. unfold len. f_equal. apply Permutation_length, sortPopulation_perm. Qed.

(** In a population sorted this way the head is a best individual. *)
Lemma sorted_head_best b pop x :
  sorted_desc (b :: pop) -> x ∈ b :: pop -> fitter b x.
Proof.
  intros Hs Hx. apply StronglySorted_inv in Hs as [_ Hb].
  apply elem_of_cons in Hx as [-> | Hx].
  - unfold fitter. apply Qle_refl.
  - rewrite Forall_forall in Hb. now apply Hb.
Qed.

(** ** The filling steps *)

(** The codes of the population are pairwise distinct and all recorded in
    [uniqueCodes]. *)
Definition distinct (s : list Individual * gset jsstring) : Prop :=
  NoDup (code <$> s.1) /\ forall c, c ∈ code <$> s.1 -> c ∈ s.2.

Lemma add_unique_cases g program s :
  ((program ∈ s.2) /\ add_unique g program s = s)
  \/ ((program ∉ s.2)
      /\ add_unique g program s
         = (s.1 ++ [evaluateIndividual g program], {[program]} ∪ s.2)).
Proof.
  unfold add_unique. destruct (bool_decide (program ∈ s.2)) eqn:E.
  - left. apply bool_decide_eq_true in E. auto.
  - right. apply bool_decide_eq_false in E. auto.
Qed.

Lemma add_unique_distinct g program s :
  distinct s -> distinct (add_unique g program s).
Proof.
  intros [Hnd Hin]. destruct (add_unique_cases g program s) as [[_ ->] | [Hfresh ->]].
  - now split.
  - unfold distinct. cbn [fst snd]. rewrite fmap_app. cbn [fmap list_fmap].
    rewrite code_evaluate. split.
    + apply NoDup_app. split; [exact Hnd|]. split; [|apply NoDup_singleton].
      intros c Hc Hc'. apply list_elem_of_singleton in Hc'. subst c.
      apply Hfresh, Hin, Hc.
    + intros c Hc. apply elem_of_app in Hc as [Hc | Hc].
      * apply elem_of_union_r. now apply Hin.
      * apply list_elem_of_singleton in Hc. subst c.
        apply elem_of_union_l. now apply elem_of_singleton.
Qed.

Lemma add_unique_prefix g program s base :
  base `prefix_of` s.1 -> base `prefix_of` (add_unique g program s).1.
Proof.
  intros Hp. destruct (add_unique_cases g program s) as [[_ ->] | [_ ->]];
    [exact Hp|].
  cbn [fst]. now apply prefix_app_r.
Qed.

Lemma add_unique_len g program s :
  len s.1 <= len (add_unique g program s).1 <= len s.1 + 1.
Proof.
  destruct (add_unique_cases g program s) as [[_ ->] | [_ ->]]; [lia|].
  cbn [fst]. rewrite len_app. change (len [evaluateIndividual g program]) with 1. lia.
Qed.

(** A property of the filling state that no [add_unique] step breaks. *)
Definition closed (g : GeneticAlgorithm)
    (P : list Individual * gset jsstring -> Prop) : Prop :=
  forall program s, P s -> P (add_unique g program s).

Ltac skip_step :=
  eapply ensures_bind; [apply ensures_true | intros ? _].

Lemma initialize_body_adds g s :
  ensures (initialize_body g s) (fun s' => exists program, s' = add_unique g program s).
Proof.
  unfold initialize_body. do 3 skip_step. apply ensures_ret. eauto.
Qed.

Lemma fallback_body_adds g s :
  ensures (fallback_body g s) (fun s' => exists program, s' = add_unique g program s).
Proof.
  unfold fallback_body. do 2 skip_step. apply ensures_ret. eauto.
Qed.

(** One attempt: the two children are offered in turn, the second one only
    while the new population is short. *)
Definition offered (g : GeneticAlgorithm) (child1Code child2Code : jsstring)
    (s : list Individual * gset jsstring) : list Individual * gset jsstring :=
  let s1 := add_unique g child1Code s in
  if len s1.1 <? populationSize (settings g) then add_unique g child2Code s1 else s1.

Lemma offspring_body_adds g s :
  ensures (offspring_body g s) (fun s' =>
    attempts s' = attempts s + 1
    /\ exists child1Code child2Code,
         (newPopulation s', uniqueCodes s')
         = offered g child1Code child2Code (newPopulation s, uniqueCodes s)).
Proof.
  unfold offspring_body. do 3 skip_step.
  eapply ensures_bind; [apply ensures_true|]. intros [c1 c2] _.
  do 2 skip_step. apply ensures_ret. cbn [attempts newPopulation uniqueCodes].
  split; [reflexivity|]. exists a2, a3. unfold offered.
  destruct (len _ <? _); now destruct (add_unique _ _ _).
Qed.

Lemma offered_closed g P c1 c2 s : closed g P -> P s -> P (offered g c1 c2 s).
Proof.
  intros Hcl Hs. unfold offered. destruct (len _ <? _); auto.
Qed.

Lemma offered_len g c1 c2 s :
  len s.1 < populationSize (settings g) ->
  len s.1 <= len (offered g c1 c2 s).1 <= populationSize (settings g).
Proof.
  intros Hlt. unfold offered.
  pose proof (add_unique_len g c1 s) as H1.
  destruct (len (add_unique g c1 s).1 <? populationSize (settings g)) eqn:E.
  - pose proof (add_unique_len g c2 (add_unique g c1 s)). lia.
  - lia.
Qed.

(** The seeds: at most 30% of [populationSize] of them are taken. *)
Definition seed_limit (g : GeneticAlgorithm) : Z :=
  Qfloor (inject_Z (populationSize (settings g)) * (3 # 10)).

Lemma seed_limit_le g :
  0 <= populationSize (settings g) -> seed_limit g <= populationSize (settings g).
Proof.
  intros Hp. unfold seed_limit.
  rewrite <- (Qfloor_Z (populationSize (settings g))) at 2.
  apply Qfloor_resp_le. unfold Qle, Qmult, inject_Z. cbn. lia.
Qed.

Lemma seed_loop_inv g P seeds : forall pop uniq count,
  closed g P -> P (pop, uniq) -> len pop = count ->
  let s := seed_loop g seeds pop uniq count in
  P s /\ len s.1 <= Z.max count (seed_limit g).
Proof.
  induction seeds as [|seedCode seeds IH]; intros pop uniq count Hcl HP Hlen;
    cbn [seed_loop]; fold (seed_limit g).
  - cbn [fst]. split; [exact HP | lia].
  - destruct (seed_limit g <=? count) eqn:Elim; [cbn [fst]; split; [exact HP | lia]|].
    pose proof (Hcl seedCode _ HP) as Hadd. unfold add_unique in Hadd.
    cbn [fst snd] in Hadd.
    destruct (bool_decide (seedCode ∈ uniq)).
    + apply IH; assumption.
    + destruct (IH (pop ++ [evaluateIndividual g seedCode]) ({[seedCode]} ∪ uniq)
                  (count + 1) Hcl Hadd) as [H1 H2].
      { rewrite len_app. change (len [evaluateIndividual g seedCode]) with 1. lia. }
      split; [exact H1 | lia].
Qed.

(** What [initialize] builds: a filling state of exactly [populationSize]
    individuals, then sorted. *)
Lemma initialize_builds fuel g P :
  0 <= populationSize (settings g) ->
  closed g P -> P ([], ∅) ->
  ensures (initialize fuel g) (fun g' => exists f,
    P f /\ len f.1 = populationSize (settings g)
    /\ g' = with_population g (sortPopulation f.1) 0).
Proof.
  intros Hp Hcl H0. unfold initialize.
  destruct (seed_loop_inv g P (seedGenomes g) [] ∅ 0 Hcl H0 eq_refl) as [Hs Hl].
  pose proof (seed_limit_le g Hp) as Hlim.
  eapply ensures_bind.
  - apply (while_ensures (fun s => P s /\ len s.1 <= populationSize (settings g))).
    + intros s [HP Hlen] Hc. unfold fill_cond in Hc.
      eapply ensures_weaken; [apply initialize_body_adds|].
      intros s' [program ->]. split; [now apply Hcl|].
      pose proof (add_unique_len g program s). lia.
    + split; [exact Hs | lia].
  - intros f [[HP Hlen] Hc]. unfold fill_cond in Hc. apply ensures_ret.
    exists f. repeat split; [exact HP | lia].
Qed.

Definition elite_of (g : GeneticAlgorithm) : list Individual :=
  slice (population g) 0 (elitism (settings g)).

Definition elite_state (g : GeneticAlgorithm) : list Individual * gset jsstring :=
  (elite_of g, list_to_set (code <$> elite_of g)).

Lemma evolve_offspring_inv g P :
  closed g P -> P (elite_state g) ->
  ensures (evolve_offspring g) (fun s =>
    P (newPopulation s, uniqueCodes s)
    /\ 0 <= attempts s <= Z.max 0 (maxAttempts g)).
Proof.
  intros Hcl H0. unfold evolve_offspring. fold (elite_of g).
  eapply ensures_weaken.
  - apply (while_ensures (fun s => P (newPopulation s, uniqueCodes s)
                                   /\ 0 <= attempts s <= Z.max 0 (maxAttempts g))).
    + intros s [HP Ha] Hc. unfold offspring_cond in Hc.
      apply andb_true_iff in Hc as [_ Hc].
      eapply ensures_weaken; [apply offspring_body_adds|].
      intros s' (Hatt & c1 & c2 & E). rewrite E. split; [now apply offered_closed | lia].
    + cbn [newPopulation uniqueCodes attempts]. split; [exact H0 | lia].
  - intros s [H _]. exact H.
Qed.

(** What [evolve] builds: a filling state that extends the elite and is
    not short, cut to [populationSize] and sorted. *)
Lemma evolve_builds fuel g P :
  closed g P -> P (elite_state g) ->
  ensures (evolve fuel g) (fun g' => exists f,
    P f /\ populationSize (settings g) <= len f.1
    /\ g' = with_population g
              (sortPopulation (slice f.1 0 (populationSize (settings g))))
              (generation g + 1)).
Proof.
  intros Hcl H0. unfold evolve.
  eapply ensures_bind; [apply (evolve_offspring_inv g P Hcl H0)|].
  intros s [HP _]. eapply ensures_bind.
  - apply (while_ensures P).
    + intros st HPst _. eapply ensures_weaken; [apply fallback_body_adds|].
      intros s' [program ->]. now apply Hcl.
    + exact HP.
  - intros f [HPf Hc]. unfold fill_cond in Hc. apply ensures_ret.
    exists f. repeat split; [exact HPf | lia].
Qed.

(** ** Shape of the population *)

(** [n] calls of [advance()] in a row. *)
Fixpoint advance (fuel n : nat) (g : GeneticAlgorithm) : M GeneticAlgorithm :=
  match n with
  | O => mret g
  | S n' => g' ← evolve fuel g; advance fuel n' g'
  end.

Definition shaped (g g' : GeneticAlgorithm) : Prop :=
  settings g' = settings g
  /\ len (population g') = populationSize (settings g)
  /\ sorted_desc (population g').

Lemma initialize_shaped fuel g :
  0 <= populationSize (settings g) -> ensures (initialize fuel g) (shaped g).
Proof.
  intros Hp. eapply ensures_weaken.
  - apply (initialize_builds fuel g (fun _ => True)); [exact Hp | easy | easy].
  - intros g' (f & _ & Hlen & ->). unfold shaped. cbn [settings population with_population].
    split; [reflexivity|]. split; [|apply sortPopulation_sorted].
    now rewrite len_sortPopulation.
Qed.

Lemma evolve_shaped fuel g :
  0 <= populationSize (settings g) -> ensures (evolve fuel g) (shaped g).
Proof.
  intros Hp. eapply ensures_weaken.
  - apply (evolve_builds fuel g (fun _ => True)); easy.
  - intros g' (f & _ & Hlen & ->). unfold shaped. cbn [settings population with_population].
    split; [reflexivity|]. split; [|apply sortPopulation_sorted].
    rewrite len_sortPopulation, len_slice; lia.
Qed.

Lemma shaped_trans g g1 g2 : shaped g g1 -> shaped g1 g2 -> shaped g g2.
Proof.
  unfold shaped. intros (E1 & _ & _) (E2 & H2 & H3). rewrite <- E1, <- E2. now rewrite E2.
Qed.

Lemma advance_shaped fuel n : forall g g0,
  0 <= populationSize (settings g0) ->
  shaped g0 g -> ensures (advance fuel n g) (shaped g0).
Proof.
  induction n as [|n IH]; intros g g0 Hp Hg; cbn [advance].
  - now apply ensures_ret.
  - eapply ensures_bind.
    + apply evolve_shaped. destruct Hg as [-> _]. exact Hp.
    + intros g' Hg'. apply IH; [exact Hp|]. eapply shaped_trans; eassumption.
Qed.

(** C4: under settings with [populationSize >= 1] and
    [elitism <= populationSize], whenever [initialize()] or [evolve()]
    returns, the population has exactly [populationSize] individuals and is
    sorted by falling fitness; so has every generation that repeated calls of
    [evolve()] produce after [initialize()]. *)
Theorem population_shape (fuel n : nat) (g : GeneticAlgorithm) :
  1 <= populationSize (settings g) ->
  elitism (settings g) <= populationSize (settings g) ->
  ensures (initialize fuel g) (shaped g)
  /\ ensures (evolve fuel g) (shaped g)
  /\ ensures (g1 ← initialize fuel g; advance fuel n g1) (shaped g).
Proof.
  intros Hp _. assert (Hp0 : 0 <= populationSize (settings g)) by lia.
  split; [now apply initialize_shaped|]. split; [now apply evolve_shaped|].
  eapply ensures_bind; [now apply initialize_shaped|].
  intros g1 Hg1. now apply advance_shaped.
Qed.

(** ** Elitism *)

Lemma elite_prefix g : elite_of g `prefix_of` population g.
Proof.
  unfold elite_of. destruct (slice_prefix (population g) (elitism (settings g))) as [n ->].
  apply prefix_take.
Qed.

Lemma prefix_slice {A} (base l : list A) (n : Z) :
  base `prefix_of` l -> len base <= n -> base `prefix_of` slice l 0 n.
Proof.
  intros [rest ->] Hn. rewrite slice_prefix_nonneg by (pose proof (len_nonneg base); lia).
  rewrite take_app_ge by (unfold len in Hn; lia).
  now apply prefix_app_r.
Qed.

Lemma prefix_elem {A} (base l : list A) x : base `prefix_of` l -> x ∈ base -> x ∈ l.
Proof. intros [rest ->] Hx. apply elem_of_app. now left. Qed.

Definition carries (g g' : GeneticAlgorithm) : Prop :=
  settings g' = settings g
  /\ sorted_desc (population g')
  /\ forall ind, ind ∈ elite_of g -> ind ∈ population g'.

Lemma evolve_carries fuel g :
  0 <= elitism (settings g) <= populationSize (settings g) ->
  ensures (evolve fuel g) (carries g).
Proof.
  intros He. eapply ensures_weaken.
  - apply (evolve_builds fuel g (fun s => elite_of g `prefix_of` s.1)).
    + intros program s. apply add_unique_prefix.
    + reflexivity.
  - intros g' (f & Hpre & Hlen & ->). unfold carries.
    cbn [settings population with_population].
    split; [reflexivity|]. split; [apply sortPopulation_sorted|].
    intros ind Hind. rewrite sortPopulation_perm.
    eapply prefix_elem; [|exact Hind].
    apply prefix_slice; [exact Hpre|].
    unfold elite_of. rewrite slice_prefix_nonneg by lia.
    unfold len. rewrite length_take. lia.
Qed.

(** The best fitness does not fall from [g] to [g']. *)
Definition best_fitness_le (g g' : GeneticAlgorithm) : Prop :=
  forall best, getBestIndividual g = Some best ->
  exists best', getBestIndividual g' = Some best'
                /\ (fitness best <= fitness best')%Q.

Lemma getBestIndividual_head g : getBestIndividual g = head (population g).
Proof.
  unfold getBestIndividual. destruct (population g) as [|b pop]; [reflexivity|].
  replace (0 <? len (b :: pop)) with true
    by (pose proof (len_nonneg pop); rewrite len_cons; lia).
  reflexivity.
Qed.

Lemma elite_top g :
  0 <= elitism (settings g) ->
  elite_of g = take (Z.to_nat (elitism (settings g))) (population g).
Proof. intros He. unfold elite_of. now apply slice_prefix_nonneg. Qed.

Lemma carries_best g g' :
  0 < elitism (settings g) -> carries g g' -> best_fitness_le g g'.
Proof.
  intros He (_ & Hsorted & Hin) best Hbest.
  rewrite getBestIndividual_head in Hbest.
  assert (Hb : best ∈ population g').
  { apply Hin. rewrite elite_top by lia.
    destruct (population g) as [|b pop]; [discriminate|].
    injection Hbest as ->.
    destruct (Z.to_nat (elitism (settings g))) as [|k] eqn:Ek; [lia|].
    cbn [take]. apply elem_of_cons. now left. }
  rewrite getBestIndividual_head.
  destruct (population g') as [|b' pop']; [now apply elem_of_nil in Hb|].
  exists b'. split; [reflexivity|].
  exact (sorted_head_best b' pop' best Hsorted Hb).
Qed.

Lemma best_fitness_le_trans g g1 g2 :
  best_fitness_le g g1 -> best_fitness_le g1 g2 -> best_fitness_le g g2.
Proof.
  intros H1 H2 best Hb. destruct (H1 best Hb) as (b1 & Hb1 & Hle1).
  destruct (H2 b1 Hb1) as (b2 & Hb2 & Hle2).
  exists b2. split; [exact Hb2 | eapply Qle_trans; eassumption].
Qed.

Lemma advance_best fuel n : forall g,
  0 < elitism (settings g) <= populationSize (settings g) ->
  ensures (advance fuel n g) (best_fitness_le g).
Proof.
  induction n as [|n IH]; intros g He; cbn [advance].
  - apply ensures_ret. intros best Hb. exists best. split; [exact Hb | apply Qle_refl].
  - eapply ensures_bind; [apply (evolve_carries fuel g); lia|].
    intros g1 Hc. pose proof (carries_best g g1 ltac:(lia) Hc) as Hle.
    destruct Hc as (Es & _ & _).
    eapply ensures_weaken; [apply IH; rewrite Es; exact He|].
    intros g2 H2. eapply best_fitness_le_trans; eassumption.
Qed.

(** C5: with [0 < elitism <= populationSize], when [evolve()] returns, the
    first [elitism] individuals of the old population are individuals of the
    new one, the same records with code and cached fitness; hence the fitness
    of the best individual does not fall, in one call or in any number of
    successive calls. *)
Theorem elitism_keeps_best (fuel n : nat) (g : GeneticAlgorithm) :
  0 < elitism (settings g) <= populationSize (settings g) ->
  ensures (evolve fuel g) (fun g' =>
    (forall ind, ind ∈ take (Z.to_nat (elitism (settings g))) (population g) ->
                 ind ∈ population g')
    /\ best_fitness_le g g')
  /\ ensures (advance fuel n g) (best_fitness_le g).
Proof.
  intros He. split; [|now apply advance_best].
  eapply ensures_weaken; [apply (evolve_carries fuel g); lia|].
  intros g' Hc. split; [|apply carries_best; [lia | exact Hc]].
  destruct Hc as (_ & _ & Hin). intros ind Hind. apply Hin.
  rewrite elite_top by lia. exact Hind.
Qed.

(** ** Distinct programs *)

Lemma initialize_closed fuel g P :
  closed g P -> P ([], ∅) ->
  ensures (initialize fuel g) (fun g' => exists f,
    P f /\ g' = with_population g (sortPopulation f.1) 0).
Proof.
  intros Hcl H0. unfold initialize.
  destruct (seed_loop_inv g P (seedGenomes g) [] ∅ 0 Hcl H0 eq_refl) as [Hs _].
  eapply ensures_bind.
  - apply (while_ensures P); [|exact Hs].
    intros s HP _. eapply ensures_weaken; [apply initialize_body_adds|].
    intros s' [program ->]. now apply Hcl.
  - intros f [HP _]. apply ensures_ret. eauto.
Qed.

Definition distinct_codes (pop : list Individual) : Prop := NoDup (code <$> pop).

Lemma distinct_codes_take n pop : distinct_codes pop -> distinct_codes (take n pop).
Proof.
  unfold distinct_codes. intros H. rewrite <- (take_drop n pop), fmap_app in H.
  now apply NoDup_app in H as [H _].
Qed.

Lemma distinct_codes_sort pop : distinct_codes pop -> distinct_codes (sortPopulation pop).
Proof. unfold distinct_codes. now rewrite sortPopulation_perm. Qed.

Lemma initialize_distinct fuel g :
  ensures (initialize fuel g) (fun g' => distinct_codes (population g')).
Proof.
  eapply ensures_weaken.
  - apply (initialize_closed fuel g distinct).
    + intros program s. apply add_unique_distinct.
    + split; [constructor | intros c Hc; now apply elem_of_nil in Hc].
  - intros g' (f & [Hnd _] & ->). cbn [population with_population].
    now apply distinct_codes_sort.
Qed.

Lemma evolve_distinct fuel g :
  distinct_codes (population g) ->
  ensures (evolve fuel g) (fun g' => distinct_codes (population g')).
Proof.
  intros Hd. eapply ensures_weaken.
  - apply (evolve_builds fuel g distinct).
    + intros program s. apply add_unique_distinct.
    + unfold distinct, elite_state. cbn [fst snd]. split.
      * unfold elite_of.
        destruct (slice_prefix (population g) (elitism (settings g))) as [k ->].
        now apply distinct_codes_take.
      * intros c Hc. now apply elem_of_list_to_set.
  - intros g' (f & [Hnd _] & _ & ->). cbn [population with_population].
    apply distinct_codes_sort.
    destruct (slice_prefix f.1 (populationSize (settings g))) as [k ->].
    now apply distinct_codes_take.
Qed.

(** The states a caller can get: [initialize()] on any state, [evolve()] on
    a state it got, and the setters in between. *)
Inductive produced : GeneticAlgorithm -> Prop :=
| produced_initialize fuel g rnd i g' j :
    initialize fuel g rnd i = Ret (g', j) -> produced g'
| produced_evolve fuel g rnd i g' j :
    produced g -> evolve fuel g rnd i = Ret (g', j) -> produced g'
| produced_updateSettings g st : produced g -> produced (updateSettings g st)
| produced_updateTrainCases g cs : produced g -> produced (updateTrainCases g cs)
| produced_updateTestCases g cs : produced g -> produced (updateTestCases g cs)
| produced_setSeedGenomes g genomes : produced g -> produced (setSeedGenomes g genomes).

(** C10: in every population that [initialize()] produces, or a sequence
    of [evolve()] calls after it, the program strings are pairwise distinct:
    the elite carried over and the individuals of the fallback stage
    included. *)
Theorem populations_distinct (g : GeneticAlgorithm) :
  produced g -> distinct_codes (population g).
Proof.
  induction 1 as [fuel g rnd i g' j E | fuel g rnd i g' j _ IH E
                  | g st _ IH | g cs _ IH | g cs _ IH | g genomes _ IH];
    try exact IH.
  - exact (initialize_distinct fuel g rnd i g' j E).
  - exact (evolve_distinct fuel g IH rnd i g' j E).
Qed.

(** ** Loops that end by themselves *)

(** [halts c]: whatever the draws, [c] ends, by returning or by throwing;
    no loop of [c] is cut by the fuel. *)
Definition halts {A} (c : M A) : Prop := forall rnd i, c rnd i <> Timeout.

Lemma returns_halts {A} (c : M A) (P : A -> Prop) : returns c P -> halts c.
Proof. intros H rnd i. destruct (H rnd i) as (a & j & -> & _). discriminate. Qed.

Lemma halts_ret {A} (a : A) : halts (mret a).
Proof. intros rnd i. discriminate. Qed.

Lemma halts_throw {A} : halts (@throw A).
Proof. intros rnd i. discriminate. Qed.

Lemma halts_bind {A B} (c : M A) (k : A -> M B) :
  halts c -> (forall a, halts (k a)) -> halts (c ≫= k).
Proof.
  intros Hc Hk rnd i. unfold mbind, M_bind.
  destruct (c rnd i) as [[a j]| |] eqn:E; [apply Hk | discriminate | ].
  now apply Hc in E.
Qed.

Lemma while_halts {S} (I : S -> Prop) (V : S -> nat) (cond : S -> bool)
    (body : S -> M S) :
  (forall s, I s -> cond s = true ->
     (0 < V s)%nat /\ halts (body s)
     /\ ensures (body s) (fun s' => I s' /\ (V s' < V s)%nat)) ->
  forall fuel s, I s -> (V s <= fuel)%nat -> halts (while fuel cond body s).
Proof.
  intros Hbody fuel. induction fuel as [|fuel IH]; intros s Hs HV; cbn [while].
  - destruct (cond s) eqn:E; [|apply halts_ret].
    destruct (Hbody s Hs E) as (Hpos & _). lia.
  - destruct (cond s) eqn:E; [|apply halts_ret].
    destruct (Hbody s Hs E) as (_ & Hh & He).
    intros rnd i. unfold mbind, M_bind.
    destruct (body s rnd i) as [[s' j]| |] eqn:Eb; [ | discriminate | now apply Hh in Eb].
    destruct (He rnd i s' j Eb) as [Hs' Hlt]. apply IH; [exact Hs' | lia].
Qed.

Lemma tournamentSelection_halts g : halts (tournamentSelection g).
Proof.
  assert (Hm : forall pop, halts (random_member pop)).
  { intros pop. unfold random_member. apply halts_bind; [apply (returns_halts _ _ returns_random)|].
    intros r. apply halts_ret. }
  assert (Hr : forall pop best, halts (tournament_round pop best)).
  { intros pop best. unfold tournament_round. apply halts_bind; [apply Hm|].
    intros [c|]; destruct best; first [apply halts_ret | apply halts_throw]. }
  unfold tournamentSelection. apply halts_bind; [apply Hm|]. intros b1.
  apply halts_bind; [apply Hr|]. intros b2.
  apply halts_bind; [apply Hr|]. intros [b|]; [apply halts_ret | apply halts_throw].
Qed.

Lemma crossoverPrograms_total parent1 parent2 :
  returns (crossoverPrograms parent1 parent2) anything.
Proof.
  destruct parent1 as [|c1 p1]; [now apply returns_ret|].
  destruct parent2 as [|c2 p2]; [now apply returns_ret|].
  eapply returns_weaken; [apply crossoverPrograms_returns; discriminate|]. easy.
Qed.

Lemma offspring_body_halts g s : halts (offspring_body g s).
Proof.
  unfold offspring_body.
  apply halts_bind; [apply tournamentSelection_halts|]. intros parent1.
  apply halts_bind; [apply tournamentSelection_halts|]. intros parent2.
  apply halts_bind; [apply (returns_halts _ _ returns_random)|]. intros c.
  apply halts_bind.
  { destruct (Qltb c _); [apply (returns_halts _ _ (crossoverPrograms_total _ _))
                         | apply halts_ret]. }
  intros [c1 c2].
  apply halts_bind; [apply (returns_halts _ _ (mutateProgram_returns _ _ _))|]. intros m1.
  apply halts_bind; [apply (returns_halts _ _ (mutateProgram_returns _ _ _))|]. intros m2.
  apply halts_ret.
Qed.

(** The offspring loop ends within its fuel of [maxAttempts] iterations. *)
Lemma evolve_offspring_halts g : halts (evolve_offspring g).
Proof.
  unfold evolve_offspring.
  apply (while_halts (fun s => 0 <= attempts s)
           (fun s => Z.to_nat (maxAttempts g - attempts s))).
  - intros s Ha Hc. unfold offspring_cond in Hc. apply andb_true_iff in Hc as [_ Hc].
    split; [lia|]. split; [apply offspring_body_halts|].
    eapply ensures_weaken; [apply offspring_body_adds|].
    intros s' (E & _). lia.
  - cbn [attempts]. lia.
  - cbn [attempts]. lia.
Qed.

(** ** The attempt budget and the fallback *)

(** The candidate the fallback loop makes when its iteration starts at
    cursor [k] of the draws: one draw for the length, then the generator. *)
Definition fallback_candidate (g : GeneticAlgorithm) (rnd : nat -> draw) (k : nat)
    (program : jsstring) : Prop :=
  exists j,
    generateRandomProgram
      (floor_mul (dval (rnd k)) (Z.min (maxProgramLength (settings g)) 50) + 5)
      (maxProgramLength (settings g)) rnd (S k) = Ret (program, j).

(** One iteration of the fallback loop returns, whatever the draws: its
    candidate is what [generateRandomProgram] returns, and the new state is
    the old one with the candidate offered to it. *)
Lemma fallback_body_run g s rnd i :
  exists program j,
    generateRandomProgram
      (floor_mul (dval (rnd i)) (Z.min (maxProgramLength (settings g)) 50) + 5)
      (maxProgramLength (settings g)) rnd (S i) = Ret (program, j)
    /\ fallback_body g s rnd i = Ret (add_unique g program s, j).
Proof.
  destruct (generateRandomProgram_returns
              (floor_mul (dval (rnd i)) (Z.min (maxProgramLength (settings g)) 50) + 5)
              (maxProgramLength (settings g)) rnd (S i)) as (program & j & E & _).
  exists program, j. split; [exact E|].
  unfold fallback_body, mbind, M_bind, random. rewrite E. reflexivity.
Qed.

(** A run of the fallback loop that returns: it has added the evaluations of
    the candidates it took, in turn; these are distinct, none was recorded
    before, and there are as many of them as slots were free. *)
Definition fallback_filled (g : GeneticAlgorithm) (rnd : nat -> draw)
    (s f : list Individual * gset jsstring) (progs : list jsstring) : Prop :=
  f.1 = s.1 ++ (evaluateIndividual g <$> progs)
  /\ f.2 = list_to_set progs ∪ s.2
  /\ NoDup progs
  /\ (forall p, p ∈ progs -> (p ∉ s.2) /\ exists k, fallback_candidate g rnd k p)
  /\ (populationSize (settings g) <= len s.1 -> progs = [])
  /\ (len s.1 < populationSize (settings g) ->
      len s.1 + len progs = populationSize (settings g)).

Lemma fallback_loop_run g rnd fuel : forall s i f j,
  while fuel (fill_cond g) (fallback_body g) s rnd i = Ret (f, j) ->
  exists progs, fallback_filled g rnd s f progs.
Proof.
  assert (Hdone : forall s, fill_cond g s = false -> fallback_filled g rnd s s []).
  { intros s Hc. unfold fill_cond in Hc. unfold fallback_filled.
    cbn [fmap list_fmap list_to_set foldr]. rewrite app_nil_r.
    split; [reflexivity|]. split; [symmetry; apply (left_id_L ∅ (∪))|].
    split; [constructor|].
    split; [intros p Hp; now apply elem_of_nil in Hp|].
    split; [intros _; reflexivity | intros H; lia]. }
  induction fuel as [|fuel IH]; intros s i f j; cbn [while];
    destruct (fill_cond g s) eqn:Hc.
  - discriminate.
  - intros [= <- <-]. exists []. now apply Hdone.
  - destruct (fallback_body_run g s rnd i) as (program & j1 & Eg & Eb).
    unfold mbind at 1, M_bind at 1. rewrite Eb. intros Hw.
    destruct (IH _ _ _ _ Hw) as (progs & Hf & Hu & Hnd & Hin & Hfull & Hshort).
    unfold fill_cond in Hc.
    destruct (add_unique_cases g program s) as [[Hdup E] | [Hfresh E]];
      rewrite E in Hf, Hu, Hin, Hfull, Hshort.
    + exists progs.
      exact (conj Hf (conj Hu (conj Hnd (conj Hin (conj Hfull Hshort))))).
    + cbn [fst snd] in Hf, Hu, Hin, Hfull, Hshort.
      rewrite len_app in Hfull, Hshort.
      change (len [evaluateIndividual g program]) with 1 in Hfull, Hshort.
      exists (program :: progs). unfold fallback_filled.
      split; [rewrite Hf, <- app_assoc; reflexivity|].
      split.
      { rewrite Hu. cbn [list_to_set foldr].
        rewrite (assoc_L (∪)), (comm_L (∪) (list_to_set progs)). reflexivity. }
      split.
      { constructor; [|exact Hnd]. intros Hp. apply Hin in Hp as [Hp _].
        apply Hp, elem_of_union_l, elem_of_singleton. reflexivity. }
      split.
      { intros p Hp. apply elem_of_cons in Hp as [-> | Hp].
        - split; [exact Hfresh|]. exists i, j1. exact Eg.
        - destruct (Hin p Hp) as [Hp' Hk]. split; [|exact Hk].
          intros Hs. apply Hp', elem_of_union_r, Hs. }
      split; [intros; lia|].
      intros _. rewrite len_cons.
      destruct (Z.le_gt_cases (populationSize (settings g)) (len s.1 + 1)) as [Hle | Hgt].
      * rewrite (Hfull Hle). change (len []) with 0. lia.
      * specialize (Hshort Hgt). lia.
  - intros [= <- <-]. exists []. now apply Hdone.
Qed.

(** Every code of the new population is recorded in [uniqueCodes]. *)
Definition recorded (s : list Individual * gset jsstring) : Prop :=
  forall c, c ∈ code <$> s.1 -> c ∈ s.2.

Lemma recorded_closed g : closed g recorded.
Proof.
  intros program s Hs.
  destruct (add_unique_cases g program s) as [[_ ->] | [_ ->]]; [exact Hs|].
  intros c Hc. cbn [fst snd] in *. rewrite fmap_app in Hc.
  apply elem_of_app in Hc as [Hc | Hc].
  - apply elem_of_union_r. now apply Hs.
  - cbn in Hc. rewrite code_evaluate in Hc. apply list_elem_of_singleton in Hc.
    subst c. apply elem_of_union_l. now apply elem_of_singleton.
Qed.

Lemma recorded_elite g : recorded (elite_state g).
Proof.
  intros c Hc. cbn [elite_state fst snd] in *. now apply elem_of_list_to_set.
Qed.

(** C6 (amended): the offspring stage of [evolve] ends, after at most
    [populationSize * 10] attempts, with the new population full or the
    attempts used up.  The fallback loop runs while the new population is
    short of [populationSize]: an iteration draws a length, takes what
    [generateRandomProgram] returns as its candidate, and offers it under the
    rule of the offspring stage, so that a candidate whose string is already
    in the new generation is rejected, the state is unchanged and the loop
    goes on to the next candidate.  When [evolve] returns, the loop has not
    added anything to a full population, and to a short one it has added the
    evaluations of exactly as many candidates as slots were free, distinct
    and none of them in the new generation before; the population is this
    list, cut to [populationSize] and sorted. *)
Theorem attempts_bounded_fallback_unique (fuel : nat) (g : GeneticAlgorithm) :
  (halts (evolve_offspring g)
   /\ ensures (evolve_offspring g) (fun s =>
        0 <= attempts s <= Z.max 0 (populationSize (settings g) * 10)
        /\ (populationSize (settings g) <= len (newPopulation s)
            \/ populationSize (settings g) * 10 <= attempts s)))
  /\ (forall s rnd i, exists program j,
        generateRandomProgram
          (floor_mul (dval (rnd i)) (Z.min (maxProgramLength (settings g)) 50) + 5)
          (maxProgramLength (settings g)) rnd (S i) = Ret (program, j)
        /\ fallback_body g s rnd i = Ret (add_unique g program s, j)
        /\ (program ∈ s.2 -> add_unique g program s = s)
        /\ (program ∉ s.2 ->
            add_unique g program s
            = (s.1 ++ [evaluateIndividual g program], {[program]} ∪ s.2))
        /\ (len s.1 < populationSize (settings g) ->
            while (S fuel) (fill_cond g) (fallback_body g) s rnd i
            = while fuel (fill_cond g) (fallback_body g) (add_unique g program s) rnd j)
        /\ (populationSize (settings g) <= len s.1 ->
            while fuel (fill_cond g) (fallback_body g) s rnd i = Ret (s, i)))
  /\ (forall rnd i g' j, evolve fuel g rnd i = Ret (g', j) ->
      exists s i1 f progs,
        evolve_offspring g rnd i = Ret (s, i1)
        /\ while fuel (fill_cond g) (fallback_body g)
             (newPopulation s, uniqueCodes s) rnd i1 = Ret (f, j)
        /\ f.1 = newPopulation s ++ (evaluateIndividual g <$> progs)
        /\ NoDup progs
        /\ (forall p, p ∈ progs ->
              (p ∉ uniqueCodes s) /\ (p ∉ code <$> newPopulation s)
              /\ exists k, fallback_candidate g rnd k p)
        /\ (populationSize (settings g) <= len (newPopulation s) -> progs = [])
        /\ (len (newPopulation s) < populationSize (settings g) ->
            len (newPopulation s) + len progs = populationSize (settings g))
        /\ population g'
           = sortPopulation (slice f.1 0 (populationSize (settings g)))
        /\ generation g' = generation g + 1).
Proof.
  split; [split; [apply evolve_offspring_halts|]|split].
  - unfold evolve_offspring.
    eapply ensures_weaken.
    + apply (while_ensures (fun s => 0 <= attempts s <= Z.max 0 (maxAttempts g))).
      * intros s Ha Hc. unfold offspring_cond in Hc.
        apply andb_true_iff in Hc as [_ Hc].
        eapply ensures_weaken; [apply offspring_body_adds|].
        intros s' (Hatt & _). lia.
      * cbn [attempts]. lia.
    + intros s [Ha Hc]. unfold offspring_cond in Hc. unfold maxAttempts in *.
      split; [exact Ha|]. apply andb_false_iff in Hc as [Hc | Hc]; lia.
  - intros s rnd i.
    destruct (fallback_body_run g s rnd i) as (program & j & Eg & Eb).
    exists program, j. split; [exact Eg|]. split; [exact Eb|].
    split; [|split; [|split]].
    + intros H. destruct (add_unique_cases g program s) as [[_ E] | [H' _]];
        [exact E | contradiction].
    + intros H. destruct (add_unique_cases g program s) as [[H' _] | [_ E]];
        [contradiction | exact E].
    + intros Hc. cbn [while]. unfold fill_cond at 1.
      replace (len s.1 <? populationSize (settings g)) with true by lia.
      unfold mbind at 1, M_bind at 1. rewrite Eb. reflexivity.
    + intros Hc. destruct fuel; cbn [while]; unfold fill_cond at 1;
        replace (len s.1 <? populationSize (settings g)) with false by lia;
        reflexivity.
  - intros rnd i g' j Hev. unfold evolve in Hev.
    unfold mbind at 1, M_bind at 1 in Hev.
    destruct (evolve_offspring g rnd i) as [[s i1]| |] eqn:Eo; try discriminate.
    unfold mbind at 1, M_bind at 1 in Hev.
    destruct (while fuel (fill_cond g) (fallback_body g)
                (newPopulation s, uniqueCodes s) rnd i1) as [[f j1]| |] eqn:Ew;
      try discriminate.
    injection Hev as <- <-.
    destruct (fallback_loop_run g rnd fuel _ _ _ _ Ew)
      as (progs & Hf & Hu & Hnd & Hin & Hfull & Hshort).
    cbn [fst snd] in Hf, Hin, Hfull, Hshort.
    destruct (evolve_offspring_inv g recorded (recorded_closed g) (recorded_elite g)
                rnd i s i1 Eo) as [Hrec _]. cbn [fst snd] in Hrec.
    exists s, i1, f, progs. split; [reflexivity|]. split; [exact Ew|].
    split; [exact Hf|]. split; [exact Hnd|].
    split; [|split; [exact Hfull|]; split; [exact Hshort|]; split; reflexivity].
    intros p Hp. destruct (Hin p Hp) as [Hfresh Hk].
    split; [exact Hfresh|]. split; [|exact Hk].
    intros Hc. apply Hfresh, Hrec, Hc.
Qed.

(** ** Concrete runs *)

(** The draw [k mod d / d]. *)
Definition frac (k : Z) (d : positive) : Q := (k mod Z.pos d) # d.

Lemma frac_range k d : unit_range (frac k d) = true.
Proof.
  pose proof (Z.mod_pos_bound k (Z.pos d) eq_refl) as Hm.
  unfold unit_range, frac, Qltb. apply andb_true_iff. split.
  - apply Qle_bool_iff. unfold Qle. cbn. lia.
  - apply negb_true_iff. destruct (Qle_bool 1 _) eqn:E; [|reflexivity].
    apply Qle_bool_iff in E. unfold Qle in E. cbn in E. lia.
Qed.

Definition mkdraw (k : Z) (d : positive) : draw :=
  {| dval := frac k d; d_range := frac_range k d |}.

(** Two sequences of draws: all zero, and one that moves around. *)
Definition zeros : nat -> draw := fun _ => mkdraw 0 1.

Definition mixed : nat -> draw := fun n => mkdraw (Z.of_nat n * 37 + 11) 101.

(** The task "add one", a population of four, and a seed that solves it. *)
Definition sample_settings : GASettings :=
  {| populationSize := 4; mutationRate := 1 # 10; crossoverRate := 7 # 10;
     elitism := 1; maxGenerations := 10; maxProgramLength := 20 |}.

Definition sample_cases : list TestCase :=
  [ {| input := [1]; expected := [2] |}; {| input := [2]; expected := [3] |} ].

Definition sample_ga : GeneticAlgorithm :=
  setSeedGenomes (new sample_settings sample_cases []) [str ",+."].

Example sample_seed_is_best :
  exists g j, initialize 20 sample_ga mixed 0%nat = Ret (g, j)
    /\ (code <$> getBestIndividual g) = Some (str ",+.")
    /\ hasPerfectSolution g = true.
Proof.
  eexists _, _. split; [vm_compute; reflexivity|]. split; vm_compute; reflexivity.
Qed.

Lemma population_shape_witness :
  exists g j,
    (g1 ← initialize 20 sample_ga; advance 20 2 g1) mixed 0%nat = Ret (g, j)
    /\ shaped sample_ga g.
Proof.
  eexists _, _. split; [vm_compute; reflexivity|].
  eapply (proj2 (proj2 (population_shape 20 2 sample_ga _ _)) mixed 0%nat).
  vm_compute; reflexivity.
  Unshelve. all: vm_compute; discriminate.
Defined.

Lemma sample_two_generations :
  exists g1 i g2 j,
    initialize 20 sample_ga mixed 0%nat = Ret (g1, i)
    /\ evolve 20 g1 mixed i = Ret (g2, j)
    /\ 0 < elitism (settings g1) <= populationSize (settings g1).
Proof.
  eexists _, _, _, _. split; [vm_compute; reflexivity|].
  split; [vm_compute; reflexivity|]. vm_compute. split; [reflexivity | discriminate].
Defined.

Lemma elitism_keeps_best_witness :
  exists g1 i g2 j,
    initialize 20 sample_ga mixed 0%nat = Ret (g1, i)
    /\ evolve 20 g1 mixed i = Ret (g2, j)
    /\ best_fitness_le g1 g2.
Proof.
  destruct sample_two_generations as (g1 & i & g2 & j & E1 & E2 & He).
  exists g1, i, g2, j. split; [exact E1|]. split; [exact E2|].
  exact (proj2 (proj1 (elitism_keeps_best 20 0 g1 He) mixed i g2 j E2)).
Defined.

Lemma populations_distinct_witness :
  exists g1 i g2 j,
    initialize 20 sample_ga mixed 0%nat = Ret (g1, i)
    /\ evolve 20 g1 mixed i = Ret (g2, j)
    /\ distinct_codes (population g2).
Proof.
  destruct sample_two_generations as (g1 & i & g2 & j & E1 & E2 & _).
  exists g1, i, g2, j. split; [exact E1|]. split; [exact E2|].
  exact (populations_distinct g2
           (produced_evolve 20 g1 mixed i g2 j
              (produced_initialize 20 sample_ga mixed 0%nat g1 i E1) E2)).
Defined.

(** ** The fallback rejects duplicates *)

(** A population of two without mutation and crossover; the draws make
    [initialize] produce ">>>>>" and one other program, and are zero from
    then on. *)
Definition dup_settings : GASettings :=
  {| populationSize := 2; mutationRate := 0; crossoverRate := 0;
     elitism := 1; maxGenerations := 10; maxProgramLength := 20 |}.

Definition dup_ga : GeneticAlgorithm := new dup_settings [] [].

Definition dup_draws : nat -> draw := fun n =>
  if (7 <=? Z.of_nat n) && (Z.of_nat n <? 14) then mkdraw 1 2 else mkdraw 0 1.

(** C6, as stated, fails: in this run of [evolve] all 20 attempts of the
    offspring stage yield the program of the elite, the new population is
    still short of one, the first candidate of the fallback stage is ">>>>>"
    again, and the fallback does not take it. *)
Lemma fallback_rejects_duplicate :
  exists g i s j s' k,
    initialize 10 dup_ga dup_draws 0%nat = Ret (g, i)
    /\ evolve_offspring g dup_draws i = Ret (s, j)
    /\ attempts s = maxAttempts g
    /\ code <$> newPopulation s = [str ">>>>>"]
    /\ len (newPopulation s) < populationSize (settings g)
    /\ generateRandomProgram 5 20 dup_draws (S j) = Ret (str ">>>>>", k)
    /\ fallback_body g (newPopulation s, uniqueCodes s) dup_draws j = Ret (s', k)
    /\ s'.1 = newPopulation s.
Proof.
  eexists _, _, _, _, _, _.
  split; [vm_compute; reflexivity|]. split; [vm_compute; reflexivity|].
  split; [vm_compute; reflexivity|]. split; [vm_compute; reflexivity|].
  split; [vm_compute; reflexivity|]. split; [vm_compute; reflexivity|].
  split; vm_compute; reflexivity.
Qed.

(** The same run with draws that differ once the duplicate is rejected: the
    second candidate of the fallback stage is fifteen times "-", which the
    new generation does not hold, and [evolve] returns with the slot filled. *)
Definition retry_draws : nat -> draw := fun n =>
  if 463 <=? Z.of_nat n then mkdraw 1 2 else dup_draws n.

Lemma retry_run :
  exists g i g' j,
    initialize 10 dup_ga retry_draws 0%nat = Ret (g, i)
    /\ evolve 10 g retry_draws i = Ret (g', j).
Proof.
  eexists _, _, _, _.
  split; [vm_compute; reflexivity | vm_compute; reflexivity].
Defined.

Example retry_fills_slot :
  exists g i g' j s i1,
    initialize 10 dup_ga retry_draws 0%nat = Ret (g, i)
    /\ evolve 10 g retry_draws i = Ret (g', j)
    /\ evolve_offspring g retry_draws i = Ret (s, i1)
    /\ code <$> newPopulation s = [str ">>>>>"]
    /\ generateRandomProgram 5 20 retry_draws (S i1) = Ret (str ">>>>>", 463%nat)
    /\ generateRandomProgram 15 20 retry_draws 464%nat
       = Ret (str "---------------", j)
    /\ code <$> population g' = [str ">>>>>"; str "---------------"].
Proof.
  eexists _, _, _, _, _, _.
  split; [vm_compute; reflexivity|]. split; [vm_compute; reflexivity|].
  split; [vm_compute; reflexivity|]. split; [vm_compute; reflexivity|].
  split; [vm_compute; reflexivity|]. split; [vm_compute; reflexivity|].
  vm_compute; reflexivity.
Qed.

Lemma attempts_bounded_fallback_unique_witness :
  exists g i g' j,
    initialize 10 dup_ga retry_draws 0%nat = Ret (g, i)
    /\ evolve 10 g retry_draws i = Ret (g', j)
    /\ exists s i1 f progs,
        evolve_offspring g retry_draws i = Ret (s, i1)
        /\ while 10 (fill_cond g) (fallback_body g)
             (newPopulation s, uniqueCodes s) retry_draws i1 = Ret (f, j)
        /\ f.1 = newPopulation s ++ (evaluateIndividual g <$> progs)
        /\ NoDup progs
        /\ (forall p, p ∈ progs ->
              (p ∉ uniqueCodes s) /\ (p ∉ code <$> newPopulation s)
              /\ exists k, fallback_candidate g retry_draws k p)
        /\ (populationSize (settings g) <= len (newPopulation s) -> progs = [])
        /\ (len (newPopulation s) < populationSize (settings g) ->
            len (newPopulation s) + len progs = populationSize (settings g))
        /\ population g'
           = sortPopulation (slice f.1 0 (populationSize (settings g)))
        /\ generation g' = generation g + 1.
Proof.
  destruct retry_run as (g & i & g' & j & E1 & E2).
  exists g, i, g', j. split; [exact E1|]. split; [exact E2|].
  exact (proj2 (proj2 (attempts_bounded_fallback_unique 10 g)) retry_draws i g' j E2).
Defined.

(** ** [initialize] without enough programs to draw *)

Lemma floor_mul_nonpos (r : Q) (n : Z) :
  (0 <= r /\ r < 1)%Q -> n <= 0 -> n <= floor_mul r n <= 0.
Proof.
  intros [H0 H1] Hn. unfold floor_mul.
  assert (Hn' : (inject_Z n <= 0)%Q) by (unfold Qle, inject_Z; cbn; lia).
  split.
  - rewrite <- (Qfloor_Z n) at 1. apply Qfloor_resp_le.
    apply Qle_trans with ((-r) * (- inject_Z n) + (1 - r) * inject_Z n)%Q.
    + assert (E : ((- r) * - inject_Z n + (1 - r) * inject_Z n == inject_Z n)%Q) by ring.
      rewrite E. apply Qle_refl.
    + assert (E : (r * inject_Z n == (- r) * - inject_Z n + 0)%Q) by ring.
      rewrite E. apply Qplus_le_r.
      assert (E' : ((1 - r) * inject_Z n == - ((1 - r) * - inject_Z n))%Q) by ring.
      rewrite E'. change 0%Q with (- 0)%Q. apply Qopp_le_compat.
      apply Qmult_le_0_compat.
      * apply Qlt_le_weak. rewrite <- (Qplus_opp_r r). apply Qplus_lt_l. exact H1.
      * change 0%Q with (- 0)%Q. now apply Qopp_le_compat.
  - change 0 with (Qfloor 0). apply Qfloor_resp_le.
    assert (E : (r * inject_Z n == - (r * - inject_Z n))%Q) by ring.
    rewrite E. change 0%Q with (- 0)%Q. apply Qopp_le_compat.
    apply Qmult_le_0_compat; [exact H0|].
    change 0%Q with (- 0)%Q. now apply Qopp_le_compat.
Qed.

(** The symbols a generated program can start with: all but the
    loop-close. *)
Definition starts : list jsstring := filter (fun cmd => cmd ≠ str "]") commands.

Lemma pick_in arr :
  arr <> [] -> returns (pick arr) (fun c => c ∈ arr).
Proof.
  intros Hne. unfold pick. draw_step. apply returns_ret.
  assert (Hl : 0 < len arr).
  { pose proof (len_nonneg arr). pose proof (len_zero arr).
    destruct (Z.eq_dec (len arr) 0); [tauto | lia]. }
  pose proof (floor_mul_range a (len arr) H Hl) as Hi.
  destruct (lookup_lt_is_Some_2 arr (Z.to_nat (floor_mul a (len arr)))) as [c Hc].
  { unfold len in *. lia. }
  rewrite Hc. cbn. eapply list_elem_of_lookup_2. exact Hc.
Qed.

Lemma generate_loop_prefix n : forall program depth,
  returns (generate_loop n program depth) (fun r => program `prefix_of` r.1).
Proof.
  induction n as [|n IH]; intros program depth; cbn [generate_loop].
  - now apply returns_ret.
  - eapply returns_bind; [apply pick_returns|]. intros command _.
    eapply returns_weaken; [apply IH|]. intros r Hr. cbn beta in Hr.
    eapply prefix_app_l. exact Hr.
Qed.

Lemma close_loop_prefix n : forall program depth maxLength,
  program `prefix_of` close_loop n program depth maxLength.
Proof.
  induction n as [|n IH]; intros program depth maxLength; cbn [close_loop].
  - reflexivity.
  - destruct (_ && _); [|reflexivity]. eapply prefix_app_l. apply IH.
Qed.

Lemma starts_single command : command ∈ starts -> exists c, command = [c].
Proof.
  intros H. vm_compute in H.
  repeat (apply elem_of_cons in H as [-> | H]; [eexists; reflexivity|]).
  now apply elem_of_nil in H.
Qed.

Lemma generate_loop_first n :
  returns (generate_loop (S n) [] 0)
    (fun r => exists c, [c] ∈ starts /\ [c] `prefix_of` r.1).
Proof.
  cbn [generate_loop].
  change (if 0 =? 0 then filter (fun cmd => cmd ≠ str "]") commands else commands)
    with starts.
  eapply returns_bind; [apply pick_in; discriminate|]. intros command Hc.
  destruct (starts_single command Hc) as [c ->].
  eapply returns_weaken; [apply generate_loop_prefix|].
  intros r Hr. exists c. split; [exact Hc | exact Hr].
Qed.

(** With [maxLength = 1] a generated program is its first symbol. *)
Lemma generate_one length :
  1 <= length -> returns (generateRandomProgram length 1) (fun p => p ∈ starts).
Proof.
  intros Hl. unfold generateRandomProgram.
  destruct (Z.to_nat length) as [|n] eqn:En; [lia|].
  eapply returns_bind; [apply generate_loop_first|].
  intros [program depth] (c & Hc & Hp). apply returns_ret. cbn [fst] in Hp.
  pose proof (close_loop_prefix (Z.to_nat depth) program depth 1) as Hq.
  destruct Hp as [rest ->]. destruct Hq as [rest' ->].
  rewrite <- app_assoc. cbn [app]. rewrite len_cons. unfold substring0. rewrite len_cons.
  pose proof (len_nonneg ((rest ++ rest'))) as Hr.
  destruct (1 <? len (rest ++ rest') + 1) eqn:E.
  - replace (Z.to_nat (Z.min (Z.max 1 0) (len (rest ++ rest') + 1))) with 1%nat by lia.
    exact Hc.
  - assert (E0 : rest ++ rest' = []) by (apply len_zero; lia).
    rewrite E0. exact Hc.
Qed.

Section Stuck.
Variable g : GeneticAlgorithm.
Hypothesis one_symbol : maxProgramLength (settings g) = 1.
Hypothesis many : 7 < populationSize (settings g).

(** The population holds distinct programs out of [starts]. *)
Definition stuck_inv (s : list Individual * gset jsstring) : Prop :=
  distinct s /\ forall c, c ∈ code <$> s.1 -> c ∈ starts.

Lemma stuck_inv_short s : stuck_inv s -> fill_cond g s = true.
Proof.
  intros [[Hnd _] Hin]. unfold fill_cond.
  pose proof (submseteq_length _ _ (NoDup_submseteq _ _ Hnd Hin)) as Hlen.
  rewrite length_fmap in Hlen. change (length starts) with 7%nat in Hlen.
  unfold len. lia.
Qed.

Lemma stuck_body s :
  stuck_inv s -> returns (initialize_body g s) stuck_inv.
Proof.
  intros [Hd Hin]. unfold initialize_body. rewrite one_symbol.
  draw_step. draw_step.
  eapply returns_bind.
  - apply generate_one.
    pose proof (floor_mul_range a0 11 H0 ltac:(lia)).
    pose proof (floor_mul_range a0 25 H0 ltac:(lia)).
    pose proof (floor_mul_nonpos a0 (Z.min 1 100 - 40) H0 ltac:(lia)).
    destruct (Qltb a (2 # 10)); [lia|]. destruct (Qltb a (8 # 10)); lia.
  - intros program Hp. apply returns_ret. split; [now apply add_unique_distinct|].
    destruct (add_unique_cases g program s) as [[_ ->] | [_ ->]]; [exact Hin|].
    cbn [fst]. intros c Hc. rewrite fmap_app in Hc.
    apply elem_of_app in Hc as [Hc | Hc]; [now apply Hin|].
    cbn in Hc. rewrite code_evaluate in Hc.
    apply list_elem_of_singleton in Hc. now subst c.
Qed.

Lemma stuck_loop fuel : forall s rnd i,
  stuck_inv s ->
  while fuel (fill_cond g) (initialize_body g) s rnd i = Timeout.
Proof.
  induction fuel as [|fuel IH]; intros s rnd i Hs; cbn [while];
    rewrite (stuck_inv_short s Hs); [reflexivity|].
  destruct (stuck_body s Hs rnd i) as (s' & j & E & Hs').
  unfold mbind, M_bind. rewrite E. now apply IH.
Qed.

End Stuck.

(** Eight individuals of at most one symbol. *)
Definition stuck_settings : GASettings :=
  {| populationSize := 8; mutationRate := 1 # 10; crossoverRate := 7 # 10;
     elitism := 1; maxGenerations := 10; maxProgramLength := 1 |}.

Definition stuck_ga : GeneticAlgorithm := new stuck_settings sample_cases [].

(** C7: [initialize] does not terminate on every input.  With
    [populationSize = 8] and [maxProgramLength = 1] the generator can return
    seven programs only, the seven symbols other than "]", so the filling
    loop [while (population.length < populationSize)] of [initialize], which
    counts no attempts, rejects every further candidate: whatever the draws
    and however many iterations are allowed, the call has not returned.
    (The offspring loop of [evolve] counts its attempts and ends on every
    input: [evolve_offspring_halts].) *)
Theorem stuck_ga_times_out fuel rnd i : initialize fuel stuck_ga rnd i = Timeout.
Proof.
  unfold initialize.
  change (seed_loop stuck_ga (seedGenomes stuck_ga) [] ∅ 0)
    with ([] : list Individual, ∅ : gset jsstring).
  unfold mbind, M_bind.
  rewrite (stuck_loop stuck_ga eq_refl eq_refl); [reflexivity|].
  split; [split|]; cbn [fst snd fmap list_fmap].
  - constructor.
  - intros c Hc. now apply elem_of_nil in Hc.
  - intros c Hc. now apply elem_of_nil in Hc.
Qed.

(** With the settings of the sample, too, some draws keep [initialize]
    going for ever: on the draws that are all zero every candidate is
    ">>>>>". *)
Lemma zeros_body i :
  initialize_body sample_ga
    (add_unique sample_ga (str ">>>>>") (seed_loop sample_ga (seedGenomes sample_ga) [] ∅ 0))
    zeros i
  = Ret (add_unique sample_ga (str ">>>>>")
           (seed_loop sample_ga (seedGenomes sample_ga) [] ∅ 0), (7 + i)%nat).
Proof. vm_compute. reflexivity. Qed.

Lemma zeros_loop fuel : forall i,
  while fuel (fill_cond sample_ga) (initialize_body sample_ga)
    (add_unique sample_ga (str ">>>>>") (seed_loop sample_ga (seedGenomes sample_ga) [] ∅ 0))
    zeros i = Timeout.
Proof.
  induction fuel as [|fuel IH]; intros i; cbn [while];
    change (fill_cond sample_ga
              (add_unique sample_ga (str ">>>>>")
                 (seed_loop sample_ga (seedGenomes sample_ga) [] ∅ 0))) with true;
    cbn match; [reflexivity|].
  unfold mbind, M_bind. rewrite zeros_body. apply IH.
Qed.

Example sample_ga_zeros_times_out fuel : initialize fuel sample_ga zeros 0%nat = Timeout.
Proof.
  unfold initialize. unfold mbind at 1, M_bind at 1.
  destruct fuel as [|fuel]; [vm_compute; reflexivity|].
  cbn [while].
  change (fill_cond sample_ga (seed_loop sample_ga (seedGenomes sample_ga) [] ∅ 0))
    with true. cbn match.
  unfold mbind, M_bind.
  replace (initialize_body sample_ga
             (seed_loop sample_ga (seedGenomes sample_ga) [] ∅ 0) zeros 0%nat)
    with (Ret (add_unique sample_ga (str ">>>>>")
                 (seed_loop sample_ga (seedGenomes sample_ga) [] ∅ 0), 7%nat))
    by (vm_compute; reflexivity).
  now rewrite zeros_loop.
Qed.

(** ** [evolve] without a new program to draw

    The fallback loop of [evolve] counts no attempts either.  From the
    population of two above, on the draws that are all zero, the offspring
    stage uses up its attempts on the program of the elite, and every
    candidate of the fallback stage is that program again: [evolve] does not
    return. *)
Definition dup_start : GeneticAlgorithm :=
  match initialize 10 dup_ga dup_draws 0%nat with
  | Ret (g, _) => g
  | _ => dup_ga
  end.

Definition dup_short : list Individual * gset jsstring :=
  match evolve_offspring dup_start zeros 0%nat with
  | Ret (s, _) => (newPopulation s, uniqueCodes s)
  | _ => ([], ∅)
  end.

Lemma dup_offspring_run :
  exists s j, evolve_offspring dup_start zeros 0%nat = Ret (s, j)
    /\ (newPopulation s, uniqueCodes s) = dup_short
    /\ code <$> newPopulation s = [str ">>>>>"]
    /\ attempts s = maxAttempts dup_start.
Proof.
  eexists _, _. split; [vm_compute; reflexivity|].
  split; [vm_compute; reflexivity|]. split; [vm_compute; reflexivity|].
  vm_compute; reflexivity.
Qed.

Lemma dup_fallback_zeros i :
  fallback_body dup_start dup_short zeros i = Ret (dup_short, (6 + i)%nat).
Proof. vm_compute. reflexivity. Qed.

Lemma dup_fallback_loop fuel : forall i,
  while fuel (fill_cond dup_start) (fallback_body dup_start) dup_short zeros i = Timeout.
Proof.
  induction fuel as [|fuel IH]; intros i; cbn [while];
    change (fill_cond dup_start dup_short) with true; cbn match; [reflexivity|].
  unfold mbind, M_bind. rewrite dup_fallback_zeros. apply IH.
Qed.

Example evolve_zeros_times_out :
  exists i, initialize 10 dup_ga dup_draws 0%nat = Ret (dup_start, i)
    /\ forall fuel, evolve fuel dup_start zeros 0%nat = Timeout.
Proof.
  eexists. split; [vm_compute; reflexivity|]. intros fuel.
  destruct dup_offspring_run as (s & j & E & Es & _).
  unfold evolve. unfold mbind at 1, M_bind at 1. rewrite E.
  unfold mbind at 1, M_bind at 1. rewrite Es, dup_fallback_loop. reflexivity.
Qed.

End GAFacts.

(** ** Rounding to binary64 *)

Module F64Facts.
Import GA GAFacts F64.
Local Open Scope Q_scope.

Lemma pow2_pos e : 0 < pow2 e.
Proof. apply Qpower_0_lt. reflexivity. Qed.

Lemma pow2_le a b : (a <= b)%Z -> pow2 a <= pow2 b.
Proof. intros H. apply Qpower_le_compat_l; [exact H | discriminate]. Qed.

Lemma pow2_lt_inv a b : pow2 a < pow2 b -> (a < b)%Z.
Proof. intros H. apply (Qpower_lt_compat_l_inv 2); [exact H | reflexivity]. Qed.

Lemma pow2_add a b : pow2 (a + b) == pow2 a * pow2 b.
Proof. apply Qpower_plus. discriminate. Qed.

Lemma pow2_Z n : (0 <= n)%Z -> pow2 n == inject_Z (2 ^ n).
Proof. intros H. symmetry. apply (Zpower_Qpower 2 n H). Qed.

Lemma pow2_sub a b : pow2 (a - b) == pow2 a / pow2 b.
Proof. apply Qpower_minus. discriminate. Qed.

Lemma inject_Z_pos z : (0 < z)%Z -> 0 < inject_Z z.
Proof. intros H. unfold Qlt. cbn [Qnum Qden inject_Z]. lia. Qed.

Lemma exponent_spec x :
  ~ x == 0 -> pow2 (exponent x) <= Qabs x /\ Qabs x < pow2 (exponent x + 1).
Proof.
  intros Hx. unfold exponent.
  assert (Eabs : Qabs x = Z.abs (Qnum x) # Qden x) by (destruct x; reflexivity).
  assert (Ha : (0 < Z.abs (Qnum x))%Z).
  { destruct x as [n d]. unfold Qeq in Hx. cbn in *. lia. }
  destruct (Z.log2_spec _ Ha) as [La Ua].
  destruct (Z.log2_spec (Z.pos (Qden x)) eq_refl) as [Ld Ud].
  pose proof (Z.log2_nonneg (Z.abs (Qnum x))) as Hla.
  pose proof (Z.log2_nonneg (Z.pos (Qden x))) as Hld.
  set (a := Z.abs (Qnum x)) in *. set (la := Z.log2 a) in *.
  set (ld := Z.log2 (Z.pos (Qden x))) in *.
  assert (Hpa : (0 < 2 ^ la)%Z) by (apply Z.pow_pos_nonneg; lia).
  assert (Hpd : (0 < 2 ^ ld)%Z) by (apply Z.pow_pos_nonneg; lia).
  assert (Hup : Qabs x < pow2 (la - ld + 1)).
  { replace (la - ld + 1)%Z with (Z.succ la - ld)%Z by lia.
    rewrite pow2_sub, !pow2_Z by lia. apply Qlt_shift_div_l.
    - apply inject_Z_pos. lia.
    - rewrite Eabs. unfold Qlt, Qmult, inject_Z. cbn [Qnum Qden].
      rewrite Pos.mul_1_r, Z.mul_1_r. nia. }
  assert (Hlo : pow2 (la - ld - 1) <= Qabs x).
  { replace (la - ld - 1)%Z with (la - Z.succ ld)%Z by lia.
    rewrite pow2_sub, !pow2_Z by lia. apply Qle_shift_div_r.
    - apply inject_Z_pos. lia.
    - rewrite Eabs. unfold Qle, Qmult, inject_Z. cbn [Qnum Qden].
      rewrite Pos.mul_1_r, Z.mul_1_r. nia. }
  destruct (Qle_bool (pow2 (la - ld)) (Qabs x)) eqn:E.
  - apply Qle_bool_iff in E. split; [exact E | exact Hup].
  - split; [exact Hlo|]. replace (la - ld - 1 + 1)%Z with (la - ld)%Z by lia.
    apply Qnot_le_lt. intros H. apply Qle_bool_iff in H. congruence.
Qed.

Lemma nearest_even_bounds q : (Qfloor q <= nearest_even q <= Qfloor q + 1)%Z.
Proof.
  unfold nearest_even. destruct (_ ?= _); [destruct (Z.even _)| |]; lia.
Qed.

Lemma nearest_even_le x y : x <= y -> (nearest_even x <= nearest_even y)%Z.
Proof.
  intros Hxy. pose proof (Qfloor_resp_le x y Hxy) as Hf.
  pose proof (nearest_even_bounds x) as Bx. pose proof (nearest_even_bounds y) as By.
  destruct (Z.eq_dec (Qfloor x) (Qfloor y)) as [E | N]; [|lia].
  unfold nearest_even in *. rewrite <- E in *. clear Bx By Hf.
  assert (Hr : x - inject_Z (Qfloor x) <= y - inject_Z (Qfloor x)).
  { apply Qplus_le_l. exact Hxy. }
  destruct (x - inject_Z (Qfloor x) ?= 1 # 2) eqn:Cx;
    destruct (y - inject_Z (Qfloor x) ?= 1 # 2) eqn:Cy;
    try (destruct (Z.even (Qfloor x)); lia); exfalso.
  - apply Qeq_alt in Cx. apply Qlt_alt in Cy.
    apply (Qlt_irrefl (1 # 2)). eapply Qle_lt_trans; [|exact Cy].
    eapply Qle_trans; [|exact Hr]. rewrite Cx. apply Qle_refl.
  - apply Qgt_alt in Cx. apply Qeq_alt in Cy.
    apply (Qlt_irrefl (1 # 2)). eapply Qlt_le_trans; [exact Cx|].
    eapply Qle_trans; [exact Hr|]. rewrite Cy. apply Qle_refl.
  - apply Qgt_alt in Cx. apply Qlt_alt in Cy.
    apply (Qlt_irrefl (1 # 2)). eapply Qlt_le_trans; [exact Cx|].
    eapply Qle_trans; [exact Hr|]. apply Qlt_le_weak, Cy.
Qed.

Lemma nearest_even_Z k : nearest_even (inject_Z k) = k.
Proof.
  unfold nearest_even. rewrite Qfloor_Z.
  assert (E : (inject_Z k - inject_Z k ?= 1 # 2) = Lt).
  { apply Qlt_alt. assert (E0 : inject_Z k - inject_Z k == 0) by ring.
    rewrite E0. reflexivity. }
  rewrite E. reflexivity.
Qed.


Lemma round_zero x : x == 0 -> round x = 0.
Proof.
  intros H. unfold round. apply Qeq_bool_iff in H. rewrite H. reflexivity.
Qed.

Lemma round_nonzero x :
  ~ x == 0 ->
  round x == inject_Z (nearest_even (x / pow2 (exponent x - 52))) * pow2 (exponent x - 52).
Proof.
  intros H. unfold round. destruct (Qeq_bool x 0) eqn:E.
  - apply Qeq_bool_iff in E. contradiction.
  - apply Qred_correct.
Qed.

Lemma pow2_scale k e : pow2 k * pow2 (e - 52) == pow2 (e + (k - 52)).
Proof.
  rewrite <- pow2_add. replace (k + (e - 52))%Z with (e + (k - 52))%Z by lia.
  reflexivity.
Qed.

(** The significand of a number other than 0 has 53 bits. *)
Lemma significand_pos x :
  0 < x ->
  (2 ^ 52 <= nearest_even (x / pow2 (exponent x - 52)) <= 2 ^ 53)%Z.
Proof.
  intros Hx.
  assert (Hn : ~ x == 0) by (intros E; rewrite E in Hx; discriminate).
  destruct (exponent_spec x Hn) as [Lo Hi].
  rewrite (Qabs_pos x (Qlt_le_weak _ _ Hx)) in Lo, Hi.
  pose proof (pow2_pos (exponent x - 52)) as Hu.
  split.
  - rewrite <- (nearest_even_Z (2 ^ 52)). apply nearest_even_le.
    apply Qle_shift_div_l; [exact Hu|].
    rewrite <- pow2_Z by lia. rewrite pow2_scale.
    replace (exponent x + (52 - 52))%Z with (exponent x) by lia. exact Lo.
  - rewrite <- (nearest_even_Z (2 ^ 53)). apply nearest_even_le.
    apply Qle_shift_div_r; [exact Hu|].
    rewrite <- pow2_Z by lia. rewrite pow2_scale.
    replace (exponent x + (53 - 52))%Z with (exponent x + 1)%Z by lia.
    apply Qlt_le_weak, Hi.
Qed.

Lemma significand_neg x :
  x < 0 ->
  (- 2 ^ 53 <= nearest_even (x / pow2 (exponent x - 52)) <= - 2 ^ 52)%Z.
Proof.
  intros Hx.
  assert (Hn : ~ x == 0) by (intros E; rewrite E in Hx; discriminate).
  destruct (exponent_spec x Hn) as [Lo Hi].
  rewrite (Qabs_neg x (Qlt_le_weak _ _ Hx)) in Lo, Hi.
  pose proof (pow2_pos (exponent x - 52)) as Hu.
  split.
  - rewrite <- (nearest_even_Z (- 2 ^ 53)). apply nearest_even_le.
    apply Qle_shift_div_l; [exact Hu|].
    rewrite inject_Z_opp, <- pow2_Z by lia.
    assert (E : - pow2 53 * pow2 (exponent x - 52) == - (pow2 53 * pow2 (exponent x - 52)))
      by ring.
    rewrite E, pow2_scale.
    replace (exponent x + (53 - 52))%Z with (exponent x + 1)%Z by lia.
    apply Qlt_le_weak. apply Qopp_lt_compat in Hi.
    assert (E' : - - x == x) by ring. rewrite E' in Hi. exact Hi.
  - rewrite <- (nearest_even_Z (- 2 ^ 52)). apply nearest_even_le.
    apply Qle_shift_div_r; [exact Hu|].
    rewrite inject_Z_opp, <- pow2_Z by lia.
    assert (E : - pow2 52 * pow2 (exponent x - 52) == - (pow2 52 * pow2 (exponent x - 52)))
      by ring.
    rewrite E, pow2_scale.
    replace (exponent x + (52 - 52))%Z with (exponent x) by lia.
    apply Qopp_le_compat in Lo.
    assert (E' : - - x == x) by ring. rewrite E' in Lo. exact Lo.
Qed.

Lemma Zle_Qmult (a b : Z) (u : Q) :
  (a <= b)%Z -> 0 < u -> inject_Z a * u <= inject_Z b * u.
Proof.
  intros H Hu. apply Qmult_le_compat_r; [|apply Qlt_le_weak, Hu].
  rewrite <- Zle_Qle. exact H.
Qed.

Lemma round_pos x :
  0 < x -> pow2 (exponent x) <= round x <= pow2 (exponent x + 1).
Proof.
  intros Hx.
  assert (Hn : ~ x == 0) by (intros E; rewrite E in Hx; discriminate).
  destruct (significand_pos x Hx) as [Lo Hi].
  pose proof (pow2_pos (exponent x - 52)) as Hu.
  rewrite (round_nonzero x Hn). split.
  - eapply Qle_trans; [|apply (Zle_Qmult _ _ _ Lo Hu)].
    rewrite <- pow2_Z by lia. rewrite pow2_scale.
    replace (exponent x + (52 - 52))%Z with (exponent x) by lia. apply Qle_refl.
  - eapply Qle_trans; [apply (Zle_Qmult _ _ _ Hi Hu)|].
    rewrite <- pow2_Z by lia. rewrite pow2_scale.
    replace (exponent x + (53 - 52))%Z with (exponent x + 1)%Z by lia. apply Qle_refl.
Qed.

Lemma round_neg x :
  x < 0 -> - pow2 (exponent x + 1) <= round x <= - pow2 (exponent x).
Proof.
  intros Hx.
  assert (Hn : ~ x == 0) by (intros E; rewrite E in Hx; discriminate).
  destruct (significand_neg x Hx) as [Lo Hi].
  pose proof (pow2_pos (exponent x - 52)) as Hu.
  rewrite (round_nonzero x Hn). split.
  - eapply Qle_trans; [|apply (Zle_Qmult _ _ _ Lo Hu)].
    rewrite inject_Z_opp, <- pow2_Z by lia.
    assert (E : - pow2 53 * pow2 (exponent x - 52) == - (pow2 53 * pow2 (exponent x - 52)))
      by ring.
    rewrite E, pow2_scale.
    replace (exponent x + (53 - 52))%Z with (exponent x + 1)%Z by lia. apply Qle_refl.
  - eapply Qle_trans; [apply (Zle_Qmult _ _ _ Hi Hu)|].
    rewrite inject_Z_opp, <- pow2_Z by lia.
    assert (E : - pow2 52 * pow2 (exponent x - 52) == - (pow2 52 * pow2 (exponent x - 52)))
      by ring.
    rewrite E, pow2_scale.
    replace (exponent x + (52 - 52))%Z with (exponent x) by lia. apply Qle_refl.
Qed.

Lemma exponent_le x y :
  ~ x == 0 -> ~ y == 0 -> Qabs x <= Qabs y -> (exponent x <= exponent y)%Z.
Proof.
  intros Hx Hy H.
  destruct (exponent_spec x Hx) as [Lx _]. destruct (exponent_spec y Hy) as [_ Uy].
  assert (Hlt : pow2 (exponent x) < pow2 (exponent y + 1)).
  { eapply Qle_lt_trans; [exact Lx|]. eapply Qle_lt_trans; [exact H | exact Uy]. }
  apply pow2_lt_inv in Hlt. lia.
Qed.

Lemma round_same_exponent x y :
  ~ x == 0 -> ~ y == 0 -> exponent x = exponent y -> x <= y -> round x <= round y.
Proof.
  intros Hx Hy E H. rewrite (round_nonzero x Hx), (round_nonzero y Hy), E.
  pose proof (pow2_pos (exponent y - 52)) as Hu.
  apply Zle_Qmult; [|exact Hu]. apply nearest_even_le.
  apply Qmult_le_compat_r; [exact H|]. apply Qlt_le_weak, Qinv_lt_0_compat, Hu.
Qed.

(** Rounding keeps the order. *)
Lemma round_le x y : x <= y -> round x <= round y.
Proof.
  intros H.
  destruct (Q_dec x 0) as [[Hx | Hx] | Hx]; destruct (Q_dec y 0) as [[Hy | Hy] | Hy].
  - (* both negative *)
    assert (Hnx : ~ x == 0) by (intros E; rewrite E in Hx; discriminate).
    assert (Hny : ~ y == 0) by (intros E; rewrite E in Hy; discriminate).
    assert (Ha : Qabs y <= Qabs x).
    { rewrite (Qabs_neg x), (Qabs_neg y) by (apply Qlt_le_weak; assumption).
      apply Qopp_le_compat, H. }
    pose proof (exponent_le y x Hny Hnx Ha) as He.
    destruct (Z.eq_dec (exponent x) (exponent y)) as [E | N].
    + now apply round_same_exponent.
    + destruct (round_neg x Hx) as [_ Ux]. destruct (round_neg y Hy) as [Ly _].
      eapply Qle_trans; [exact Ux|]. eapply Qle_trans; [|exact Ly].
      apply Qopp_le_compat, pow2_le. lia.
  - destruct (round_neg x Hx) as [_ Ux]. destruct (round_pos y Hy) as [Ly _].
    eapply Qle_trans; [exact Ux|]. eapply Qle_trans; [|exact Ly].
    eapply Qle_trans; [apply (Qopp_le_compat 0), Qlt_le_weak, pow2_pos|].
    apply Qlt_le_weak, pow2_pos.
  - rewrite (round_zero y Hy). destruct (round_neg x Hx) as [_ Ux].
    eapply Qle_trans; [exact Ux|].
    apply (Qopp_le_compat 0), Qlt_le_weak, pow2_pos.
  - exfalso. apply (Qlt_irrefl 0).
    eapply Qlt_trans; [|exact Hy]. eapply Qlt_le_trans; [exact Hx | exact H].
  - (* both positive *)
    assert (Hnx : ~ x == 0) by (intros E; rewrite E in Hx; discriminate).
    assert (Hny : ~ y == 0) by (intros E; rewrite E in Hy; discriminate).
    assert (Ha : Qabs x <= Qabs y).
    { rewrite (Qabs_pos x), (Qabs_pos y) by (apply Qlt_le_weak; assumption). exact H. }
    pose proof (exponent_le x y Hnx Hny Ha) as He.
    destruct (Z.eq_dec (exponent x) (exponent y)) as [E | N].
    + now apply round_same_exponent.
    + destruct (round_pos x Hx) as [_ Ux]. destruct (round_pos y Hy) as [Ly _].
      eapply Qle_trans; [exact Ux|]. eapply Qle_trans; [|exact Ly].
      apply pow2_le. lia.
  - exfalso. apply (Qlt_irrefl 0).
    eapply Qlt_le_trans; [exact Hx|]. rewrite <- Hy. exact H.
  - exfalso. apply (Qlt_irrefl 0).
    eapply Qle_lt_trans; [|exact Hy]. rewrite <- Hx. exact H.
  - rewrite (round_zero x Hx). destruct (round_pos y Hy) as [Ly _].
    eapply Qle_trans; [|exact Ly]. apply Qlt_le_weak, pow2_pos.
  - rewrite (round_zero x Hx), (round_zero y Hy). apply Qle_refl.
Qed.

Lemma round_eq x y : x == y -> round x == round y.
Proof.
  intros E. apply Qle_antisym; apply round_le; rewrite E; apply Qle_refl.
Qed.


(** Rounding moves a number by half a unit of its last place at most. *)
Lemma nearest_even_near q : Qabs (inject_Z (nearest_even q) - q) <= 1 # 2.
Proof.
  pose proof (Qfloor_le q) as Lo. pose proof (Qlt_floor q) as Hi.
  rewrite inject_Z_plus in Hi. change (inject_Z 1) with 1 in Hi.
  apply Qabs_Qle_condition. unfold nearest_even.
  destruct (q - inject_Z (Qfloor q) ?= 1 # 2) eqn:C.
  - apply Qeq_alt in C.
    destruct (Z.even _); rewrite ?inject_Z_plus; change (inject_Z 1) with 1; lra.
  - apply Qlt_alt in C. lra.
  - apply Qgt_alt in C. rewrite inject_Z_plus. change (inject_Z 1) with 1. lra.
Qed.

Lemma round_near x : ~ x == 0 -> Qabs (round x - x) <= pow2 (exponent x - 53).
Proof.
  intros Hx. pose proof (pow2_pos (exponent x - 52)) as Hu.
  pose proof (nearest_even_near (x / pow2 (exponent x - 52))) as Hn.
  assert (Eu : pow2 (exponent x - 53) == (1 # 2) * pow2 (exponent x - 52)).
  { replace (exponent x - 53)%Z with (-1 + (exponent x - 52))%Z by lia.
    rewrite pow2_add. reflexivity. }
  assert (Ex : round x - x
               == (inject_Z (nearest_even (x / pow2 (exponent x - 52)))
                   - x / pow2 (exponent x - 52)) * pow2 (exponent x - 52)).
  { rewrite (round_nonzero x Hx). field. intros E. rewrite E in Hu. discriminate. }
  rewrite Ex, Eu, Qabs_Qmult, (Qabs_pos (pow2 _)) by (apply Qlt_le_weak, Hu).
  apply Qmult_le_compat_r; [exact Hn | apply Qlt_le_weak, Hu].
Qed.

(** A number of magnitude [2^k] at most moves by [2^(k - 53)] at most. *)
Lemma round_near_le x k : Qabs x <= pow2 k -> Qabs (round x - x) <= pow2 (k - 53).
Proof.
  intros H. destruct (Qeq_dec x 0) as [E | N].
  - rewrite (round_zero x E). assert (E0 : 0 - x == 0) by (rewrite E; ring).
    rewrite E0. apply Qlt_le_weak, pow2_pos.
  - eapply Qle_trans; [apply (round_near x N)|]. apply pow2_le.
    destruct (exponent_spec x N) as [Lo _].
    assert (Hle : pow2 (exponent x) <= pow2 k) by (eapply Qle_trans; eassumption).
    apply (Qpower_le_compat_l_inv 2) in Hle; [lia | reflexivity].
Qed.

(** The numbers 1 and 100 are binary64 values, and [0.1] is positive. *)
Lemma round_le_1 x : x <= 1 -> round x <= 1.
Proof.
  intros H. eapply Qle_trans; [apply round_le, H|]. vm_compute. discriminate.
Qed.

Lemma round_le_100 x : x <= 100 -> round x <= 100.
Proof.
  intros H. eapply Qle_trans; [apply round_le, H|]. vm_compute. discriminate.
Qed.

Lemma lit_0_1_pos : 0 < lit_0_1.
Proof. vm_compute. reflexivity. Qed.

Lemma round_nonneg x : 0 <= x -> 0 <= round x.
Proof. intros H. rewrite <- (round_zero 0) by reflexivity. now apply round_le. Qed.

(** ** Evaluation of one individual, in double precision *)

(** The words of the specification, each operation rounded: 100 times the
    passed fraction, 0 for no cases; and the fitness. *)
Definition spec_accuracy_f64 (program : jsstring) (cases : list TestCase) : Q :=
  match cases with
  | [] => 0
  | _ => mul 100 (div (inject_Z (passed_count program cases)) (inject_Z (len cases)))
  end.

Definition spec_fitness_f64 (program : jsstring) (trainAcc : Q) : Q :=
  Qmax 0 (sub trainAcc (Qmin (mul (inject_Z (len program)) lit_0_1) 5)).

Lemma accuracy_of_spec program cases :
  F64.accuracy_of (passed_count program cases) cases == spec_accuracy_f64 program cases.
Proof.
  unfold F64.accuracy_of, spec_accuracy_f64. destruct cases as [|tc cases].
  - reflexivity.
  - replace (0 <? len (tc :: cases))%Z with true
      by (pose proof (len_nonneg cases); rewrite len_cons; lia).
    unfold mul. apply round_eq. apply Qmult_comm.
Qed.

Lemma accuracy_of_range n cases :
  (0 <= n <= len cases)%Z -> 0 <= F64.accuracy_of n cases /\ F64.accuracy_of n cases <= 100.
Proof.
  intros Hn. unfold F64.accuracy_of. destruct (0 <? len cases)%Z eqn:E.
  - assert (Hpos : 0 < inject_Z (len cases)) by (apply inject_Z_pos; lia).
    assert (H0 : 0 <= div (inject_Z n) (inject_Z (len cases))).
    { apply round_nonneg. apply Qle_shift_div_l; [exact Hpos|]. rewrite Qmult_0_l.
      change 0 with (inject_Z 0). rewrite <- Zle_Qle. lia. }
    assert (H1 : div (inject_Z n) (inject_Z (len cases)) <= 1).
    { apply round_le_1.
      apply Qle_shift_div_r; [exact Hpos|]. rewrite Qmult_1_l.
      rewrite <- Zle_Qle. lia. }
    unfold mul. split.
    + apply round_nonneg. apply Qmult_le_0_compat; [exact H0 | discriminate].
    + apply round_le_100.
      apply Qle_trans with (1 * 100); [|discriminate].
      apply Qmult_le_compat_r; [exact H1 | discriminate].
  - split; discriminate.
Qed.

(** The rounded accuracy is within [2^-45] of the exact quotient. *)
Lemma accuracy_of_near n cases :
  (0 <= n <= len cases)%Z -> (0 < len cases)%Z ->
  Qabs (F64.accuracy_of n cases - 100 * (inject_Z n / inject_Z (len cases))) <= pow2 (-45).
Proof.
  intros Hn Hl. unfold F64.accuracy_of. replace (0 <? len cases)%Z with true by lia.
  unfold mul, div.
  assert (Hpos : 0 < inject_Z (len cases)) by (apply inject_Z_pos; lia).
  set (x := inject_Z n / inject_Z (len cases)).
  assert (Hx0 : 0 <= x).
  { apply Qle_shift_div_l; [exact Hpos|]. rewrite Qmult_0_l.
    change 0 with (inject_Z 0). rewrite <- Zle_Qle. lia. }
  assert (Hx1 : x <= 1).
  { apply Qle_shift_div_r; [exact Hpos|]. rewrite Qmult_1_l. rewrite <- Zle_Qle. lia. }
  pose proof (round_nonneg x Hx0) as Hq0. pose proof (round_le_1 x Hx1) as Hq1.
  assert (H1 : Qabs (round x - x) <= pow2 (0 - 53)).
  { apply round_near_le. apply Qabs_Qle_condition. change (pow2 0) with 1. lra. }
  assert (H2 : Qabs (round (round x * 100) - round x * 100) <= pow2 (7 - 53)).
  { apply round_near_le. apply Qabs_Qle_condition. change (pow2 7) with 128. lra. }
  apply Qabs_Qle_condition in H1, H2. apply Qabs_Qle_condition.
  change (pow2 (0 - 53)) with (1 # 9007199254740992) in H1.
  change (pow2 (7 - 53)) with (1 # 70368744177664) in H2.
  change (pow2 (-45)) with (1 # 35184372088832).
  lra.
Qed.

Lemma penalty_nonneg (program : jsstring) :
  0 <= Qmin (mul (inject_Z (len program)) lit_0_1) 5.
Proof.
  apply Q.min_glb; [|discriminate].
  apply round_nonneg. apply Qmult_le_0_compat; [|apply Qlt_le_weak, lit_0_1_pos].
  pose proof (len_nonneg program).
  change 0 with (inject_Z 0). rewrite <- Zle_Qle. lia.
Qed.

Lemma spec_fitness_f64_range program acc :
  0 <= acc /\ acc <= 100 ->
  0 <= spec_fitness_f64 program acc /\ spec_fitness_f64 program acc <= 100.
Proof.
  intros [H0 H1]. unfold spec_fitness_f64. split; [apply Q.le_max_l|].
  apply Q.max_lub; [discriminate|].
  pose proof (penalty_nonneg program) as Hp.
  unfold sub. apply round_le_100.
  apply Qle_trans with (acc - 0).
  - apply Qplus_le_r. apply Qopp_le_compat. exact Hp.
  - assert (E : acc - 0 == acc) by ring. rewrite E. exact H1.
Qed.

Lemma evaluate_fields_f64 g program :
  let ind := F64.evaluateIndividual g program in
  trainAccuracy ind
  = Some (F64.accuracy_of (passed_count program (trainCases g)) (trainCases g))
  /\ testAccuracy ind
     = Some (F64.accuracy_of (passed_count program (testCases g)) (testCases g))
  /\ fitness ind
     = spec_fitness_f64 program
         (F64.accuracy_of (passed_count program (trainCases g)) (trainCases g)).
Proof.
  unfold F64.evaluateIndividual.
  pose proof (run_cases_count program (trainCases g) [] [] 0) as Htr.
  pose proof (run_cases_count program (testCases g) [] [] 0) as Hte.
  destruct (run_cases program (trainCases g) [] [] 0) as [[r1 o1] p1].
  destruct (run_cases program (testCases g) [] [] 0) as [[r2 o2] p2].
  cbn [snd] in Htr, Hte. rewrite Z.add_0_l in Htr, Hte. subst p1 p2.
  cbn. repeat split; reflexivity.
Qed.

Lemma accuracy_of_near_exact program cases :
  Qabs (F64.accuracy_of (passed_count program cases) cases
        - GAFacts.spec_accuracy program cases) <= pow2 (-45).
Proof.
  destruct cases as [|tc cases]; [vm_compute; discriminate|].
  apply accuracy_of_near; [apply passed_count_range|].
  pose proof (len_nonneg cases). rewrite len_cons. lia.
Qed.

(** C3: the individual produced by the evaluation, in the arithmetic of the
    code, has [trainAccuracy = 100 * (passed / total)] over the train cases
    and 0 for none, [testAccuracy] likewise over the test cases,
    [fitness = max 0 (trainAccuracy - min (length * 0.1) 5)], and a fitness
    between 0 and 100.  The quotient, the products and the difference are
    the rounded ones of binary64; the two accuracies are within [2^-45] of
    the exact value of [100 * passed / total]. *)
Theorem evaluate_spec (g : GeneticAlgorithm) (program : jsstring) :
  let ind := F64.evaluateIndividual g program in
  exists trainAcc testAcc,
    trainAccuracy ind = Some trainAcc
    /\ testAccuracy ind = Some testAcc
    /\ trainAcc == spec_accuracy_f64 program (trainCases g)
    /\ testAcc == spec_accuracy_f64 program (testCases g)
    /\ Qabs (trainAcc - GAFacts.spec_accuracy program (trainCases g)) <= pow2 (-45)
    /\ Qabs (testAcc - GAFacts.spec_accuracy program (testCases g)) <= pow2 (-45)
    /\ fitness ind
       = Qmax 0 (sub trainAcc (Qmin (mul (inject_Z (len program)) lit_0_1) 5))
    /\ (0 <= fitness ind /\ fitness ind <= 100).
Proof.
  intros ind. destruct (evaluate_fields_f64 g program) as (Htr & Hte & Hfit).
  fold ind in Htr, Hte, Hfit.
  eexists _, _. split; [exact Htr|]. split; [exact Hte|].
  split; [apply accuracy_of_spec|]. split; [apply accuracy_of_spec|].
  split; [apply accuracy_of_near_exact|]. split; [apply accuracy_of_near_exact|].
  split; [exact Hfit|]. rewrite Hfit.
  apply spec_fitness_f64_range, accuracy_of_range, passed_count_range.
Qed.

(** The test [trainAccuracy === 100] of [hasPerfectSolution] is as good in
    binary64 as it is on exact numbers: with fewer than [2^53] cases the
    rounded accuracy is 100 only when every case has passed. *)
Lemma accuracy_perfect n cases :
  (0 <= n <= len cases)%Z -> (len cases < 2 ^ 53)%Z ->
  F64.accuracy_of n cases == 100 -> n = len cases /\ cases <> [].
Proof.
  intros Hn Hl. unfold F64.accuracy_of. destruct (0 <? len cases)%Z eqn:E.
  - intros H. split; [|intros ->; discriminate].
    destruct (Z.eq_dec n (len cases)) as [-> | N]; [reflexivity|]. exfalso.
    assert (Hpos : 0 < inject_Z (len cases)) by (apply inject_Z_pos; lia).
    assert (Hq : inject_Z n / inject_Z (len cases) <= 1 - pow2 (-53)).
    { apply Qle_shift_div_r; [exact Hpos|].
      apply Qle_trans with (inject_Z (len cases - 1)); [rewrite <- Zle_Qle; lia|].
      apply Qle_trans with (inject_Z (len cases) - 1).
      - unfold Z.sub. rewrite inject_Z_plus. apply Qle_refl.
      - assert (Hb : inject_Z (len cases) * pow2 (-53) <= 1).
        { apply Qle_trans with (inject_Z (2 ^ 53) * pow2 (-53));
            [|vm_compute; discriminate].
          apply Qmult_le_compat_r; [|apply Qlt_le_weak, pow2_pos].
          rewrite <- Zle_Qle. lia. }
        lra. }
    apply round_le in Hq. fold (div (inject_Z n) (inject_Z (len cases))) in Hq.
    assert (E1 : round (1 - pow2 (-53)) == 1 - pow2 (-53)) by (vm_compute; reflexivity).
    rewrite E1 in Hq.
    assert (Hy : div (inject_Z n) (inject_Z (len cases)) * 100
                 <= 100 - 100 * pow2 (-53)) by lra.
    apply round_le in Hy. fold (mul (div (inject_Z n) (inject_Z (len cases))) 100) in Hy.
    assert (E2 : round (100 - 100 * pow2 (-53)) == 100 - pow2 (-46))
      by (vm_compute; reflexivity).
    rewrite E2, H in Hy. revert Hy. vm_compute. intros Hy. now apply Hy.
  - intros H. discriminate.
Qed.

(** ** The exponent range

    [round] has no bound on the exponent, so it is the rounding of binary64
    on the numbers that are 0 or of a magnitude from [2^-1022] to [2^1024]
    (not reached).  With fewer than [2^32] cases and fewer than [2^53]
    symbols, as arrays and strings have, the exact results that
    [evaluateIndividual] rounds are all in this range. *)
Definition in_range (x : Q) : Prop :=
  x == 0 \/ (pow2 (-1022) <= Qabs x /\ Qabs x < pow2 1024).

(** The values of binary64 at or above [2^k] in magnitude are multiples of
    [2^(k - 52)]. *)
Definition on_grid (k : Z) (x : Q) : Prop :=
  exists m : Z, x == inject_Z m * pow2 (k - 52).

Lemma round_on_grid k x : pow2 k <= Qabs x -> on_grid k (round x).
Proof.
  intros H.
  assert (Hn : ~ x == 0).
  { intros E. rewrite E in H. apply (Qlt_irrefl 0).
    eapply Qlt_le_trans; [apply (pow2_pos k) | exact H]. }
  destruct (exponent_spec x Hn) as [_ Hi].
  assert (He : (k <= exponent x)%Z).
  { assert (Hlt : pow2 k < pow2 (exponent x + 1)) by (eapply Qle_lt_trans; eassumption).
    apply pow2_lt_inv in Hlt. lia. }
  exists (nearest_even (x / pow2 (exponent x - 52)) * 2 ^ (exponent x - k))%Z.
  rewrite (round_nonzero x Hn), inject_Z_mult, <- pow2_Z by lia.
  replace (exponent x - 52)%Z with ((exponent x - k) + (k - 52))%Z at 2 by lia.
  rewrite pow2_add. ring.
Qed.

Lemma on_grid_zero k : on_grid k 0.
Proof. exists 0%Z. ring. Qed.

Lemma on_grid_sub k x y : on_grid k x -> on_grid k y -> on_grid k (x - y).
Proof.
  intros [m Hm] [n Hn]. exists (m - n)%Z.
  rewrite Hm, Hn. unfold Z.sub. rewrite inject_Z_plus, inject_Z_opp. ring.
Qed.

Lemma on_grid_min k x y : on_grid k x -> on_grid k y -> on_grid k (Qmin x y).
Proof.
  intros Hx Hy. destruct (Q.min_spec x y) as [[_ E] | [_ E]];
    destruct Hx as [m Hm]; destruct Hy as [n Hn]; [exists m | exists n];
    rewrite E; assumption.
Qed.

(** A number on the grid other than 0 is one step of it away from 0. *)
Lemma on_grid_away k x : on_grid k x -> x == 0 \/ pow2 (k - 52) <= Qabs x.
Proof.
  intros [m Hm]. pose proof (pow2_pos (k - 52)) as Hu.
  destruct (Z.eq_dec m 0%Z) as [-> | N].
  - left. rewrite Hm. ring.
  - right. rewrite Hm, Qabs_Qmult, (Qabs_pos (pow2 _)) by (apply Qlt_le_weak, Hu).
    rewrite <- (Qmult_1_l (pow2 (k - 52))) at 1.
    apply Qmult_le_compat_r; [|apply Qlt_le_weak, Hu].
    destruct (Z_lt_le_dec m 0%Z) as [Hneg | Hpos].
    + rewrite Qabs_neg by (change 0 with (inject_Z 0); rewrite <- Zle_Qle; lia).
      rewrite <- inject_Z_opp. change 1 with (inject_Z 1). rewrite <- Zle_Qle. lia.
    + rewrite Qabs_pos by (change 0 with (inject_Z 0); rewrite <- Zle_Qle; lia).
      change 1 with (inject_Z 1). rewrite <- Zle_Qle. lia.
Qed.

Lemma round_ge_pow2 k x : pow2 k <= x -> pow2 k <= round x.
Proof.
  intros H. pose proof (pow2_pos k) as Hk.
  assert (Hx : 0 < x) by (eapply Qlt_le_trans; eassumption).
  assert (Hn : ~ x == 0) by (intros E; rewrite E in Hx; discriminate).
  destruct (round_pos x Hx) as [Lo _]. eapply Qle_trans; [|exact Lo].
  apply pow2_le. destruct (exponent_spec x Hn) as [_ Hi].
  rewrite (Qabs_pos x) in Hi by (apply Qlt_le_weak, Hx).
  assert (Hlt : pow2 k < pow2 (exponent x + 1)) by (eapply Qle_lt_trans; eassumption).
  apply pow2_lt_inv in Hlt. lia.
Qed.

Lemma on_grid_finer k k' x : (k' <= k)%Z -> on_grid k x -> on_grid k' x.
Proof.
  intros H [m Hm]. exists (m * 2 ^ (k - k'))%Z.
  rewrite Hm, inject_Z_mult, <- pow2_Z by lia.
  replace (k - 52)%Z with ((k - k') + (k' - 52))%Z by lia.
  rewrite pow2_add. ring.
Qed.

Lemma pow2_lt a b : (a < b)%Z -> pow2 a < pow2 b.
Proof. intros H. apply Qpower_lt_compat_l; [exact H | reflexivity]. Qed.

Lemma in_range_between x a b :
  pow2 a <= x -> x <= pow2 b -> (-1022 <= a)%Z -> (b < 1024)%Z -> in_range x.
Proof.
  intros Lo Hi Ha Hb. right.
  assert (Hx : 0 <= x).
  { eapply Qle_trans; [apply Qlt_le_weak, (pow2_pos a) | exact Lo]. }
  rewrite (Qabs_pos x Hx). split.
  - eapply Qle_trans; [apply pow2_le, Ha | exact Lo].
  - eapply Qle_lt_trans; [exact Hi | apply pow2_lt, Hb].
Qed.

Section Limits.
Variables passed total length : Z.
Hypothesis passed_range : (0 <= passed <= total)%Z.
Hypothesis total_range : (0 < total < 2 ^ 32)%Z.
Hypothesis length_range : (0 <= length < 2 ^ 53)%Z.

Lemma quotient_bounds :
  inject_Z passed / inject_Z total == 0
  \/ (pow2 (-32) <= inject_Z passed / inject_Z total
      /\ inject_Z passed / inject_Z total <= 1).
Proof.
  assert (Hpos : 0 < inject_Z total) by (apply inject_Z_pos; lia).
  destruct (Z.eq_dec passed 0%Z) as [-> | N].
  - left. unfold Qdiv. change (inject_Z 0) with 0. ring.
  - right. split.
    + apply Qle_shift_div_l; [exact Hpos|].
      apply Qle_trans with (pow2 (-32) * pow2 32).
      * apply Qmult_le_l; [apply pow2_pos|]. rewrite pow2_Z by lia.
        rewrite <- Zle_Qle. lia.
      * change (pow2 (-32) * pow2 32) with ((1 # 4294967296) * 4294967296).
        apply Qle_trans with 1; [discriminate|].
        change 1 with (inject_Z 1). rewrite <- Zle_Qle. lia.
    + apply Qle_shift_div_r; [exact Hpos|]. rewrite Qmult_1_l. rewrite <- Zle_Qle. lia.
Qed.

Lemma scaled_bounds :
  div (inject_Z passed) (inject_Z total) * 100 == 0
  \/ (pow2 (-26) <= div (inject_Z passed) (inject_Z total) * 100
      /\ div (inject_Z passed) (inject_Z total) * 100 <= 100).
Proof.
  unfold div. destruct quotient_bounds as [E | [Lo Hi]].
  - left. rewrite (round_zero _ E). ring.
  - right. apply round_ge_pow2 in Lo. apply round_le_1 in Hi.
    change (pow2 (-32)) with (1 # 4294967296) in Lo.
    change (pow2 (-26)) with (1 # 67108864).
    split; lra.
Qed.

Lemma product_bounds :
  inject_Z length * lit_0_1 == 0
  \/ (pow2 (-4) <= inject_Z length * lit_0_1 /\ inject_Z length * lit_0_1 <= pow2 50).
Proof.
  destruct (Z.eq_dec length 0%Z) as [-> | N].
  - left. change (inject_Z 0) with 0. ring.
  - right.
    assert (H1 : 1 <= inject_Z length)
      by (change 1 with (inject_Z 1); rewrite <- Zle_Qle; lia).
    assert (H2 : inject_Z length <= inject_Z (2 ^ 53)) by (rewrite <- Zle_Qle; lia).
    assert (Lo : 1 # 16 <= lit_0_1) by (vm_compute; discriminate).
    assert (Hi : lit_0_1 <= 1 # 8) by (vm_compute; discriminate).
    change (pow2 (-4)) with (1 # 16). split.
    + apply Qle_trans with (1 * lit_0_1); [lra|].
      apply Qmult_le_compat_r; [exact H1 | lra].
    + apply Qle_trans with (inject_Z (2 ^ 53) * (1 # 8)); [|vm_compute; discriminate].
      apply Qmult_le_compat_nonneg; (split; [lra | assumption]).
Qed.

(** The accuracy and the penalty are multiples of [2^-78], and so is their
    difference. *)
Lemma accuracy_on_grid :
  on_grid (-26) (mul (div (inject_Z passed) (inject_Z total)) 100).
Proof.
  unfold mul. destruct scaled_bounds as [E | [Lo _]].
  - rewrite (round_zero _ E). apply on_grid_zero.
  - apply round_on_grid. eapply Qle_trans; [exact Lo|]. apply Qle_Qabs.
Qed.

Lemma penalty_on_grid :
  on_grid (-26) (Qmin (mul (inject_Z length) lit_0_1) 5).
Proof.
  apply on_grid_min.
  - unfold mul. destruct product_bounds as [E | [Lo _]].
    + rewrite (round_zero _ E). apply on_grid_zero.
    + apply (on_grid_finer (-4)); [lia|].
      apply round_on_grid. eapply Qle_trans; [exact Lo|]. apply Qle_Qabs.
  - exists (5 * 2 ^ 78)%Z. vm_compute. reflexivity.
Qed.

(** Every exact result that [evaluateIndividual] rounds is in the range:
    the quotient, the product by 100, the product by [0.1], and the
    difference of the accuracy and the penalty. *)
Lemma evaluate_in_range :
  in_range (inject_Z passed / inject_Z total)
  /\ in_range (div (inject_Z passed) (inject_Z total) * 100)
  /\ in_range (inject_Z length * lit_0_1)
  /\ in_range (mul (div (inject_Z passed) (inject_Z total)) 100
               - Qmin (mul (inject_Z length) lit_0_1) 5).
Proof.
  split; [|split; [|split]].
  - destruct quotient_bounds as [E | [Lo Hi]]; [now left|].
    apply (in_range_between _ (-32) 0); [exact Lo | exact Hi | lia | lia].
  - destruct scaled_bounds as [E | [Lo Hi]]; [now left|].
    apply (in_range_between _ (-26) 7); [exact Lo | | lia | lia].
    eapply Qle_trans; [exact Hi | vm_compute; discriminate].
  - destruct product_bounds as [E | [Lo Hi]]; [now left|].
    apply (in_range_between _ (-4) 50); [exact Lo | exact Hi | lia | lia].
  - destruct (on_grid_away (-26) _ (on_grid_sub _ _ _ accuracy_on_grid penalty_on_grid))
      as [E | Lo]; [now left|].
    right. split.
    + eapply Qle_trans; [|exact Lo]. apply pow2_le. lia.
    + apply Qle_lt_trans with (pow2 7); [|apply pow2_lt; lia].
      assert (Ha : 0 <= mul (div (inject_Z passed) (inject_Z total)) 100
                   /\ mul (div (inject_Z passed) (inject_Z total)) 100 <= 100).
      { unfold mul. destruct scaled_bounds as [E | [L H]].
        - rewrite (round_zero _ E). split; discriminate.
        - split; [apply round_nonneg | apply round_le_100, H].
          eapply Qle_trans; [apply Qlt_le_weak, (pow2_pos (-26)) | exact L]. }
      assert (Hp : 0 <= Qmin (mul (inject_Z length) lit_0_1) 5
                   /\ Qmin (mul (inject_Z length) lit_0_1) 5 <= 5).
      { split; [|apply Q.le_min_r]. apply Q.min_glb; [|discriminate].
        unfold mul. apply round_nonneg.
        apply Qmult_le_0_compat; [|apply Qlt_le_weak, lit_0_1_pos].
        change 0 with (inject_Z 0). rewrite <- Zle_Qle. lia. }
      apply Qabs_Qle_condition. change (pow2 7) with 128. lra.
Qed.

End Limits.

(** ** Concrete evaluations *)

(** ",+." passes one of these three cases: the accuracy is the binary64
    number written 33.33333333333333, not the rational 100/3, and the
    fitness, after a penalty of 0.30000000000000004, is 33.03333333333333. *)
Definition thirds_ga : GeneticAlgorithm :=
  new {| populationSize := 4%Z; mutationRate := 1 # 10; crossoverRate := 7 # 10;
         elitism := 1%Z; maxGenerations := 10%Z; maxProgramLength := 20%Z |}
      [ {| input := [1%Z]; expected := [2%Z] |}; {| input := [2%Z]; expected := [9%Z] |};
        {| input := [3%Z]; expected := [9%Z] |} ] [].

Example one_of_three :
  let ind := F64.evaluateIndividual thirds_ga (str ",+.") in
  trainAccuracy ind = Some (2345624805922133 # 70368744177664)
  /\ ~ (2345624805922133 # 70368744177664 == 100 / 3)
  /\ mul 3 lit_0_1 = 1351079888211149 # 4503599627370496
  /\ fitness ind = 1162257091334417 # 35184372088832.
Proof.
  cbv zeta. split; [vm_compute; reflexivity|]. split; [vm_compute; discriminate|].
  split; vm_compute; reflexivity.
Qed.

(** ",+." passes both cases of the sample: the accuracy is 100 and the
    fitness is the binary64 number written 99.7, not the rational 997/10. *)
Example two_of_two :
  let ind := F64.evaluateIndividual sample_ga (str ",+.") in
  trainAccuracy ind = Some 100
  /\ fitness ind = 7015763794513101 # 70368744177664
  /\ ~ (7015763794513101 # 70368744177664 == 997 / 10).
Proof.
  cbv zeta. split; [vm_compute; reflexivity|]. split; [vm_compute; reflexivity|].
  vm_compute; discriminate.
Qed.

End F64Facts.

(** ** The floats of the processor

    The primitive floats of the kernel are binary64 numbers, computed by the
    processor.  On every count of passed cases out of 1 to 10 and every
    length of program up to 60, the accuracy, the penalty, the difference
    of the two and the fitness computed with them are the numbers [F64]
    gives. *)
Module Floats.
Import GA F64 PrimFloat.
Local Open Scope Q_scope.

(** The rational a float denotes; none for an infinity and for NaN. *)
Definition Q_of_float (f : PrimFloat.float) : option Q :=
  match FloatOps.Prim2SF f with
  | SpecFloat.S754_zero _ => Some 0
  | SpecFloat.S754_finite s m e =>
      Some (Qred ((if s then -1 else 1) * inject_Z (Z.pos m) * pow2 e))
  | _ => None
  end.

Definition float_of_Z (z : Z) : PrimFloat.float := PrimFloat.of_uint63 (Uint63.of_Z z).

(** [Math.min] and [Math.max], on numbers that are not NaN. *)
Definition float_min (a b : PrimFloat.float) : PrimFloat.float :=
  if PrimFloat.ltb a b then a else b.

Definition float_max (a b : PrimFloat.float) : PrimFloat.float :=
  if PrimFloat.ltb a b then b else a.

(** The literal [0.1], in hexadecimal. *)
Definition float_0_1 : PrimFloat.float := 0x1.999999999999ap-4%float.

(** The arithmetic of [evaluateIndividual], on floats and in [F64]:
    [trainAccuracy], [code.length * 0.1], [trainAccuracy - lengthPenalty]
    and [fitness]. *)
Definition float_evaluate (passed total length : Z) : list (option Q) :=
  let trainAccuracy :=
    PrimFloat.mul (PrimFloat.div (float_of_Z passed) (float_of_Z total)) (float_of_Z 100) in
  let product := PrimFloat.mul (float_of_Z length) float_0_1 in
  let lengthPenalty := float_min product (float_of_Z 5) in
  let difference := PrimFloat.sub trainAccuracy lengthPenalty in
  let fitness := float_max (float_of_Z 0) difference in
  Q_of_float <$> [trainAccuracy; product; difference; fitness].

Definition f64_evaluate (passed total length : Z) : list (option Q) :=
  let trainAccuracy := F64.mul (F64.div (inject_Z passed) (inject_Z total)) 100 in
  let product := F64.mul (inject_Z length) lit_0_1 in
  let lengthPenalty := Qmin product 5 in
  let difference := F64.sub trainAccuracy lengthPenalty in
  let fitness := Qmax 0 difference in
  Some <$> [trainAccuracy; product; difference; fitness].

Definition same_number (a b : option Q) : bool :=
  match a, b with
  | Some x, Some y => Qeq_bool x y
  | _, _ => false
  end.

Fixpoint same_numbers (l1 l2 : list (option Q)) : bool :=
  match l1, l2 with
  | [], [] => true
  | a :: l1', b :: l2' => same_number a b && same_numbers l1' l2'
  | _, _ => false
  end.

Definition upto (n : nat) : list Z := Z.of_nat <$> seq 0 (S n).

Example agrees_with_floats :
  forallb (fun total =>
    forallb (fun passed =>
      forallb (fun length =>
        same_numbers (float_evaluate passed (total + 1)%Z length)
          (f64_evaluate passed (total + 1)%Z length))
        (upto 60))
      (upto (Z.to_nat total + 1)))
    (upto 9) = true.
Proof. vm_compute. reflexivity. Qed.

(** The literal, and two ties: [2^53 + 1] lies midway between the values
    [2^53] and [2^53 + 2] and goes to the first, whose significand is even;
    [2^53 + 3] goes to [2^53 + 4]. *)
Example literal_and_ties :
  Q_of_float float_0_1 = Some lit_0_1
  /\ round (inject_Z (2 ^ 53 + 1)) == inject_Z (2 ^ 53)
  /\ Q_of_float (float_of_Z (2 ^ 53 + 1)) = Some (round (inject_Z (2 ^ 53 + 1)))
  /\ round (inject_Z (2 ^ 53 + 3)) == inject_Z (2 ^ 53 + 4)
  /\ Q_of_float (float_of_Z (2 ^ 53 + 3)) = Some (round (inject_Z (2 ^ 53 + 3))).
Proof.
  split; [vm_compute; reflexivity|]. split; [vm_compute; reflexivity|].
  split; [vm_compute; reflexivity|]. split; [vm_compute; reflexivity|].
  vm_compute; reflexivity.
Qed.

(** The numerals with which JavaScript prints the values of
    [F64Facts.one_of_three] and [F64Facts.two_of_two]: each denotes the
    binary64 value nearest to it. *)
#[warnings="-inexact-float"] Example printed_values :
  Q_of_float 33.33333333333333%float = Some (2345624805922133 # 70368744177664)
  /\ Q_of_float 0.30000000000000004%float = Some (1351079888211149 # 4503599627370496)
  /\ Q_of_float 33.03333333333333%float = Some (1162257091334417 # 35184372088832)
  /\ Q_of_float 99.7%float = Some (7015763794513101 # 70368744177664).
Proof.
  split; [vm_compute; reflexivity|]. split; [vm_compute; reflexivity|].
  split; [vm_compute; reflexivity | vm_compute; reflexivity].
Qed.

End Floats.

(** * Further properties of the interpreter *)

Module InterpMore.
Import Interp InterpFacts.

(** ** The bracket table *)

Lemma item_at_range {A} (l : list A) (i : Z) (x : A) :
  item_at l i = Some x -> 0 <= i < len l.
Proof.
  unfold item_at, len. destruct (i <? 0) eqn:E; [discriminate|].
  intros H. apply lookup_lt_Some in H. lia.
Qed.

Lemma item_at_app_l {A} (l k : list A) (i : Z) (x : A) :
  item_at l i = Some x -> item_at (l ++ k) i = Some x.
Proof.
  unfold item_at. destruct (i <? 0); [discriminate|]. apply lookup_app_l_Some.
Qed.

Lemma item_at_middle {A} (l k : list A) (x : A) :
  item_at (l ++ x :: k) (len l) = Some x.
Proof.
  unfold item_at. pose proof (len_nonneg l) as Hl.
  destruct (len l <? 0) eqn:E; [lia|].
  unfold len. rewrite Nat2Z.id. apply list_lookup_middle. reflexivity.
Qed.

(** What holds of the table and the stack after the symbols [pre]. *)
Record table_inv (pre : jsstring) (stack : list Z) (map : gmap Z Z) : Prop := {
  ti_sym : forall a b, map !! a = Some b -> map !! b = Some a /\ a <> b;
  ti_pair : forall a b, map !! a = Some b -> a < b ->
            item_at pre a = Some ch_open /\ item_at pre b = Some ch_close;
  ti_stack : forall a, a ∈ stack -> item_at pre a = Some ch_open /\ map !! a = None;
  ti_keys : forall a, is_Some (map !! a) -> 0 <= a < len pre;
  ti_nodup : NoDup stack
}.

Lemma table_inv_skip pre stack map c :
  table_inv pre stack map -> table_inv (pre ++ [c]) stack map.
Proof.
  intros [H1 H2 H3 H4 H5]. split; [exact H1 | | | | exact H5].
  - intros a b Hab Hlt. destruct (H2 a b Hab Hlt). split; now apply item_at_app_l.
  - intros a Ha. destruct (H3 a Ha). split; [now apply item_at_app_l | assumption].
  - intros a Ha. apply H4 in Ha. rewrite len_app. change (len [c]) with 1. lia.
Qed.

Lemma table_inv_push pre stack map :
  table_inv pre stack map -> table_inv (pre ++ [ch_open]) (len pre :: stack) map.
Proof.
  intros Hinv. pose proof (table_inv_skip pre stack map ch_open Hinv) as [H1 H2 H3 H4 H5].
  destruct Hinv as [_ _ G3 G4 _].
  split; [exact H1 | exact H2 | | exact H4 | ].
  - intros a Ha. apply elem_of_cons in Ha as [-> | Ha]; [|now apply H3].
    split; [apply item_at_middle|].
    destruct (map !! len pre) eqn:E; [|reflexivity].
    assert (Hs : is_Some (map !! len pre)) by (rewrite E; eauto).
    apply G4 in Hs. lia.
  - constructor; [|exact H5]. intros Hin. apply G3 in Hin as [Hin _].
    apply item_at_range in Hin. lia.
Qed.

Lemma table_inv_pop pre start stack map :
  table_inv pre (start :: stack) map ->
  table_inv (pre ++ [ch_close]) stack (<[len pre := start]> (<[start := len pre]> map)).
Proof.
  intros Hinv.
  pose proof (table_inv_skip pre (start :: stack) map ch_close Hinv) as [H1 H2 H3 H4 H5].
  destruct Hinv as [_ _ G3 G4 _].
  assert (Hstart : item_at pre start = Some ch_open /\ map !! start = None).
  { apply G3. apply elem_of_cons. now left. }
  destruct Hstart as [Hso Hsn]. pose proof (item_at_range _ _ _ Hso) as Hsr.
  assert (Hfresh : map !! len pre = None).
  { destruct (map !! len pre) eqn:E; [|reflexivity].
    assert (Hs : is_Some (map !! len pre)) by (rewrite E; eauto).
    apply G4 in Hs. lia. }
  assert (Hne : len pre <> start) by lia.
  assert (Hold : forall a b, map !! a = Some b ->
            a <> len pre /\ a <> start /\ b <> len pre /\ b <> start).
  { intros a b Hab. destruct (H1 a b Hab) as [Hba _].
    repeat split; intros ->; congruence. }
  split.
  - intros a b Hab. rewrite lookup_insert in Hab. case_decide as Ea.
    + injection Hab as <-. subst a. split; [|exact Hne].
      rewrite lookup_insert_ne by exact Hne. apply lookup_insert_eq.
    + rewrite lookup_insert in Hab. case_decide as Eb.
      * injection Hab as <-. subst a. split; [apply lookup_insert_eq | lia].
      * destruct (Hold a b Hab) as (_ & _ & Hb1 & Hb2). destruct (H1 a b Hab) as [Hba Hn].
        split; [|exact Hn]. rewrite !lookup_insert_ne by congruence. exact Hba.
  - intros a b Hab Hlt. rewrite lookup_insert in Hab. case_decide as Ea.
    + injection Hab as <-. subst a. lia.
    + rewrite lookup_insert in Hab. case_decide as Eb.
      * injection Hab as <-. subst a.
        split; [now apply item_at_app_l | apply item_at_middle].
      * now apply H2.
  - intros a Ha.
    assert (Ha' : a ∈ start :: stack) by (apply elem_of_cons; now right).
    destruct (H3 a Ha') as [Hao Han]. split; [exact Hao|].
    apply NoDup_cons in H5 as [Hnin _].
    pose proof (item_at_range _ _ _ (proj1 (G3 a Ha'))) as Har.
    rewrite !lookup_insert_ne; [exact Han | congruence | lia].
  - intros a Ha. rewrite len_app. change (len [ch_close]) with 1.
    rewrite lookup_insert in Ha. case_decide; [lia|].
    rewrite lookup_insert in Ha. case_decide; [lia|].
    apply G4 in Ha. lia.
  - now apply NoDup_cons in H5 as [_ H5].
Qed.

Lemma bracket_loop_inv rest : forall pre stack map,
  table_inv pre stack map ->
  exists stack', table_inv (pre ++ rest) stack' (bracket_loop rest (len pre) stack map).
Proof.
  induction rest as [|c rest IH]; intros pre stack map Hinv; cbn [bracket_loop].
  - exists stack. now rewrite app_nil_r.
  - replace (pre ++ c :: rest) with ((pre ++ [c]) ++ rest)
      by (rewrite <- app_assoc; reflexivity).
    replace (len pre + 1) with (len (pre ++ [c]))
      by (rewrite len_app; reflexivity).
    destruct (c =? ch_open) eqn:Eo.
    + apply Z.eqb_eq in Eo. subst c. apply IH. now apply table_inv_push.
    + destruct (c =? ch_close) eqn:Ec.
      * apply Z.eqb_eq in Ec. subst c. destruct stack as [|start stack].
        -- apply IH. now apply table_inv_skip.
        -- apply IH. now apply table_inv_pop.
      * apply IH. now apply table_inv_skip.
Qed.

Lemma table_inv_empty : table_inv [] [] ∅.
Proof.
  split.
  - intros a b H. now rewrite lookup_empty in H.
  - intros a b H. now rewrite lookup_empty in H.
  - intros a H. now apply elem_of_nil in H.
  - intros a [b H]. now rewrite lookup_empty in H.
  - constructor.
Qed.

(** X1: the bracket table pairs positions both ways: an entry from [a] to
    [b] comes with the entry from [b] to [a], and the smaller of the two
    positions holds a loop-open, the larger a loop-close. *)
Theorem bracket_table_pairs (code : jsstring) (a b : Z) :
  buildBracketMap code !! a = Some b ->
  buildBracketMap code !! b = Some a
  /\ ((a < b /\ item_at code a = Some ch_open /\ item_at code b = Some ch_close)
      \/ (b < a /\ item_at code b = Some ch_open /\ item_at code a = Some ch_close)).
Proof.
  intros Hab. unfold buildBracketMap in *.
  destruct (bracket_loop_inv code [] [] ∅ table_inv_empty) as [stack' Hinv].
  change (len []) with 0 in Hinv. cbn [app] in Hinv.
  destruct Hinv as [H1 H2 _ _ _].
  destruct (H1 a b Hab) as [Hba Hne]. split; [exact Hba|].
  destruct (Z.lt_ge_cases a b) as [Hlt | Hge].
  - left. split; [exact Hlt|]. now apply H2.
  - right. assert (Hlt : b < a) by lia. split; [exact Hlt|]. now apply H2.
Qed.

Lemma bracket_table_pairs_witness :
  buildBracketMap (str "+[-]") !! 3 = Some 1.
Proof.
  apply (proj1 (bracket_table_pairs (str "+[-]") 1 3 ltac:(vm_compute; reflexivity))).
Defined.

(** ** The tape *)

Definition tape_ok (m : machine) : Prop :=
  len (memory m) = memory_size /\ 0 <= pointer m < memory_size.

Lemma rem_range (a b : Z) : 0 <= a -> 0 < b -> 0 <= Z.rem a b < b.
Proof.
  intros Ha Hb. rewrite Z.rem_mod_nonneg by lia. apply Z.mod_pos_bound. exact Hb.
Qed.

Lemma len_set_cell m v : len (set_cell m v) = len (memory m).
Proof. unfold set_cell, len. now rewrite length_insert. Qed.

Ltac split_command :=
  repeat match goal with
  | |- context [if ?b then _ else _] => destruct b eqn:?
  end.

Lemma exec_command_tape input bm c m :
  tape_ok m -> tape_ok (exec_command input bm c m).
Proof.
  intros [Hl Hp]. assert (Hs : 0 < memory_size) by reflexivity.
  unfold exec_command. destruct c as [c|]; [|now split].
  split_command; unfold tape_ok; cbn [memory pointer];
    rewrite ?len_set_cell, ?Hl; (split; [reflexivity|]);
    first [exact Hp | apply rem_range; lia].
Qed.

Lemma step_tape code input bm m : tape_ok m -> tape_ok (step code input bm m).
Proof.
  intros H. unfold step.
  match goal with |- context [exec_command input bm ?c ?m1] =>
    assert (H1 : tape_ok (exec_command input bm c m1)) by (apply exec_command_tape; exact H)
  end.
  exact H1.
Qed.

Lemma init_tape : tape_ok init.
Proof.
  split; [|cbn [pointer init]; unfold memory_size; lia].
  unfold len. cbn [memory init]. rewrite length_replicate. apply Z2Nat.id.
  unfold memory_size. lia.
Qed.

Lemma iter_tape code input bm k : forall m,
  tape_ok m -> tape_ok (iter code input bm k m).
Proof.
  induction k as [|k IH]; intros m H; cbn [iter]; [exact H|].
  apply IH. now apply step_tape.
Qed.

Lemma run_tape code input bm maxSteps fuel : forall m,
  tape_ok m -> tape_ok (run code input bm maxSteps fuel m).
Proof.
  induction fuel as [|fuel IH]; intros m H; cbn [run]; [exact H|].
  destruct (loop_cond code maxSteps m); [|exact H]. apply IH. now apply step_tape.
Qed.

(** X2: the tape keeps its 30000 cells and the tape pointer stays on it,
    after any number of loop iterations and when the interpreter stops. *)
Theorem tape_pointer_in_range (code input : jsstring) (bm : gmap Z Z)
    (maxSteps : Z) (k : nat) :
  (len (memory (iter code input bm k init)) = 30000
   /\ 0 <= pointer (iter code input bm k init) < 30000)
  /\ (len (memory (final code input maxSteps)) = 30000
      /\ 0 <= pointer (final code input maxSteps) < 30000).
Proof.
  split.
  - exact (iter_tape code input bm k init init_tape).
  - exact (run_tape code input (buildBracketMap code) maxSteps _ init init_tape).
Qed.

(** ** Bytes in, bytes out *)

Definition byte (v : Z) : Prop := 0 <= v < 256.

Definition bytes_ok (m : machine) : Prop :=
  Forall byte (memory m) /\ Forall byte (output m).

Lemma cell_byte m : Forall byte (memory m) -> byte (cell m).
Proof.
  intros H. unfold cell. destruct (memory m !! Z.to_nat (pointer m)) as [v|] eqn:E.
  - exact (Forall_lookup_1 byte (memory m) _ v H E).
  - cbn. unfold byte. lia.
Qed.

Lemma set_cell_byte m v :
  Forall byte (memory m) -> byte v -> Forall byte (set_cell m v).
Proof. intros H Hv. unfold set_cell. now apply Forall_insert. Qed.

Lemma exec_command_bytes input bm c m :
  Forall byte input -> bytes_ok m -> bytes_ok (exec_command input bm c m).
Proof.
  intros Hin [Hm Ho]. pose proof (cell_byte m Hm) as Hc. unfold byte in Hc.
  unfold exec_command. destruct c as [c|]; [|now split].
  split_command; unfold bytes_ok; cbn [memory output];
    (split; [|first [exact Ho | idtac]]); try exact Hm.
  - apply set_cell_byte; [exact Hm|]. apply rem_range; lia.
  - apply set_cell_byte; [exact Hm|]. apply rem_range; lia.
  - apply Forall_app. split; [exact Ho|]. constructor; [|constructor].
    rewrite Z.mod_small by lia. exact Hc.
  - apply set_cell_byte; [exact Hm|].
    destruct (item_at input (inputPointer m)) as [v|] eqn:E; cbn [default].
    + unfold item_at in E. destruct (inputPointer m <? 0); [discriminate|].
      exact (Forall_lookup_1 byte input _ v Hin E).
    + unfold byte. lia.
  - apply set_cell_byte; [exact Hm|]. unfold byte. lia.
Qed.

Lemma step_bytes code input bm m :
  Forall byte input -> bytes_ok m -> bytes_ok (step code input bm m).
Proof.
  intros Hin H. unfold step.
  match goal with |- context [exec_command input bm ?c ?m1] =>
    assert (H1 : bytes_ok (exec_command input bm c m1))
      by (apply exec_command_bytes; [exact Hin | exact H])
  end.
  exact H1.
Qed.

Lemma run_bytes code input bm maxSteps fuel : forall m,
  Forall byte input -> bytes_ok m -> bytes_ok (run code input bm maxSteps fuel m).
Proof.
  induction fuel as [|fuel IH]; intros m Hin H; cbn [run]; [exact H|].
  destruct (loop_cond code maxSteps m); [|exact H].
  apply IH; [exact Hin|]. now apply step_bytes.
Qed.

Lemma init_bytes : bytes_ok init.
Proof.
  split; cbn [memory output init]; [|constructor].
  apply Forall_replicate. unfold byte. lia.
Qed.

(** X3: on an input of bytes, every code unit of the output is a byte. *)
Theorem output_of_bytes (code input : jsstring) (maxSteps : Z) :
  Forall byte input -> Forall byte (executeBrainfuck code input maxSteps).
Proof.
  intros Hin. unfold executeBrainfuck, final.
  exact (proj2 (run_bytes code input _ maxSteps _ init Hin init_bytes)).
Qed.

Lemma output_of_bytes_witness :
  Forall byte (executeBrainfuck (str ",-.") [0] 100).
Proof.
  apply output_of_bytes. constructor; [|constructor]. unfold byte. lia.
Defined.

(** ** The output grows with the budget *)

Lemma exec_command_output input bm c m :
  exists l, output (exec_command input bm c m) = output m ++ l /\ (length l <= 1)%nat.
Proof.
  unfold exec_command. destruct c as [c|];
    [|exists []; rewrite app_nil_r; split; [reflexivity | cbn; lia]].
  split_command; cbn [output];
    first [ exists [cell m mod 65536]; split; [reflexivity | cbn; lia]
          | exists []; rewrite app_nil_r; split; [reflexivity | cbn; lia] ].
Qed.

Lemma step_output code input bm m :
  exists l, output (step code input bm m) = output m ++ l /\ (length l <= 1)%nat.
Proof.
  unfold step. cbn [output].
  match goal with |- context [exec_command input bm ?c ?m1] =>
    destruct (exec_command_output input bm c m1) as (l & E & Hl)
  end.
  exists l. split; [exact E | exact Hl].
Qed.

Lemma iter_output code input bm k : forall m,
  exists l, output (iter code input bm k m) = output m ++ l /\ (length l <= k)%nat.
Proof.
  induction k as [|k IH]; intros m; cbn [iter].
  - exists []. rewrite app_nil_r. split; [reflexivity | cbn; lia].
  - destruct (IH (step code input bm m)) as (l2 & E2 & H2).
    destruct (step_output code input bm m) as (l1 & E1 & H1).
    exists (l1 ++ l2). rewrite E2, E1, app_assoc. split; [reflexivity|].
    rewrite length_app. lia.
Qed.

(** The run with the smaller budget is an initial part of the run with the
    larger one. *)
Lemma final_extends code input N1 N2 :
  N1 <= N2 ->
  exists k, final code input N2
            = iter code input (buildBracketMap code) k (final code input N1).
Proof.
  intros HN. unfold final. set (bm := buildBracketMap code).
  destruct (run_is_iter code input bm N1 (Z.to_nat N1) init) as (k1 & Hk1 & E1 & Hc1).
  rewrite E1.
  assert (Hc2 : forall j, (j < k1)%nat ->
            loop_cond code N2 (iter code input bm j init) = true).
  { intros j Hj. pose proof (Hc1 j Hj) as H. unfold loop_cond in *.
    apply andb_true_iff in H as [Hi Hs]. rewrite Hi. cbn [andb]. lia. }
  replace (Z.to_nat N2) with (k1 + (Z.to_nat N2 - k1))%nat by lia.
  rewrite run_add, (run_iter code input bm N2 k1 init Hc2).
  destruct (run_is_iter code input bm N2 (Z.to_nat N2 - k1)
              (iter code input bm k1 init)) as (k2 & _ & E2 & _).
  exists k2. exact E2.
Qed.

(** X4: a larger step budget only extends the output: the output under
    [N1] steps is a prefix of the output under [N2 >= N1] steps. *)
Theorem output_grows_with_budget (code input : jsstring) (N1 N2 : Z) :
  N1 <= N2 ->
  executeBrainfuck code input N1 `prefix_of` executeBrainfuck code input N2.
Proof.
  intros HN. unfold executeBrainfuck.
  destruct (final_extends code input N1 N2 HN) as [k ->].
  destruct (iter_output code input (buildBracketMap code) k (final code input N1))
    as (l & -> & _).
  now exists l.
Qed.

Lemma output_grows_with_budget_witness :
  executeBrainfuck (str "+.+.+.") [] 3 `prefix_of` executeBrainfuck (str "+.+.+.") [] 5.
Proof. apply output_grows_with_budget. lia. Defined.

(** X5: the output has at most one code unit per executed step, so at
    most [max 0 maxSteps] code units. *)
Theorem output_length_bounded (code input : jsstring) (maxSteps : Z) :
  len (executeBrainfuck code input maxSteps) <= steps (final code input maxSteps)
  /\ steps (final code input maxSteps) <= Z.max 0 maxSteps.
Proof.
  destruct (final_shape code input maxSteps) as (_ & Hs & Hf & _).
  split; [|lia]. unfold executeBrainfuck. rewrite Hf at 1.
  destruct (iter_output code input (buildBracketMap code)
              (Z.to_nat (steps (final code input maxSteps))) init) as (l & -> & Hl).
  cbn [output init app]. unfold len. lia.
Qed.

(** ** Programs that do not read *)

Lemma step_same_input code input1 input2 bm m :
  ch_comma ∉ code -> step code input1 bm m = step code input2 bm m.
Proof.
  intros Hno. unfold step.
  destruct (fetch code (codePointer m)) as [c|] eqn:Ef; [|reflexivity].
  assert (Hc : c <> ch_comma).
  { intros ->. apply Hno. unfold fetch in Ef. destruct (codePointer m); [|discriminate].
    unfold item_at in Ef. destruct (i <? 0); [discriminate|].
    eapply list_elem_of_lookup_2. exact Ef. }
  unfold exec_command.
  destruct (c =? ch_gt); [reflexivity|]. destruct (c =? ch_lt); [reflexivity|].
  destruct (c =? ch_plus); [reflexivity|]. destruct (c =? ch_minus); [reflexivity|].
  destruct (c =? ch_dot); [reflexivity|].
  destruct (c =? ch_comma) eqn:E; [apply Z.eqb_eq in E; contradiction|].
  reflexivity.
Qed.

Lemma run_same_input code input1 input2 bm maxSteps fuel : forall m,
  ch_comma ∉ code ->
  run code input1 bm maxSteps fuel m = run code input2 bm maxSteps fuel m.
Proof.
  induction fuel as [|fuel IH]; intros m Hno; cbn [run]; [reflexivity|].
  destruct (loop_cond code maxSteps m); [|reflexivity].
  rewrite (step_same_input code input1 input2 bm m Hno). now apply IH.
Qed.

(** X6: a program without the input command gives the same output on
    every input. *)
Theorem output_without_input (code input1 input2 : jsstring) (maxSteps : Z) :
  ch_comma ∉ code ->
  executeBrainfuck code input1 maxSteps = executeBrainfuck code input2 maxSteps.
Proof.
  intros Hno. unfold executeBrainfuck, final.
  now rewrite (run_same_input code input1 input2 _ maxSteps _ init Hno).
Qed.

Lemma output_without_input_witness :
  executeBrainfuck (str "+++.") [1] 100 = executeBrainfuck (str "+++.") [2; 3] 100.
Proof.
  apply output_without_input. intros H. vm_compute in H.
  repeat (apply elem_of_cons in H as [H | H]; [discriminate|]).
  now apply elem_of_nil in H.
Defined.

End InterpMore.

(** * Further properties of the operators *)

Module OperatorsMore.
Import Interp InterpMore GAFacts.

(** ** Brackets of a generated program *)

(** The bracket depth after the symbols of [s], from depth [d]; [None]
    when a loop-close comes at depth 0. *)
Fixpoint depth_after (d : Z) (s : jsstring) : option Z :=
  match s with
  | [] => Some d
  | c :: s' =>
      if c =? ch_open then depth_after (d + 1) s'
      else if c =? ch_close then
        (if 0 <? d then depth_after (d - 1) s' else None)
      else depth_after d s'
  end.

Lemma depth_after_app s1 : forall d d1 s2,
  depth_after d s1 = Some d1 -> depth_after d (s1 ++ s2) = depth_after d1 s2.
Proof.
  induction s1 as [|c s1 IH]; intros d d1 s2 H; cbn [depth_after app] in *.
  - now injection H as ->.
  - destruct (c =? ch_open); [now apply IH|].
    destruct (c =? ch_close); [|now apply IH].
    destruct (0 <? d); [now apply IH | discriminate].
Qed.

Lemma depth_after_take s : forall d d' n,
  depth_after d s = Some d' -> is_Some (depth_after d (take n s)).
Proof.
  induction s as [|c s IH]; intros d d' n H; destruct n as [|n];
    cbn [depth_after take] in *; eauto.
  destruct (c =? ch_open); [now apply (IH _ d')|].
  destruct (c =? ch_close); [|now apply (IH _ d')].
  destruct (0 <? d); [now apply (IH _ d') | discriminate].
Qed.

Lemma depth_after_nonneg s : forall d d',
  0 <= d -> depth_after d s = Some d' -> 0 <= d'.
Proof.
  induction s as [|c s IH]; intros d d' Hd H; cbn [depth_after] in H.
  - injection H as <-. exact Hd.
  - destruct (c =? ch_open); [apply (IH (d + 1)); [lia | exact H]|].
    destruct (c =? ch_close); [|now apply (IH d)].
    destruct (0 <? d) eqn:E; [apply (IH (d - 1)); [lia | exact H] | discriminate].
Qed.

(** The commands are the eight symbols, and the tests of the generator on
    a command are tests on its symbol. *)
Lemma command_symbol command :
  command ∈ commands ->
  exists c, command = [c]
    /\ bool_decide (command = str "[") = (c =? ch_open)
    /\ bool_decide (command = str "]") = (c =? ch_close).
Proof.
  intros H. vm_compute in H.
  repeat (apply elem_of_cons in H as [-> | H];
          [eexists; split; [reflexivity | split; vm_compute; reflexivity]|]).
  now apply elem_of_nil in H.
Qed.

Lemma starts_commands command : command ∈ starts -> command ∈ commands.
Proof. unfold starts. intros H. now apply list_elem_of_filter in H as [_ H]. Qed.

Lemma starts_not_close c : [c] ∈ starts -> c <> ch_close.
Proof.
  unfold starts. intros H Hc. apply list_elem_of_filter in H as [H _].
  apply H. now rewrite Hc.
Qed.

(** The program built so far never closes below depth 0, and
    [bracketDepth] is its depth. *)
Definition gen_inv (program : jsstring) (bracketDepth : Z) : Prop :=
  depth_after 0 program = Some bracketDepth /\ 0 <= bracketDepth <= len program.

Lemma generate_loop_depth n : forall program depth,
  gen_inv program depth ->
  returns (generate_loop n program depth)
    (fun r => gen_inv r.1 r.2 /\ len r.1 = len program + Z.of_nat n).
Proof.
  induction n as [|n IH]; intros program depth [Hd Hr]; cbn [generate_loop].
  - apply returns_ret. cbn [fst snd]. split; [now split | lia].
  - eapply returns_bind.
    { apply pick_in. destruct (depth =? 0); vm_compute; discriminate. }
    intros command Hin. cbn beta in Hin.
    assert (Hcmd : command ∈ commands).
    { destruct (depth =? 0); [now apply starts_commands | exact Hin]. }
    destruct (command_symbol command Hcmd) as (c & -> & -> & ->).
    eapply returns_weaken.
    + apply IH. unfold gen_inv. rewrite (depth_after_app _ _ _ _ Hd).
      rewrite len_app. change (len [c]) with 1. cbn [depth_after].
      destruct (c =? ch_open) eqn:Eo; [split; [reflexivity | lia]|].
      destruct (c =? ch_close) eqn:Ec; [|split; [reflexivity | lia]].
      destruct (depth =? 0) eqn:E0.
      * apply starts_not_close in Hin. lia.
      * replace (0 <? depth) with true by lia. split; [reflexivity | lia].
    + intros r [Hg Hl]. split; [exact Hg|].
      rewrite Hl, len_app. change (len [c]) with 1. lia.
Qed.

Lemma close_loop_depth n : forall program depth maxLength,
  gen_inv program depth ->
  exists depth', gen_inv (close_loop n program depth maxLength) depth'
    /\ ((Z.to_nat depth <= n)%nat -> len program + depth <= maxLength ->
        depth' = 0
        /\ len (close_loop n program depth maxLength) = len program + depth).
Proof.
  induction n as [|n IH]; intros program depth maxLength [Hd Hr]; cbn [close_loop].
  - exists depth. split; [now split|]. intros Hn Hroom. split; lia.
  - destruct ((0 <? depth) && (len program <? maxLength)) eqn:E.
    + apply andb_true_iff in E as [E1 E2].
      destruct (IH (program ++ str "]") (depth - 1) maxLength) as (d' & Hg & Hfull).
      { unfold gen_inv. rewrite (depth_after_app _ _ _ _ Hd).
        change (str "]") with [ch_close]. cbn [depth_after].
        change (ch_close =? ch_open) with false. change (ch_close =? ch_close) with true.
        cbn match. rewrite E1. rewrite len_app. change (len [ch_close]) with 1.
        split; [reflexivity | lia]. }
      exists d'. split; [exact Hg|]. intros Hn Hroom.
      rewrite len_app in Hfull. change (len (str "]")) with 1 in Hfull.
      destruct Hfull as [H0 Hl]; [lia | lia |]. split; [exact H0 | lia].
    + exists depth. split; [now split|]. intros Hn Hroom.
      apply andb_false_iff in E. split; [|destruct E; lia]. destruct E; lia.
Qed.

(** The table has an entry for every loop-close of a string that never
    closes below depth 0, and no entry is lost along the way. *)
Lemma item_at_cons {A} (x : A) (l : list A) (k : Z) :
  item_at (x :: l) k = if k =? 0 then Some x else item_at l (k - 1).
Proof.
  unfold item_at. destruct (k <? 0) eqn:E.
  - replace (k =? 0) with false by lia. replace (k - 1 <? 0) with true by lia.
    reflexivity.
  - destruct (k =? 0) eqn:E0.
    + apply Z.eqb_eq in E0. now subst k.
    + replace (k - 1 <? 0) with false by lia.
      replace (Z.to_nat k) with (S (Z.to_nat (k - 1))) by lia. reflexivity.
Qed.

Lemma item_at_nil {A} (k : Z) : item_at (@nil A) k = None.
Proof. unfold item_at. now destruct (k <? 0). Qed.

Lemma bracket_loop_keeps rest : forall i stack map a,
  is_Some (map !! a) -> is_Some (bracket_loop rest i stack map !! a).
Proof.
  induction rest as [|c rest IH]; intros i stack map a Ha; cbn [bracket_loop];
    [exact Ha|].
  destruct (c =? ch_open); [now apply IH|].
  destruct (c =? ch_close); [|now apply IH].
  destruct stack as [|start stack]; [now apply IH|].
  apply IH. rewrite !lookup_insert_is_Some'. tauto.
Qed.

Lemma bracket_loop_closes rest : forall i stack map d',
  depth_after (len stack) rest = Some d' ->
  forall k, item_at rest k = Some ch_close ->
  is_Some (bracket_loop rest i stack map !! (i + k)).
Proof.
  induction rest as [|c rest IH]; intros i stack map d' Hd k Hk;
    [rewrite item_at_nil in Hk; discriminate|].
  rewrite item_at_cons in Hk. cbn [bracket_loop depth_after] in *.
  destruct (c =? ch_open) eqn:Eo.
  - destruct (k =? 0) eqn:E0; [injection Hk as ->; discriminate|].
    replace (i + k) with (i + 1 + (k - 1)) by lia.
    apply (IH _ _ _ d'); [|exact Hk]. now rewrite len_cons.
  - destruct (c =? ch_close) eqn:Ec.
    + destruct (0 <? len stack) eqn:Es; [|discriminate].
      destruct stack as [|start stack]; [discriminate|].
      rewrite len_cons in Hd. replace (len stack + 1 - 1) with (len stack) in Hd by lia.
      destruct (k =? 0) eqn:E0.
      * apply Z.eqb_eq in E0. subst k. rewrite Z.add_0_r.
        apply bracket_loop_keeps. rewrite lookup_insert_eq. eauto.
      * replace (i + k) with (i + 1 + (k - 1)) by lia.
        now apply (IH _ _ _ d').
    + destruct (k =? 0) eqn:E0; [injection Hk as ->; discriminate|].
      replace (i + k) with (i + 1 + (k - 1)) by lia.
      now apply (IH _ _ _ d').
Qed.

(** At depth 0 in the end, the pending loop-opens and the loop-opens of
    the string have their entries too. *)
Lemma bracket_loop_opens rest : forall i stack map,
  depth_after (len stack) rest = Some 0 ->
  (forall s, s ∈ stack -> is_Some (bracket_loop rest i stack map !! s))
  /\ forall k, item_at rest k = Some ch_open ->
     is_Some (bracket_loop rest i stack map !! (i + k)).
Proof.
  induction rest as [|c rest IH]; intros i stack map Hd.
  - cbn in Hd. injection Hd as Hd. apply len_zero in Hd. subst stack.
    split; [intros s Hs; now apply elem_of_nil in Hs|].
    intros k Hk. rewrite item_at_nil in Hk. discriminate.
  - cbn [bracket_loop depth_after] in *.
    destruct (c =? ch_open) eqn:Eo.
    + destruct (IH (i + 1) (i :: stack) map) as [H1 H2]; [now rewrite len_cons|].
      split.
      * intros s Hs. apply H1. apply elem_of_cons. now right.
      * intros k Hk. rewrite item_at_cons in Hk. destruct (k =? 0) eqn:E0.
        -- apply Z.eqb_eq in E0. subst k. rewrite Z.add_0_r.
           apply H1. apply elem_of_cons. now left.
        -- replace (i + k) with (i + 1 + (k - 1)) by lia. now apply H2.
    + destruct (c =? ch_close) eqn:Ec.
      * destruct (0 <? len stack) eqn:Es; [|discriminate].
        destruct stack as [|start stack]; [discriminate|].
        rewrite len_cons in Hd. replace (len stack + 1 - 1) with (len stack) in Hd by lia.
        destruct (IH (i + 1) stack (<[i := start]> (<[start := i]> map)) Hd) as [H1 H2].
        split.
        -- intros s Hs. apply elem_of_cons in Hs as [-> | Hs]; [|now apply H1].
           apply bracket_loop_keeps. rewrite !lookup_insert_is_Some'. tauto.
        -- intros k Hk. rewrite item_at_cons in Hk. destruct (k =? 0) eqn:E0.
           ++ injection Hk as ->. discriminate.
           ++ replace (i + k) with (i + 1 + (k - 1)) by lia. now apply H2.
      * destruct (IH (i + 1) stack map Hd) as [H1 H2]. split; [exact H1|].
        intros k Hk. rewrite item_at_cons in Hk. destruct (k =? 0) eqn:E0.
        -- injection Hk as ->. discriminate.
        -- replace (i + k) with (i + 1 + (k - 1)) by lia. now apply H2.
Qed.

Definition closes_matched (p : jsstring) : Prop :=
  forall i, item_at p i = Some ch_close -> is_Some (buildBracketMap p !! i).

Definition opens_matched (p : jsstring) : Prop :=
  forall i, item_at p i = Some ch_open -> is_Some (buildBracketMap p !! i).

Lemma depth_closes_matched p d : depth_after 0 p = Some d -> closes_matched p.
Proof.
  intros H i Hi. unfold buildBracketMap.
  exact (bracket_loop_closes p 0 [] ∅ d H i Hi).
Qed.

Lemma depth_opens_matched p : depth_after 0 p = Some 0 -> opens_matched p.
Proof.
  intros H i Hi. unfold buildBracketMap.
  exact (proj2 (bracket_loop_opens p 0 [] ∅ H) i Hi).
Qed.

Lemma generate_shape length maxLength :
  returns (generateRandomProgram length maxLength) (fun p =>
    len p <= Z.max 0 maxLength
    /\ (exists d, depth_after 0 p = Some d)
    /\ (0 <= length -> 2 * length <= maxLength ->
        depth_after 0 p = Some 0 /\ length <= len p <= 2 * length)).
Proof.
  unfold generateRandomProgram.
  eapply returns_bind.
  { apply (generate_loop_depth (Z.to_nat length) [] 0). split; [reflexivity|].
    change (len []) with 0. lia. }
  intros [program depth] [Hg Hl]. cbn [fst snd] in Hg, Hl.
  change (len []) with 0 in Hl.
  destruct (close_loop_depth (Z.to_nat depth) program depth maxLength Hg)
    as (d' & [Hd' Hr'] & Hfull).
  destruct Hg as [_ Hr].
  apply returns_ret. set (prog := close_loop (Z.to_nat depth) program depth maxLength) in *.
  destruct (maxLength <? len prog) eqn:E.
  - split; [|split].
    + unfold substring0, len. rewrite length_take. unfold len in *. lia.
    + unfold substring0. destruct (depth_after_take prog 0 d'
        (Z.to_nat (Z.min (Z.max maxLength 0) (len prog))) Hd') as [d'' Hd''].
      eauto.
    + intros H0 H2. destruct Hfull as [_ Hlen]; [lia | lia | lia].
  - split; [lia|]. split; [eauto|].
    intros H0 H2. destruct Hfull as [-> Hlen]; [lia | lia |]. split; [exact Hd' | lia].
Qed.

(** X7: a generated program is no longer than [maxLength], and every
    loop-close in it has its entry in the bracket table: the generator
    produces no unmatched loop-close. *)
Theorem generated_closes_matched (length maxLength : Z) :
  returns (generateRandomProgram length maxLength)
    (fun p => len p <= Z.max 0 maxLength /\ closes_matched p).
Proof.
  eapply returns_weaken; [apply generate_shape|].
  intros p (Hl & [d Hd] & _). split; [exact Hl | now apply (depth_closes_matched p d)].
Qed.

(** X8: with room for the closing symbols ([maxLength >= 2 * length]) the
    generated program has at least [length] symbols and all its brackets are
    matched. *)
Theorem generated_balanced (length maxLength : Z) :
  0 <= length -> 2 * length <= maxLength ->
  returns (generateRandomProgram length maxLength)
    (fun p => length <= len p <= 2 * length
              /\ closes_matched p /\ opens_matched p).
Proof.
  intros H0 H2. eapply returns_weaken; [apply generate_shape|].
  intros p (_ & _ & H). destruct (H H0 H2) as [Hd Hl].
  split; [exact Hl|]. split; [now apply (depth_closes_matched p 0) | now apply depth_opens_matched].
Qed.

Lemma generated_balanced_witness :
  returns (generateRandomProgram 10 20)
    (fun p => 10 <= len p <= 2 * 10 /\ closes_matched p /\ opens_matched p).
Proof. apply generated_balanced; lia. Defined.

(** ** Mutation *)

Lemma returns_to_ensures {A} (c : M A) (P : A -> Prop) : returns c P -> ensures c P.
Proof.
  intros H rnd i a j E. destruct (H rnd i) as (a' & j' & E' & HP).
  rewrite E in E'. injection E' as -> _. exact HP.
Qed.

Lemma len_or_plus s : len (or_plus s) <= Z.max 1 (len s).
Proof. destruct s; cbn [or_plus]; [change (len (str "+")) with 1|]; lia. Qed.

Lemma len_truncated (s : jsstring) (maxLength : Z) :
  len (if maxLength <? len s then substring0 s maxLength else s) <= Z.max 0 maxLength.
Proof.
  destruct (maxLength <? len s) eqn:E; [|lia].
  unfold substring0, len. rewrite length_take. unfold len in E. lia.
Qed.

Lemma mutate_shape (program : jsstring) (rate : Q) (maxLength : Z) :
  returns (mutateProgram program rate maxLength)
    (fun r => r <> [] /\ len r <= Z.max 1 maxLength).
Proof.
  unfold mutateProgram.
  eapply returns_bind; [apply (mutate_loop_returns rate (length program)); lia|].
  intros mutated _. draw_step.
  eapply returns_bind with (P := anything).
  { destruct (_ && _); [|now apply returns_ret].
    draw_step. draw_step. apply grow_loop_returns. }
  intros mutated1 _. draw_step.
  eapply returns_bind with (P := anything).
  { destruct (_ && _); [|now apply returns_ret].
    draw_step. draw_step. now apply returns_ret. }
  intros mutated2 _. apply returns_ret. split; [apply or_plus_nonempty|].
  pose proof (len_truncated mutated2 maxLength).
  pose proof (len_or_plus (if maxLength <? len mutated2
                           then substring0 mutated2 maxLength else mutated2)).
  lia.
Qed.

(** X9: the program that [mutateProgram] returns is not empty and has at
    most [maxLength] symbols, or the one symbol of the fallback when
    [maxLength] is smaller than 1. *)
Theorem mutation_length_bounded (program : jsstring) (rate : Q) (maxLength : Z) :
  returns (mutateProgram program rate maxLength)
    (fun r => r <> [] /\ len r <= Z.max 1 maxLength).
Proof. apply mutate_shape. Qed.

Lemma Qltb_false (a b : Q) : (b <= a)%Q -> Qltb a b = false.
Proof.
  intros H. unfold Qltb. apply negb_false_iff. now apply Qle_bool_iff.
Qed.

Lemma mutate_loop_rate0 rate rest : forall mutated,
  (rate <= 0)%Q ->
  returns (mutate_loop rate rest mutated) (fun r => r = mutated ++ rest).
Proof.
  induction rest as [|c rest IH]; intros mutated Hr; cbn [mutate_loop].
  - apply returns_ret. now rewrite app_nil_r.
  - draw_step. rewrite Qltb_false by (eapply Qle_trans; [exact Hr | apply H]).
    eapply returns_weaken; [now apply IH|].
    intros r ->. now rewrite <- app_assoc.
Qed.

Lemma scaled_rate0 (rate k : Q) : (rate <= 0)%Q -> (0 <= k)%Q -> (rate * k <= 0)%Q.
Proof.
  intros Hr Hk. assert (E : (0 == 0 * k)%Q) by ring. rewrite E.
  now apply Qmult_le_compat_r.
Qed.

(** X10: with a mutation rate of 0 or less no draw changes anything:
    [mutateProgram] returns the program itself, cut to [maxLength] if it is
    longer and replaced by "+" if that leaves nothing. *)
Theorem mutation_rate_zero (program : jsstring) (rate : Q) (maxLength : Z) :
  (rate <= 0)%Q ->
  returns (mutateProgram program rate maxLength)
    (fun r => r = or_plus (if maxLength <? len program
                           then substring0 program maxLength else program)
              /\ (program <> [] -> len program <= maxLength -> r = program)).
Proof.
  intros Hr. unfold mutateProgram.
  eapply returns_bind; [now apply mutate_loop_rate0|].
  intros mutated ->. cbn [app]. draw_step.
  rewrite Qltb_false
    by (eapply Qle_trans; [apply scaled_rate0; [exact Hr | discriminate] | apply H]).
  cbn [andb].
  eapply (returns_bind _ _ (fun m => m = program)); [now apply returns_ret|].
  intros ? ->.
  draw_step.
  rewrite Qltb_false
    by (eapply Qle_trans; [apply scaled_rate0; [exact Hr | discriminate] | apply H0]).
  cbn [andb].
  eapply (returns_bind _ _ (fun m => m = program)); [now apply returns_ret|].
  intros ? ->.
  apply returns_ret. split; [reflexivity|].
  intros Hne Hlen. replace (maxLength <? len program) with false by lia.
  destruct program; [contradiction | reflexivity].
Qed.

Lemma mutation_rate_zero_witness :
  returns (mutateProgram (str "+[-].") 0 20)
    (fun r => r = or_plus (if 20 <? len (str "+[-].")
                           then substring0 (str "+[-].") 20 else str "+[-].")
              /\ (str "+[-]." <> [] -> len (str "+[-].") <= 20 -> r = str "+[-].")).
Proof. apply mutation_rate_zero. discriminate. Defined.

(** ** Interleaving *)

Lemma slice_take_drop {A} (l : list A) (a b : Z) :
  0 <= a <= b -> b <= len l ->
  slice l a b = take (Z.to_nat (b - a)) (drop (Z.to_nat a) l).
Proof.
  intros Hab Hb. unfold slice, rel_index.
  replace (a <? 0) with false by lia. replace (b <? 0) with false by lia.
  now rewrite !Z.min_l by lia.
Qed.

Lemma take_slice {A} (l : list A) (a b : Z) :
  0 <= a <= b -> b <= len l ->
  take (Z.to_nat b) l = take (Z.to_nat a) l ++ slice l a b.
Proof.
  intros Hab Hb. rewrite slice_take_drop by assumption.
  rewrite take_take_drop. f_equal. lia.
Qed.

Section Merge.
Variables prog1 prog2 : jsstring.

(** The result so far is a merge of the parts of the two programs already
    consumed. *)
Definition merged (s : interleave_state) : Prop :=
  il_result s ≡ₚ take (Z.to_nat (il_i1 s)) prog1 ++ take (Z.to_nat (il_i2 s)) prog2
  /\ take (Z.to_nat (il_i1 s)) prog1 `sublist_of` il_result s
  /\ take (Z.to_nat (il_i2 s)) prog2 `sublist_of` il_result s.

Lemma interleave_body_merged s :
  il_inv prog1 prog2 s -> merged s ->
  ensures (interleave_body prog1 prog2 s) merged.
Proof.
  intros [H1 H2] (Hp & Hs1 & Hs2). unfold interleave_body.
  eapply ensures_bind; [apply ensures_random|]. intros r Hr.
  apply ensures_ret.
  pose proof (floor_mul_range r 5 Hr ltac:(lia)) as Hseg.
  destruct s as [res i1 i2 u]. unfold merged in *.
  cbn [il_result il_i1 il_i2 il_useFirst] in *.
  destruct (u && (i1 <? len prog1)) eqn:E1.
  - apply andb_true_iff in E1 as [_ E1].
    cbn [il_result il_i1 il_i2 il_useFirst].
    set (e := Z.min (i1 + (floor_mul r 5 + 1)) (len prog1)).
    rewrite (take_slice prog1 i1 e) by lia.
    split; [|split].
    + rewrite Hp, <- !app_assoc. apply Permutation_app_head, Permutation_app_comm.
    + now apply sublist_app.
    + now apply sublist_inserts_r.
  - destruct (negb u && (i2 <? len prog2)) eqn:E2.
    + apply andb_true_iff in E2 as [_ E2].
      cbn [il_result il_i1 il_i2 il_useFirst].
      set (e := Z.min (i2 + (floor_mul r 5 + 1)) (len prog2)).
      rewrite (take_slice prog2 i2 e) by lia.
      split; [|split].
      * rewrite Hp, <- !app_assoc. reflexivity.
      * now apply sublist_inserts_r.
      * now apply sublist_app.
    + cbn [il_result il_i1 il_i2 il_useFirst]. now split.
Qed.

Lemma interleave_merged :
  returns (interleavePrograms prog1 prog2)
    (fun r => exists res, r = or_plus res
       /\ res ≡ₚ prog1 ++ prog2
       /\ prog1 `sublist_of` res /\ prog2 `sublist_of` res).
Proof.
  unfold interleavePrograms.
  eapply returns_bind.
  - apply returns_ensures.
    + apply (while_returns (il_inv prog1 prog2) (il_variant prog1 prog2)).
      * apply interleave_body_decreases.
      * unfold il_inv. cbn. pose proof (len_nonneg prog1). pose proof (len_nonneg prog2). lia.
      * unfold il_variant, il_idle, interleave_cond. cbn [il_i1 il_i2 il_useFirst].
        unfold len.
        repeat match goal with
        | |- context [if ?b then _ else _] => destruct b eqn:?
        end; lia.
    + apply (while_ensures (fun s => il_inv prog1 prog2 s /\ merged s)).
      * intros s [Hi Hm] Hc. intros rnd i a j E. split.
        -- exact (proj1 (returns_to_ensures _ _
                    (interleave_body_decreases prog1 prog2 s Hi Hc) rnd i a j E)).
        -- exact (interleave_body_merged s Hi Hm rnd i a j E).
      * split.
        -- unfold il_inv. cbn. pose proof (len_nonneg prog1).
           pose proof (len_nonneg prog2). lia.
        -- unfold merged. cbn. repeat split; constructor.
  - intros s [[_ Hc] [[[H1 H2] (Hp & Hs1 & Hs2)] _]].
    apply returns_ret. exists (il_result s). split; [reflexivity|].
    unfold interleave_cond in Hc. apply orb_false_iff in Hc as [Hc1 Hc2].
    rewrite (take_ge prog1) in Hp, Hs1 by (unfold len in *; lia).
    rewrite (take_ge prog2) in Hp, Hs2 by (unfold len in *; lia).
    auto.
Qed.

End Merge.

(** X11: [interleavePrograms] loses and adds nothing: unless both programs
    are empty, its result is a rearrangement of the symbols of the two
    programs in which each program keeps its order; for two empty programs
    it is "+". *)
Theorem interleave_is_merge (prog1 prog2 : jsstring) :
  returns (interleavePrograms prog1 prog2)
    (fun r => (prog1 ++ prog2 <> [] ->
               r ≡ₚ prog1 ++ prog2
               /\ prog1 `sublist_of` r /\ prog2 `sublist_of` r)
              /\ (prog1 ++ prog2 = [] -> r = str "+")).
Proof.
  eapply returns_weaken; [apply interleave_merged|].
  intros r (res & -> & Hp & Hs1 & Hs2). split.
  - intros Hne. destruct res as [|c res]; [|cbn [or_plus]; auto].
    symmetry in Hp. apply Permutation_nil_r in Hp. contradiction.
  - intros Hnil. rewrite Hnil in Hp. apply Permutation_nil_r in Hp. now subst res.
Qed.

(** ** Crossover *)

Lemma Forall_slice {A} (P : A -> Prop) (l : list A) (a b : Z) :
  Forall P l -> Forall P (slice l a b).
Proof. intros H. unfold slice. now apply Forall_take, Forall_drop. Qed.

Lemma uniform_loop_symbols (P : Z -> Prop) n : forall r1 r2 c1 c2,
  Forall P r1 -> Forall P r2 -> Forall P c1 -> Forall P c2 ->
  returns (uniform_loop n r1 r2 c1 c2)
    (fun ch => Forall P ch.1 /\ Forall P ch.2
               /\ (c1 <> [] -> ch.1 <> []) /\ (c2 <> [] -> ch.2 <> [])).
Proof.
  induction n as [|n IH]; intros r1 r2 c1 c2 H1 H2 G1 G2; cbn [uniform_loop].
  - apply returns_ret. cbn [fst snd]. auto.
  - draw_step.
    assert (T1 : Forall P (take 1 r1)) by now apply Forall_take.
    assert (T2 : Forall P (take 1 r2)) by now apply Forall_take.
    assert (D1 : Forall P (drop 1 r1)) by now apply Forall_drop.
    assert (D2 : Forall P (drop 1 r2)) by now apply Forall_drop.
    destruct (Qltb a (1 # 2)).
    + eapply returns_weaken;
        [apply (IH _ _ (c1 ++ take 1 r1) (c2 ++ take 1 r2)); try assumption;
         apply Forall_app; now split|].
      intros ch (F1 & F2 & N1 & N2). repeat split; try assumption.
      * intros Hc. apply N1. now apply app_nonempty_l.
      * intros Hc. apply N2. now apply app_nonempty_l.
    + eapply returns_weaken;
        [apply (IH _ _ (c1 ++ take 1 r2) (c2 ++ take 1 r1)); try assumption;
         apply Forall_app; now split|].
      intros ch (F1 & F2 & N1 & N2). repeat split; try assumption.
      * intros Hc. apply N1. now apply app_nonempty_l.
      * intros Hc. apply N2. now apply app_nonempty_l.
Qed.

Lemma uniform_symbols (P : Z -> Prop) (a b : Z) (p1 p2 : jsstring) n :
  Forall P (a :: p1) -> Forall P (b :: p2) ->
  returns (uniform_loop (S n) (a :: p1) (b :: p2) [] [])
    (fun ch => Forall P (or_plus ch.1) /\ Forall P (or_plus ch.2)).
Proof.
  intros H1 H2. cbn [uniform_loop]. draw_step.
  assert (Ha : Forall P [a]) by (constructor; [now apply Forall_inv in H1 | constructor]).
  assert (Hb : Forall P [b]) by (constructor; [now apply Forall_inv in H2 | constructor]).
  assert (D1 : Forall P p1) by now apply Forall_inv_tail in H1.
  assert (D2 : Forall P p2) by now apply Forall_inv_tail in H2.
  cbn [take drop app].
  destruct (Qltb a0 (1 # 2)).
  - eapply returns_weaken; [apply (uniform_loop_symbols P n p1 p2 [a] [b]); assumption|].
    intros [c1 c2] (F1 & F2 & N1 & N2). cbn [fst snd] in *.
    destruct c1; [now destruct N1|]. destruct c2; [now destruct N2|]. now split.
  - eapply returns_weaken; [apply (uniform_loop_symbols P n p1 p2 [b] [a]); assumption|].
    intros [c1 c2] (F1 & F2 & N1 & N2). cbn [fst snd] in *.
    destruct c1; [now destruct N1|]. destruct c2; [now destruct N2|]. now split.
Qed.

Lemma interleave_symbols (P : Z -> Prop) (p1 p2 : jsstring) :
  p1 <> [] -> Forall P p1 -> Forall P p2 ->
  returns (interleavePrograms p1 p2) (Forall P).
Proof.
  intros Hne H1 H2. eapply returns_weaken; [apply interleave_merged|].
  intros r (res & -> & Hp & _).
  assert (Hres : Forall P res) by (rewrite Hp; apply Forall_app; now split).
  destruct res as [|c res]; [|exact Hres].
  symmetry in Hp. apply Permutation_nil_r in Hp.
  apply app_eq_nil in Hp as [Hp _]. contradiction.
Qed.

Lemma crossover_symbols (P : Z -> Prop) (parent1 parent2 : jsstring) :
  Forall P parent1 -> Forall P parent2 ->
  returns (crossoverPrograms parent1 parent2)
    (fun ch => Forall P ch.1 /\ Forall P ch.2).
Proof.
  intros H1 H2. unfold crossoverPrograms.
  destruct parent1 as [|a p1]; [now apply returns_ret|].
  destruct parent2 as [|b p2]; [now apply returns_ret|].
  replace (len (a :: p1) =? 0) with false
    by (pose proof (len_nonneg p1); rewrite len_cons; lia).
  replace (len (b :: p2) =? 0) with false
    by (pose proof (len_nonneg p2); rewrite len_cons; lia).
  cbn [orb]. draw_step. destruct (Qltb a0 (4 # 10)).
  { draw_step. draw_step. apply returns_ret. cbn [fst snd].
    split; apply Forall_app; split; now apply Forall_slice. }
  destruct (Qltb a0 (7 # 10)).
  { draw_step. draw_step. draw_step. draw_step. apply returns_ret. cbn [fst snd].
    split; repeat (apply Forall_app; split); now apply Forall_slice. }
  destruct (Qltb a0 (85 # 100)).
  { draw_step. destruct (Qltb a1 (1 # 2)).
    - eapply returns_bind; [apply (interleave_symbols P); [discriminate | exact H1 | exact H2]|].
      intros child1 Hc1.
      eapply returns_bind; [apply (interleave_symbols P); [discriminate | exact H2 | exact H1]|].
      intros child2 Hc2. apply returns_ret. now split.
    - draw_step. draw_step. apply returns_ret. cbn [fst snd].
      split; match goal with |- context [if ?c then _ else _] => destruct c end;
        apply Forall_app; now split. }
  destruct (Z.to_nat (Z.max (len (a :: p1)) (len (b :: p2)))) as [|n] eqn:En.
  { pose proof (len_nonneg p1). rewrite len_cons in En. lia. }
  eapply returns_bind; [apply (uniform_symbols P a b p1 p2 n H1 H2)|].
  intros [c1 c2] [F1 F2]. apply returns_ret. now split.
Qed.

(** X12: crossover invents no symbol: under every strategy, each symbol of
    each child is a symbol of one of the two parents. *)
Theorem crossover_keeps_alphabet (parent1 parent2 : jsstring) :
  returns (crossoverPrograms parent1 parent2)
    (fun ch => forall c, c ∈ ch.1 \/ c ∈ ch.2 -> c ∈ parent1 \/ c ∈ parent2).
Proof.
  eapply returns_weaken.
  - apply (crossover_symbols (fun c => c ∈ parent1 \/ c ∈ parent2)).
    + apply Forall_forall. auto.
    + apply Forall_forall. auto.
  - intros ch [F1 F2] c [Hc | Hc].
    + rewrite Forall_forall in F1. now apply F1.
    + rewrite Forall_forall in F2. now apply F2.
Qed.

End OperatorsMore.

(** * Further properties of the genetic algorithm *)

Module GAMore.
Import GA GAFacts OperatorsMore.

(** ** Tournament selection *)

Lemma random_member_run pop rnd i :
  random_member pop rnd i
  = Ret (item_at pop (floor_mul (dval (rnd i)) (len pop)), S i).
Proof. reflexivity. Qed.

Lemma item_at_member (pop : list Individual) (r : Q) :
  (0 <= r /\ r < 1)%Q -> pop <> [] ->
  exists x, item_at pop (floor_mul r (len pop)) = Some x /\ x ∈ pop.
Proof.
  intros Hr Hne.
  assert (Hl : 0 < len pop).
  { pose proof (len_nonneg pop). pose proof (len_zero pop).
    destruct (Z.eq_dec (len pop) 0); [tauto | lia]. }
  pose proof (floor_mul_range r (len pop) Hr Hl) as Hi.
  unfold item_at. replace (floor_mul r (len pop) <? 0) with false by lia.
  destruct (lookup_lt_is_Some_2 pop (Z.to_nat (floor_mul r (len pop)))) as [x Hx].
  { unfold len in *. lia. }
  exists x. split; [exact Hx|]. eapply list_elem_of_lookup_2. exact Hx.
Qed.

Lemma tournament_cases g rnd i :
  match tournamentSelection g rnd i with
  | Ret (p, _) => p ∈ population g
  | Throw => population g = []
  | Timeout => False
  end.
Proof.
  unfold tournamentSelection, tournament_round, mbind, M_bind.
  rewrite !random_member_run.
  destruct (population g) as [|b pop] eqn:Ep.
  - rewrite !item_at_nil. reflexivity.
  - destruct (item_at_member (b :: pop) (dval (rnd i)) (draw_range _) ltac:(discriminate))
      as (x1 & -> & H1).
    destruct (item_at_member (b :: pop) (dval (rnd (S i))) (draw_range _)
                ltac:(discriminate)) as (x2 & -> & H2).
    unfold mret, M_ret. rewrite random_member_run.
    destruct (item_at_member (b :: pop) (dval (rnd (S (S i)))) (draw_range _)
                ltac:(discriminate)) as (x3 & -> & H3).
    repeat match goal with |- context [if ?c then _ else _] => destruct c end;
      assumption.
Qed.

(** X13: [tournamentSelection] returns an individual of the population;
    it throws exactly when the population is empty, whatever the draws. *)
Theorem tournament_selects_member (g : GeneticAlgorithm) (rnd : nat -> draw) (i : nat) :
  match tournamentSelection g rnd i with
  | Ret (p, _) => p ∈ population g /\ population g <> []
  | Throw => population g = []
  | Timeout => False
  end.
Proof.
  pose proof (tournament_cases g rnd i) as H.
  destruct (tournamentSelection g rnd i) as [[p j]| |]; [|exact H | exact H].
  split; [exact H|]. intros E. rewrite E in H. now apply elem_of_nil in H.
Qed.

Lemma tournament_empty g rnd i :
  population g = [] -> tournamentSelection g rnd i = Throw.
Proof.
  intros E. pose proof (tournament_cases g rnd i) as H.
  destruct (tournamentSelection g rnd i) as [[p j]| |]; [|reflexivity | contradiction].
  rewrite E in H. now apply elem_of_nil in H.
Qed.

(** X14: [evolve()] on an empty population, a state before
    [initialize()], throws when [populationSize] is positive: the first
    tournament has nobody to select. *)
Theorem evolve_before_initialize_throws (fuel : nat) (g : GeneticAlgorithm)
    (rnd : nat -> draw) (i : nat) :
  population g = [] -> 0 < populationSize (settings g) ->
  evolve fuel g rnd i = Throw.
Proof.
  intros Ep Hp. unfold evolve, evolve_offspring.
  unfold mbind at 1, M_bind at 1.
  assert (Hs : slice (population g) 0 (elitism (settings g)) = []).
  { rewrite Ep. unfold slice. now rewrite drop_nil, take_nil. }
  rewrite Hs.
  destruct (Z.to_nat (maxAttempts g)) as [|n] eqn:En; [unfold maxAttempts in En; lia|].
  cbn [while]. unfold offspring_cond. cbn [newPopulation attempts].
  change (len []) with 0.
  replace ((0 <? populationSize (settings g)) && (0 <? maxAttempts g)) with true
    by (unfold maxAttempts; lia).
  unfold offspring_body. unfold mbind at 1, M_bind at 1.
  unfold mbind at 1, M_bind at 1.
  now rewrite tournament_empty.
Qed.

Lemma evolve_before_initialize_throws_witness :
  evolve 5 (new sample_settings sample_cases []) zeros 0%nat = Throw.
Proof. apply evolve_before_initialize_throws; [reflexivity | reflexivity]. Defined.

(** ** What the cached results say *)

(** Every individual of the population is the evaluation of its own code
    on the cases of [g]. *)
Definition evaluated (g : GeneticAlgorithm) (pop : list Individual) : Prop :=
  forall ind, ind ∈ pop -> ind = evaluateIndividual g (code ind).

Definition same_frame (g g' : GeneticAlgorithm) : Prop :=
  settings g' = settings g /\ trainCases g' = trainCases g
  /\ testCases g' = testCases g /\ seedGenomes g' = seedGenomes g.

Lemma evaluate_same_frame g g' program :
  same_frame g g' -> evaluateIndividual g' program = evaluateIndividual g program.
Proof.
  intros (_ & Htr & Hte & _). unfold evaluateIndividual. now rewrite Htr, Hte.
Qed.

Lemma evaluated_same_frame g g' pop :
  same_frame g g' -> evaluated g pop -> evaluated g' pop.
Proof.
  intros Hf He ind Hind. rewrite (evaluate_same_frame g g' _ Hf). now apply He.
Qed.

Lemma evaluated_closed g : closed g (fun s => evaluated g s.1).
Proof.
  intros program s He.
  destruct (add_unique_cases g program s) as [[_ ->] | [_ ->]]; [exact He|].
  cbn [fst]. intros ind Hind. apply elem_of_app in Hind as [Hind | Hind].
  - now apply He.
  - apply list_elem_of_singleton in Hind. subst ind. now rewrite code_evaluate.
Qed.

Lemma initialize_evaluated fuel g :
  ensures (initialize fuel g)
    (fun g' => same_frame g g' /\ generation g' = 0 /\ evaluated g (population g')).
Proof.
  eapply ensures_weaken.
  - apply (initialize_closed fuel g (fun s => evaluated g s.1)).
    + apply evaluated_closed.
    + intros ind Hind. now apply elem_of_nil in Hind.
  - intros g' (f & He & ->). split; [repeat split|]. split; [reflexivity|].
    cbn [population with_population]. intros ind Hind.
    rewrite sortPopulation_perm in Hind. now apply He.
Qed.

Lemma evolve_evaluated fuel g :
  evaluated g (population g) ->
  ensures (evolve fuel g)
    (fun g' => same_frame g g' /\ generation g' = generation g + 1
               /\ evaluated g (population g')).
Proof.
  intros He. eapply ensures_weaken.
  - apply (evolve_builds fuel g (fun s => evaluated g s.1)).
    + apply evaluated_closed.
    + cbn [fst elite_state]. intros ind Hind. apply He.
      eapply prefix_elem; [apply elite_prefix | exact Hind].
  - intros g' (f & Hf & _ & ->). split; [repeat split|]. split; [reflexivity|].
    cbn [population with_population]. intros ind Hind.
    rewrite sortPopulation_perm in Hind.
    destruct (slice_prefix f.1 (populationSize (settings g))) as [k Hk].
    rewrite Hk in Hind. apply Hf. eapply prefix_elem; [apply prefix_take | exact Hind].
Qed.

Lemma same_frame_trans g g1 g2 : same_frame g g1 -> same_frame g1 g2 -> same_frame g g2.
Proof.
  unfold same_frame. intros (A1 & A2 & A3 & A4) (B1 & B2 & B3 & B4).
  repeat split; congruence.
Qed.

Lemma advance_evaluated fuel n : forall g,
  evaluated g (population g) ->
  ensures (advance fuel n g)
    (fun g' => same_frame g g' /\ generation g' = generation g + Z.of_nat n
               /\ evaluated g (population g')).
Proof.
  induction n as [|n IH]; intros g He; cbn [advance].
  - apply ensures_ret. split; [repeat split|]. split; [lia | exact He].
  - eapply ensures_bind; [now apply evolve_evaluated|].
    intros g1 (Hf1 & Hg1 & He1).
    eapply ensures_weaken.
    + apply IH. now apply (evaluated_same_frame g g1).
    + intros g2 (Hf2 & Hg2 & He2). split; [eapply same_frame_trans; eassumption|].
      split; [lia|].
      apply (evaluated_same_frame g1 g); [|exact He2].
      destruct Hf1 as (A1 & A2 & A3 & A4). repeat split; congruence.
Qed.

(** A program solves the cases when the interpreter gives the expected
    output on each of them. *)
Definition solves (cases : list TestCase) (program : jsstring) : Prop :=
  forall tc, tc ∈ cases ->
  Interp.executeBrainfuck program (input tc) default_maxSteps = expected tc.

Lemma accuracy_100 n cases :
  (accuracy_of n cases == 100)%Q -> n = len cases /\ cases <> [].
Proof.
  unfold accuracy_of. destruct (0 <? len cases) eqn:E.
  - intros H. split; [|intros ->; discriminate].
    assert (Hpos : ~ (inject_Z (len cases) == 0)%Q).
    { intros Hz. unfold Qeq, inject_Z in Hz. cbn [Qnum Qden] in Hz. lia. }
    assert (H1 : (inject_Z n / inject_Z (len cases) == 1)%Q).
    { apply (Qmult_inj_r _ _ 100); [discriminate|]. rewrite H. reflexivity. }
    apply inject_Z_injective.
    rewrite <- (Qmult_div_r (inject_Z n) (inject_Z (len cases)) Hpos), H1.
    ring.
  - intros H. discriminate.
Qed.

Lemma passed_all program cases :
  passed_count program cases = len cases -> solves cases program.
Proof.
  unfold passed_count, solves. induction cases as [|tc cases IH]; intros H x Hx.
  - now apply elem_of_nil in Hx.
  - cbn [List.filter] in H.
    pose proof (List.filter_length_le (passes program) cases) as Hle.
    destruct (passes program tc) eqn:Ep; rewrite !len_cons in H.
    + apply elem_of_cons in Hx as [-> | Hx].
      * unfold passes in Ep. now apply bool_decide_eq_true in Ep.
      * apply IH; [lia | exact Hx].
    + unfold len in H. lia.
Qed.

Lemma is_100_evaluated n cases :
  is_100 (Some (accuracy_of n cases)) = true -> n = len cases /\ cases <> [].
Proof. cbn [is_100]. intros H. apply Qeq_bool_iff in H. now apply accuracy_100. Qed.

Lemma perfect_solves g :
  evaluated g (population g) -> hasPerfectSolution g = true ->
  exists best, getBestIndividual g = Some best
    /\ trainCases g <> []
    /\ solves (trainCases g) (code best) /\ solves (testCases g) (code best).
Proof.
  intros He Hp. unfold hasPerfectSolution in Hp.
  destruct (getBestIndividual g) as [best|] eqn:Eb; [|discriminate].
  exists best. split; [reflexivity|].
  assert (Hin : best ∈ population g).
  { rewrite getBestIndividual_head in Eb. destruct (population g); [discriminate|].
    injection Eb as ->. apply elem_of_cons. now left. }
  pose proof (He best Hin) as Hev.
  destruct (evaluate_fields g (code best)) as (_ & Htr & Hte & _).
  rewrite <- Hev in Htr, Hte.
  apply andb_true_iff in Hp as [Ht Hs]. rewrite Htr in Ht.
  apply is_100_evaluated in Ht as [Ht Hne]. split; [exact Hne|].
  split; [now apply passed_all|].
  apply orb_true_iff in Hs as [Hs | Hs].
  - apply Z.eqb_eq, len_zero in Hs. rewrite Hs. intros tc Htc.
    now apply elem_of_nil in Htc.
  - rewrite Hte in Hs. apply is_100_evaluated in Hs as [Hs _]. now apply passed_all.
Qed.

(** X15: after [initialize()] and any number of [evolve()] calls on the
    same cases, [hasPerfectSolution()] is true only if the program of the
    best individual gives the expected output on every train case and every
    test case, and there is a train case. *)
Theorem perfect_solution_solves (fuel n : nat) (g : GeneticAlgorithm) :
  ensures (g1 ← initialize fuel g; advance fuel n g1)
    (fun g' => hasPerfectSolution g' = true ->
       exists best, getBestIndividual g' = Some best
         /\ trainCases g <> []
         /\ solves (trainCases g) (code best) /\ solves (testCases g) (code best)).
Proof.
  eapply ensures_bind; [apply initialize_evaluated|].
  intros g1 (Hf1 & _ & He1).
  eapply ensures_weaken.
  - apply advance_evaluated. now apply (evaluated_same_frame g g1).
  - intros g2 (Hf2 & _ & He2) Hp.
    assert (Hf : same_frame g g2) by (eapply same_frame_trans; eassumption).
    destruct (perfect_solves g2 (evaluated_same_frame g1 g2 _ Hf2 He2) Hp)
      as (best & Hb & Hne & Htr & Hte).
    destruct Hf as (_ & Etr & Ete & _). rewrite Etr in Hne, Htr. rewrite Ete in Hte.
    eauto.
Qed.

(** X16: [initialize()] sets the generation counter to 0 and each
    [evolve()] adds 1 to it; neither changes the settings, the cases or the
    seed genomes. *)
Theorem generation_counts_calls (fuel n : nat) (g : GeneticAlgorithm) :
  ensures (g1 ← initialize fuel g; advance fuel n g1)
    (fun g' => getGeneration g' = Z.of_nat n
               /\ settings g' = settings g /\ trainCases g' = trainCases g
               /\ testCases g' = testCases g /\ getSeedGenomes g' = seedGenomes g).
Proof.
  eapply ensures_bind; [apply initialize_evaluated|].
  intros g1 (Hf1 & Hg1 & He1).
  eapply ensures_weaken.
  - apply advance_evaluated. now apply (evaluated_same_frame g g1).
  - intros g2 (Hf2 & Hg2 & _). unfold getGeneration, getSeedGenomes.
    split; [lia|]. exact (same_frame_trans g g1 g2 Hf1 Hf2).
Qed.

(** ** The length bound in the population *)

Definition within (g : GeneticAlgorithm) (program : jsstring) : Prop :=
  len program <= Z.max 1 (maxProgramLength (settings g)).

Definition bounded (g : GeneticAlgorithm) (pop : list Individual) : Prop :=
  forall ind, ind ∈ pop -> within g (code ind).

Lemma add_unique_bounded g program s :
  within g program -> bounded g s.1 -> bounded g (add_unique g program s).1.
Proof.
  intros Hw Hb. destruct (add_unique_cases g program s) as [[_ ->] | [_ ->]];
    [exact Hb|].
  cbn [fst]. intros ind Hind. apply elem_of_app in Hind as [Hind | Hind].
  - now apply Hb.
  - apply list_elem_of_singleton in Hind. subst ind. now rewrite code_evaluate.
Qed.

Lemma generated_within g length :
  ensures (generateRandomProgram length (maxProgramLength (settings g))) (within g).
Proof.
  apply returns_to_ensures. eapply returns_weaken; [apply generate_shape|].
  intros p (Hl & _). unfold within. lia.
Qed.

Lemma mutated_within g program :
  ensures (mutateProgram program (mutationRate (settings g))
             (maxProgramLength (settings g))) (within g).
Proof.
  apply returns_to_ensures. eapply returns_weaken; [apply mutate_shape|].
  intros p [_ Hl]. exact Hl.
Qed.

Lemma initialize_body_bounded g s :
  bounded g s.1 -> ensures (initialize_body g s) (fun s' => bounded g s'.1).
Proof.
  intros Hb. unfold initialize_body. do 2 skip_step.
  eapply ensures_bind; [apply generated_within|]. intros program Hw.
  apply ensures_ret. now apply add_unique_bounded.
Qed.

Lemma fallback_body_bounded g s :
  bounded g s.1 -> ensures (fallback_body g s) (fun s' => bounded g s'.1).
Proof.
  intros Hb. unfold fallback_body. skip_step.
  eapply ensures_bind; [apply generated_within|]. intros program Hw.
  apply ensures_ret. now apply add_unique_bounded.
Qed.

Lemma offspring_body_bounded g s :
  bounded g (newPopulation s) ->
  ensures (offspring_body g s) (fun s' => bounded g (newPopulation s')).
Proof.
  intros Hb. unfold offspring_body. do 3 skip_step.
  eapply ensures_bind; [apply ensures_true|]. intros [c1 c2] _.
  eapply ensures_bind; [apply mutated_within|]. intros m1 Hw1.
  eapply ensures_bind; [apply mutated_within|]. intros m2 Hw2.
  apply ensures_ret. cbn [newPopulation].
  pose proof (add_unique_bounded g m1 (newPopulation s, uniqueCodes s) Hw1 Hb) as H1.
  destruct (len _ <? _); [now apply add_unique_bounded | exact H1].
Qed.

Lemma seed_loop_bounded g seeds : forall pop uniq count,
  Forall (within g) seeds -> bounded g pop ->
  bounded g (seed_loop g seeds pop uniq count).1.
Proof.
  induction seeds as [|c seeds IH]; intros pop uniq count Hs Hb; cbn [seed_loop];
    [exact Hb|].
  apply Forall_cons in Hs as [Hc Hs].
  destruct (_ <=? count); [exact Hb|].
  destruct (bool_decide (c ∈ uniq)); [now apply IH|].
  apply IH; [exact Hs|]. intros ind Hind. apply elem_of_app in Hind as [Hind | Hind].
  - now apply Hb.
  - apply list_elem_of_singleton in Hind. subst ind. now rewrite code_evaluate.
Qed.

Lemma bounded_sorted g pop : bounded g pop -> bounded g (sortPopulation pop).
Proof. intros Hb ind Hind. rewrite sortPopulation_perm in Hind. now apply Hb. Qed.

Lemma initialize_bounded fuel g :
  Forall (within g) (seedGenomes g) ->
  ensures (initialize fuel g) (fun g' => settings g' = settings g
                                         /\ bounded g (population g')).
Proof.
  intros Hs. unfold initialize. eapply ensures_bind.
  - apply (while_ensures (fun s => bounded g s.1)).
    + intros s Hb _. now apply initialize_body_bounded.
    + apply seed_loop_bounded; [exact Hs|]. intros ind Hind.
      now apply elem_of_nil in Hind.
  - intros f [Hb _]. apply ensures_ret. split; [reflexivity|].
    cbn [population with_population]. now apply bounded_sorted.
Qed.

Lemma evolve_bounded fuel g :
  bounded g (population g) ->
  ensures (evolve fuel g) (fun g' => settings g' = settings g
                                     /\ bounded g (population g')).
Proof.
  intros Hb. unfold evolve. eapply ensures_bind.
  - unfold evolve_offspring.
    apply (while_ensures (fun s => bounded g (newPopulation s))).
    + intros s Hs _. now apply offspring_body_bounded.
    + cbn [newPopulation]. intros ind Hind. apply Hb.
      eapply prefix_elem; [apply elite_prefix | exact Hind].
  - intros s [Hs _]. eapply ensures_bind.
    + apply (while_ensures (fun st => bounded g st.1)).
      * intros st Hst _. now apply fallback_body_bounded.
      * exact Hs.
    + intros f [Hf _]. apply ensures_ret. split; [reflexivity|].
      cbn [population with_population]. apply bounded_sorted.
      intros ind Hind.
      destruct (slice_prefix f.1 (populationSize (settings g))) as [k Hk].
      rewrite Hk in Hind. apply Hf. eapply prefix_elem; [apply prefix_take | exact Hind].
Qed.

Lemma advance_bounded fuel n : forall g,
  bounded g (population g) ->
  ensures (advance fuel n g) (fun g' => settings g' = settings g
                                        /\ bounded g (population g')).
Proof.
  induction n as [|n IH]; intros g Hb; cbn [advance].
  - apply ensures_ret. now split.
  - eapply ensures_bind; [now apply evolve_bounded|]. intros g1 [E1 H1].
    assert (Hb1 : bounded g1 (population g1)).
    { intros ind Hind. unfold within. rewrite E1. now apply H1. }
    eapply ensures_weaken; [apply IH; exact Hb1|].
    intros g2 [E2 H2]. split; [congruence|].
    intros ind Hind. pose proof (H2 ind Hind) as Hw. unfold within in *.
    now rewrite E1 in Hw.
Qed.

(** X17: when the seed genomes are within the length bound, so is every
    program of every generation: each individual of the population after
    [initialize()] and any number of [evolve()] calls has at most
    [max 1 maxProgramLength] symbols. *)
Theorem population_within_length (fuel n : nat) (g : GeneticAlgorithm) :
  Forall (fun seed => len seed <= Z.max 1 (maxProgramLength (settings g)))
    (seedGenomes g) ->
  ensures (g1 ← initialize fuel g; advance fuel n g1)
    (fun g' => forall ind, ind ∈ population g' ->
               len (code ind) <= Z.max 1 (maxProgramLength (settings g))).
Proof.
  intros Hs. eapply ensures_bind; [now apply initialize_bounded|].
  intros g1 [E1 H1].
  assert (Hb1 : bounded g1 (population g1)).
  { intros ind Hind. unfold within. rewrite E1. now apply H1. }
  eapply ensures_weaken; [apply advance_bounded; exact Hb1|].
  intros g2 [E2 H2] ind Hind. pose proof (H2 ind Hind) as Hw. unfold within in Hw.
  now rewrite E1 in Hw.
Qed.

Lemma population_within_length_witness :
  exists g1 i g2 j,
    initialize 20 sample_ga mixed 0%nat = Ret (g1, i)
    /\ evolve 20 g1 mixed i = Ret (g2, j)
    /\ forall ind, ind ∈ population g2 -> len (code ind) <= 20.
Proof.
  destruct sample_two_generations as (g1 & i & g2 & j & E1 & E2 & _).
  exists g1, i, g2, j. split; [exact E1|]. split; [exact E2|].
  refine (population_within_length 20 1 sample_ga _ mixed 0%nat g2 j _).
  - constructor; [vm_compute; discriminate | constructor].
  - unfold mbind, M_bind. rewrite E1. cbn [advance]. unfold mbind, M_bind.
    now rewrite E2.
Defined.

(** ** The seeds *)

Lemma seed_loop_takes g seeds : forall pop uniq count,
  NoDup seeds -> (forall c, c ∈ seeds -> c ∉ uniq) ->
  (seed_loop g seeds pop uniq count).1
  = pop ++ (evaluateIndividual g <$> take (Z.to_nat (seed_limit g - count)) seeds).
Proof.
  induction seeds as [|c seeds IH]; intros pop uniq count Hnd Hfresh;
    cbn [seed_loop]; fold (seed_limit g).
  - rewrite take_nil. cbn. now rewrite app_nil_r.
  - apply NoDup_cons in Hnd as [Hc Hnd].
    destruct (seed_limit g <=? count) eqn:El.
    + replace (Z.to_nat (seed_limit g - count)) with 0%nat by lia.
      cbn. now rewrite app_nil_r.
    + rewrite bool_decide_eq_false_2
        by (apply Hfresh; apply elem_of_cons; now left).
      rewrite IH; [|exact Hnd|].
      * replace (Z.to_nat (seed_limit g - count))
          with (S (Z.to_nat (seed_limit g - (count + 1)))) by lia.
        cbn [take fmap list_fmap]. now rewrite <- app_assoc.
      * intros c' Hc' Hin. apply elem_of_union in Hin as [Hin | Hin].
        -- apply elem_of_singleton in Hin. now subst c'.
        -- eapply Hfresh; [|exact Hin]. apply elem_of_cons. now right.
Qed.

Definition taken_seeds (g : GeneticAlgorithm) : list jsstring :=
  take (Z.to_nat (seed_limit g)) (seedGenomes g).

Lemma initialize_seeded_prefix fuel g :
  ensures (initialize fuel g) (fun g' =>
    forall ind, ind ∈ (seed_loop g (seedGenomes g) [] ∅ 0).1 -> ind ∈ population g').
Proof.
  unfold initialize. eapply ensures_bind.
  - apply (while_ensures
             (fun s : list Individual * gset jsstring =>
                (seed_loop g (seedGenomes g) [] ∅ 0).1 `prefix_of` s.1)).
    + intros s Hp _. eapply ensures_weaken; [apply initialize_body_adds|].
      intros s' [program ->]. now apply add_unique_prefix.
    + reflexivity.
  - intros f [Hp _]. apply ensures_ret. intros ind Hind.
    cbn [population with_population]. rewrite sortPopulation_perm.
    eapply prefix_elem; eassumption.
Qed.

Lemma initialize_keeps_seeded fuel g :
  ensures (initialize fuel g) (fun g' =>
    seedGenomes g' = seedGenomes g
    /\ distinct_codes (population g')
    /\ forall ind, ind ∈ (seed_loop g (seedGenomes g) [] ∅ 0).1 ->
                   ind ∈ population g').
Proof.
  intros rnd i g' j E. split; [|split].
  - exact (proj2 (proj2 (proj2 (proj1 (initialize_evaluated fuel g rnd i g' j E))))).
  - exact (initialize_distinct fuel g rnd i g' j E).
  - exact (initialize_seeded_prefix fuel g rnd i g' j E).
Qed.

Lemma seeded_individuals g :
  NoDup (seedGenomes g) ->
  (seed_loop g (seedGenomes g) [] ∅ 0).1 = evaluateIndividual g <$> taken_seeds g.
Proof.
  intros Hnd. rewrite seed_loop_takes; [|exact Hnd|].
  - unfold taken_seeds. now rewrite Z.sub_0_r.
  - intros c _ Hin. now apply not_elem_of_empty in Hin.
Qed.

(** X18: with seed genomes that are pairwise distinct, the first
    [floor (0.3 * populationSize)] of them are in the population after
    [initialize()], each as the evaluation of its program. *)
Theorem seeds_in_population (fuel : nat) (g : GeneticAlgorithm) :
  NoDup (seedGenomes g) ->
  ensures (initialize fuel g) (fun g' =>
    forall seed,
      seed ∈ take (Z.to_nat (Qfloor (inject_Z (populationSize (settings g)) * (3 # 10))))
               (seedGenomes g) ->
      evaluateIndividual g seed ∈ population g').
Proof.
  intros Hnd. eapply ensures_weaken; [apply initialize_keeps_seeded|].
  intros g' (_ & _ & Hin) seed Hseed. apply Hin.
  rewrite (seeded_individuals g Hnd). apply list_elem_of_fmap. exists seed.
  split; [reflexivity | exact Hseed].
Qed.

Lemma seeds_in_population_witness :
  exists g1 i,
    initialize 20 sample_ga mixed 0%nat = Ret (g1, i)
    /\ evaluateIndividual sample_ga (str ",+.") ∈ population g1.
Proof.
  destruct sample_two_generations as (g1 & i & g2 & j & E1 & _).
  exists g1, i. split; [exact E1|].
  refine (seeds_in_population 20 sample_ga _ mixed 0%nat g1 i E1 (str ",+.") _).
  - apply NoDup_singleton.
  - vm_compute. apply elem_of_cons. now left.
Defined.

(** X19: [getSeededCount()] after [initialize()] with pairwise distinct
    seed genomes is at least the number of seeds taken,
    [min seeds.length (floor (0.3 * populationSize))], and at most the size
    of the population. *)
Theorem seeded_count_bounds (fuel : nat) (g : GeneticAlgorithm) :
  NoDup (seedGenomes g) ->
  ensures (initialize fuel g) (fun g' =>
    Z.min (len (seedGenomes g))
          (Z.max 0 (Qfloor (inject_Z (populationSize (settings g)) * (3 # 10))))
    <= getSeededCount g' <= len (population g')).
Proof.
  intros Hnd. eapply ensures_weaken; [apply initialize_keeps_seeded|].
  intros g' (Es & _ & Hin). unfold getSeededCount. rewrite Es.
  fold (seed_limit g).
  destruct (len (seedGenomes g) =? 0) eqn:E0.
  { pose proof (len_nonneg (population g')). lia. }
  set (keep := fun ind => bool_decide (code ind ∈ seedGenomes g)).
  split.
  - assert (Hsub : evaluateIndividual g <$> taken_seeds g ⊆+ List.filter keep (population g')).
    { apply NoDup_submseteq.
      - apply (NoDup_fmap_1 code). rewrite <- list_fmap_compose.
        erewrite (list_fmap_ext _ id); [rewrite list_fmap_id|].
        + unfold taken_seeds. rewrite <- (take_drop (Z.to_nat (seed_limit g))) in Hnd.
          now apply NoDup_app in Hnd as [Hnd _].
        + intros k c _. cbn. apply code_evaluate.
      - intros ind Hind. apply list_elem_of_In, List.filter_In. split.
        + apply list_elem_of_In. apply Hin. now rewrite (seeded_individuals g Hnd).
        + apply list_elem_of_fmap in Hind as (c & -> & Hc). unfold keep.
          apply bool_decide_eq_true. rewrite code_evaluate.
          unfold taken_seeds in Hc. now apply subseteq_take in Hc. }
    apply submseteq_length in Hsub. rewrite length_fmap in Hsub.
    unfold taken_seeds in Hsub. rewrite length_take in Hsub. unfold len. lia.
  - pose proof (List.filter_length_le keep (population g')). unfold len. lia.
Qed.

Lemma seeded_count_bounds_witness :
  exists g1 i,
    initialize 20 sample_ga mixed 0%nat = Ret (g1, i)
    /\ 1 <= getSeededCount g1 <= len (population g1).
Proof.
  destruct sample_two_generations as (g1 & i & g2 & j & E1 & _).
  exists g1, i. split; [exact E1|].
  exact (seeded_count_bounds 20 sample_ga (NoDup_singleton _) mixed 0%nat g1 i E1).
Defined.

End GAMore.
